(** * GestureVault: gesture matcher, complexity score, anti-spoofing and lockout

    A shallow embedding of
      - Backend/src/models/Gesture.js   (validateGesture, comparePositions,
                                          compareTiming, calculateConfidence)
      - Backend/src/models/User.js      (isLocked, incLoginAttempts,
                                          resetLoginAttempts)
      - Backend/src/routes/auth.js      (POST /api/auth/login)
      - Backend/src/middleware/auth.js  (rateLimitByUser)
      - Backend/src/routes/gestures.js  (calculateComplexity, analyzeGesture,
                                          analyzeBiometricData and the helpers
                                          they call)
      - Frontend/js/modules/security.js (performAntiSpoofingCheck and its
                                          three analyses; the threat level,
                                          the failed attempts and the locks)

    A JavaScript Number is an IEEE-754 binary64 value; it is modelled by
    Rocq's primitive [float], which is the same format with the same
    rounding, NaN and infinity rules.  The numeric code is written over an
    arithmetic interface whose instance is that arithmetic; where a
    statement speaks of the number a value denotes, the number is a real
    ([Value.of_float]).  Dates are milliseconds since the epoch, in [Z]. *)

From Stdlib Require Import ZArith List Bool String Lia.
From Stdlib Require Import Floats.
From Stdlib Require Import Reals Lra Zfloor.
From Stdlib Require Import Sorted.
Import ListNotations.

Local Open Scope Z_scope.

(* Decimal literals denote the nearest binary64 value, as in JavaScript. *)
Set Warnings "-inexact-float".

(** ** Results of calls that may throw *)

Inductive result (A : Type) : Type :=
| Ok (a : A)
| Throw (message : string).
Arguments Ok {A} a.
Arguments Throw {A} message%_string.

(** ** Numbers *)

(** The arithmetic the numeric code is written over: the operators and
    [Math] functions it uses and the literals it mentions.  [FloatArith]
    below is the JavaScript instance. *)
Class Arith (num : Type) : Type := {
  lit_0 : num;                      (* 0    *)
  lit_1 : num;                      (* 1    *)
  lit_10 : num;                     (* 10   *)
  lit_0_5 : num;                    (* 0.5  *)
  lit_0_1 : num;                    (* 0.1  *)
  lit_0_01 : num;                   (* 0.01 *)
  add : num -> num -> num;
  sub : num -> num -> num;
  mul : num -> num -> num;
  div : num -> num -> num;
  Math_sqrt : num -> num;
  Math_round : num -> num;
  Math_max : num -> num -> num;
  Math_min : num -> num -> num;
  of_length : nat -> num            (* array.length as a Number *)
}.

(** [Math.pow(v, 2)].  ECMAScript leaves the precision of [Math.pow] to the
    implementation; it is read as the correctly rounded square, [v * v]. *)
Definition Math_pow2 {num} `{Arith num} (v : num) : num := mul v v.

Module JS.

Local Open Scope float_scope.

(** [a > b] and [a < b] on Numbers: false as soon as one side is NaN. *)
Definition gt (a b : float) : bool := b <? a.
Definition lt (a b : float) : bool := a <? b.
Arguments gt a b : simpl never.
Arguments lt a b : simpl never.

(** [Math.max(a, b)]: NaN if either is NaN, and +0 is larger than -0. *)
Definition max (a b : float) : float :=
  if is_nan a || is_nan b then nan
  else if a <? b then b
  else if b <? a then a
  else if get_sign a then b else a.

(** [Math.min(a, b)]: NaN if either is NaN, and -0 is smaller than +0. *)
Definition min (a b : float) : float :=
  if is_nan a || is_nan b then nan
  else if a <? b then a
  else if b <? a then b
  else if get_sign a then a else b.

(** The integer [n] as a Number, with the sign of zero given by [szero]. *)
Definition of_Z_signed (n : Z) (szero : bool) : float :=
  SF2Prim (binary_normalize prec emax n 0%Z szero).

(** [Math.round(v)]: NaN, the infinities and integral values are returned
    as they are; otherwise the nearest integer, a tie going towards
    +Infinity, so [floor(v + 1/2)] computed exactly on the mantissa. A
    result of zero keeps the sign of [v]. *)
Definition round (v : float) : float :=
  match Prim2SF v with
  | S754_finite s m e =>
      if (0 <=? e)%Z then v
      else
        let sm := (if s then Z.neg m else Z.pos m) in
        of_Z_signed ((2 * sm + 2 ^ (- e)) / 2 ^ (1 - e))%Z s
  | _ => v
  end.

(** [array.length] is below 2^32, so the conversion is exact. *)
Definition of_nat (n : nat) : float := of_Z_signed (Z.of_nat n) false.

End JS.

#[export] Instance FloatArith : Arith float := {|
  lit_0 := 0%float;
  lit_1 := 1%float;
  lit_10 := 10%float;
  lit_0_5 := 0.5%float;
  lit_0_1 := 0.1%float;
  lit_0_01 := 0.01%float;
  add := PrimFloat.add;
  sub := PrimFloat.sub;
  mul := PrimFloat.mul;
  div := PrimFloat.div;
  Math_sqrt := PrimFloat.sqrt;
  Math_round := JS.round;
  Math_max := JS.max;
  Math_min := JS.min;
  of_length := JS.of_nat
|}.

(** ** Gesture samples *)

Record Position (num : Type) : Type := mkPosition {
  x : num;
  y : num;
  z : num
}.
Arguments mkPosition {num} x y z.
Arguments x {num} p.
Arguments y {num} p.
Arguments z {num} p.

(** The body's [gestureData]: [{ positions, timing }]. *)
Record GestureData (num : Type) : Type := mkGestureData {
  positions : list (Position num);
  timing : list num
}.
Arguments mkGestureData {num} positions timing.
Arguments positions {num} g.
Arguments timing {num} g.

Section Geometry.

Context {num : Type} `{Arith num}.

(** The expression all three position loops spell out:
    [Math.sqrt(Math.pow(a.x - b.x, 2) + Math.pow(a.y - b.y, 2)
               + Math.pow(a.z - b.z, 2))]. *)
Definition distance3D (a b : Position num) : num :=
  Math_sqrt
    (add (add (Math_pow2 (sub (x a) (x b))) (Math_pow2 (sub (y a) (y b))))
         (Math_pow2 (sub (z a) (z b)))).

End Geometry.

Arguments distance3D {num _} a b : simpl never.

(** ** Backend/src/models/Gesture.js *)

Module Gesture.

Local Open Scope float_scope.

Record Tolerance : Type := mkTolerance {
  tol_position : float;           (* tolerance.position, default 0.15 *)
  tol_timing : float              (* tolerance.timing, default 0.2 *)
}.

Record UsageStats : Type := mkUsageStats {
  totalAttempts : Z;
  successfulAttempts : Z;
  failedAttempts : Z;
  averageConfidence : float;
  lastUsed : option Z
}.

(** A Gesture document.  [gestureData] stands for the stored string
    through [decryptGestureData]: [Some g] when it deciphers and parses to
    [g], [None] when [decryptGestureData] throws. *)
Record Doc : Type := mkDoc {
  gestureData : option (GestureData float);
  tolerance : Tolerance;
  usageStats : UsageStats
}.

(** The methods a document can look up on [gestureSchema.methods] beyond
    the ones embedded below; [None] is a name the schema never defines. *)
Record Methods : Type := mkMethods {
  calculatePositionConfidence :
    option (list (Position float) -> list (Position float) -> float);
  calculateTimingConfidence :
    option (list float -> list float -> float)
}.

(** Gesture.js assigns [encryptGestureData], [decryptGestureData],
    [validateGesture], [comparePositions], [compareTiming] and
    [calculateConfidence] to [gestureSchema.methods], and nothing else:
    the two helpers [calculateConfidence] calls are not defined. *)
Definition schema_methods : Methods :=
  {| calculatePositionConfidence := None;
     calculateTimingConfidence := None |}.

Definition decryptGestureData (this : Doc) : result (GestureData float) :=
  match gestureData this with
  | Some g => Ok g
  | None => Throw "Failed to decrypt gesture data"
  end.

(** The loop of [comparePositions], [i] running up to
    [Math.min(stored.length, input.length)]. *)
Fixpoint comparePositions_loop (tolerance : float)
    (stored input : list (Position float)) : bool :=
  match stored, input with
  | storedPos :: stored', inputPos :: input' =>
      let distance := distance3D storedPos inputPos in
      if JS.gt distance tolerance then false
      else comparePositions_loop tolerance stored' input'
  | _, _ => true
  end.

Definition comparePositions (this : Doc)
    (stored input : list (Position float)) : bool :=
  let tolerance := tol_position (tolerance this) in
  comparePositions_loop tolerance stored input.

(** [Math.abs(stored[i] - input[i]) / stored[i]]. *)
Definition relativeDiff (s i : float) : float :=
  let timeDiff := abs (s - i) in
  timeDiff / s.
Arguments relativeDiff s i : simpl never.

Fixpoint compareTiming_loop (tolerance : float)
    (stored input : list float) : bool :=
  match stored, input with
  | s :: stored', i :: input' =>
      if JS.gt (relativeDiff s i) tolerance then false
      else compareTiming_loop tolerance stored' input'
  | _, _ => true
  end.

Definition compareTiming (this : Doc) (stored input : list float) : bool :=
  let tolerance := tol_timing (tolerance this) in
  compareTiming_loop tolerance stored input.

(** Calling a method that is not defined is a TypeError. *)
Definition calculateConfidence (methods : Methods)
    (stored input : GestureData float) : result float :=
  match calculatePositionConfidence methods with
  | None => Throw "TypeError: this.calculatePositionConfidence is not a function"
  | Some posConf =>
      let positionConfidence := posConf (positions stored) (positions input) in
      match calculateTimingConfidence methods with
      | None => Throw "TypeError: this.calculateTimingConfidence is not a function"
      | Some timeConf =>
          let timingConfidence := timeConf (timing stored) (timing input) in
          let confidence := (positionConfidence + timingConfidence) / 2 in
          Ok (JS.max 0 (JS.min 1 confidence))
      end
  end.

Record Validation : Type := mkValidation {
  success : bool;
  confidence : float
}.

Definition record_attempt (stats : UsageStats) (success : bool) (now : Z)
    : UsageStats :=
  {| totalAttempts := totalAttempts stats + 1;
     successfulAttempts :=
       if success then successfulAttempts stats + 1
       else successfulAttempts stats;
     failedAttempts :=
       if success then failedAttempts stats
       else failedAttempts stats + 1;
     averageConfidence := averageConfidence stats;
     lastUsed := Some now |}.

(** [validateGesture]: the whole body sits in one [try]; whatever is
    thrown inside is replaced by [Error('Gesture validation failed')].
    The document is returned as the call leaves it ([this.save()] only
    persists it). *)
Definition validateGesture (methods : Methods) (this : Doc)
    (inputGesture : GestureData float) (now : Z)
    : result Validation * Doc :=
  match decryptGestureData this with
  | Throw _ => (Throw "Gesture validation failed", this)
  | Ok storedGesture =>
      let positionMatch :=
        comparePositions this (positions storedGesture) (positions inputGesture) in
      let timingMatch :=
        compareTiming this (timing storedGesture) (timing inputGesture) in
      let success := positionMatch && timingMatch in
      match calculateConfidence methods storedGesture inputGesture with
      | Throw _ => (Throw "Gesture validation failed", this)
      | Ok confidence =>
          let this' :=
            {| gestureData := gestureData this;
               tolerance := tolerance this;
               usageStats := record_attempt (usageStats this) success now |} in
          (Ok {| success := success; confidence := confidence |}, this')
      end
  end.

End Gesture.

(** ** Backend/src/models/User.js: the lockout fields *)

Module User.

Record Stats : Type := mkStats {
  totalLogins : Z;
  successfulLogins : Z;
  lastLoginDate : option Z
}.

(** The stored user, as far as the login handler reads and writes it.  A
    field removed by [$unset] reads back as its schema default:
    [loginAttempts] 0, [lockUntil] null. *)
Record Doc : Type := mkDoc {
  loginAttempts : Z;
  lockUntil : option Z;
  lastLogin : option Z;
  stats : Stats
}.

(** The lock lasts [2 * 60 * 60 * 1000] ms. *)
Definition lockDuration : Z := 2 * 60 * 60 * 1000.

(** [!!(this.lockUntil && this.lockUntil > Date.now())] *)
Definition isLocked (this : Doc) (now : Z) : bool :=
  match lockUntil this with
  | Some t => now <? t
  | None => false
  end.

(** [this.lockUntil && this.lockUntil < Date.now()] *)
Definition lockExpired (this : Doc) (now : Z) : bool :=
  match lockUntil this with
  | Some t => t <? now
  | None => false
  end.

(** [incLoginAttempts], with the [updateOne] applied to the stored
    document. *)
Definition incLoginAttempts (this : Doc) (now : Z) : Doc :=
  if lockExpired this now then
    (* { $unset: { lockUntil: 1 }, $set: { loginAttempts: 1 } } *)
    {| loginAttempts := 1;
       lockUntil := None;
       lastLogin := lastLogin this;
       stats := stats this |}
  else
    (* { $inc: { loginAttempts: 1 } }, and $set lockUntil at the fifth *)
    {| loginAttempts := loginAttempts this + 1;
       lockUntil :=
         if (5 <=? loginAttempts this + 1) && negb (isLocked this now)
         then Some (now + lockDuration)
         else lockUntil this;
       lastLogin := lastLogin this;
       stats := stats this |}.

(** [resetLoginAttempts]:
    [{ $unset: { loginAttempts: 1, lockUntil: 1 }, $set: { lastLogin: new Date() } }] *)
Definition resetLoginAttempts (this : Doc) (now : Z) : Doc :=
  {| loginAttempts := 0;
     lockUntil := None;
     lastLogin := Some now;
     stats := stats this |}.

End User.

(** ** Backend/src/routes/auth.js: the handler of POST /api/auth/login *)

Module Auth.

(** A user found by [User.findOne(...).populate('gesturePassword')]. *)
Record Account : Type := mkAccount {
  user : User.Doc;
  gesturePassword : Gesture.Doc
}.

Inductive Response : Type :=
| InvalidCredentials                      (* 401 'Invalid credentials' *)
| AccountLocked                           (* 401 'Account is temporarily locked. ...' *)
| InvalidGesture (attemptsRemaining : Z)  (* 401 'Invalid gesture. Please try again.' *)
| LoginSuccessful (confidence : float)    (* 200 'Login successful' *)
| ServerError (message : string).         (* an exception passed on by asyncHandler *)

(** The handler, reached once the request has passed the validators and
    the rate limiter of the route.  It returns the response and the account
    as stored afterwards. *)
Definition login (methods : Gesture.Methods) (found : option Account)
    (gestureData : GestureData float) (now : Z)
    : Response * option Account :=
  match found with
  | None => (InvalidCredentials, None)
  | Some acct =>
      let user := user acct in
      if User.isLocked user now then (AccountLocked, Some acct)
      else
        match Gesture.validateGesture methods (gesturePassword acct) gestureData now with
        | (Throw message, gesture') =>
            (ServerError message,
             Some {| user := user; gesturePassword := gesture' |})
        | (Ok gestureValidation, gesture') =>
            if negb (Gesture.success gestureValidation) then
              (InvalidGesture (Z.max 0 (5 - User.loginAttempts user - 1)),
               Some {| user := User.incLoginAttempts user now;
                       gesturePassword := gesture' |})
            else
              let user1 := User.resetLoginAttempts user now in
              let stats := User.stats user1 in
              let user2 :=
                {| User.loginAttempts := User.loginAttempts user1;
                   User.lockUntil := User.lockUntil user1;
                   User.lastLogin := User.lastLogin user1;
                   User.stats :=
                     {| User.totalLogins := User.totalLogins stats + 1;
                        User.successfulLogins := User.successfulLogins stats + 1;
                        User.lastLoginDate := Some now |} |} in
              (LoginSuccessful (Gesture.confidence gestureValidation),
               Some {| user := user2; gesturePassword := gesture' |})
        end
  end.

End Auth.

(** ** Backend/src/routes/gestures.js: calculateComplexity *)

Section Complexity.

Context {num : Type} `{Arith num}.

(** [for (let i = 1; i < positions.length; i++) totalDistance += distance]
    with [prev = positions[i - 1]] and [curr = positions[i]]. *)
Fixpoint totalDistance_loop (prev : Position num)
    (rest : list (Position num)) (totalDistance : num) : num :=
  match rest with
  | [] => totalDistance
  | curr :: rest' =>
      let distance := distance3D curr prev in
      totalDistance_loop curr rest' (add totalDistance distance)
  end.

Definition totalDistance (positions : list (Position num)) : num :=
  match positions with
  | [] => lit_0
  | first :: rest => totalDistance_loop first rest lit_0
  end.

(** [timing.reduce((sum, t) => sum + t, 0) / timing.length] *)
Definition avgTime (timing : list num) : num :=
  div (fold_left (fun sum t => add sum t) timing lit_0)
      (of_length (List.length timing)).

(** [timing.reduce((sum, t) => sum + Math.pow(t - avgTime, 2), 0) / timing.length] *)
Definition timeVariance (timing : list num) : num :=
  let avgTime := avgTime timing in
  div (fold_left (fun sum t => add sum (Math_pow2 (sub t avgTime))) timing lit_0)
      (of_length (List.length timing)).

(** The score before [Math.round] and the clamp. *)
Definition rawComplexity (gestureData : GestureData num) : num :=
  let complexity := lit_1 in
  let complexity :=
    add complexity (mul (of_length (List.length (positions gestureData))) lit_0_5) in
  let complexity :=
    add complexity (mul (totalDistance (positions gestureData)) lit_0_1) in
  add complexity (mul (timeVariance (timing gestureData)) lit_0_01).

Definition calculateComplexity (gestureData : GestureData num) : num :=
  Math_min lit_10 (Math_max lit_1 (Math_round (rawComplexity gestureData))).

End Complexity.

(** ** Frontend/js/modules/security.js: the anti-spoofing check *)

Module Security.

Local Open Scope float_scope.

(** [array.map((v, index) => index === 0 ? 0 : f(v, array[index - 1]))] *)
Fixpoint map_with_prev {A B : Type} (f : A -> A -> B) (prev : A)
    (l : list A) : list B :=
  match l with
  | [] => []
  | v :: l' => f v prev :: map_with_prev f v l'
  end.

Definition map_from_second {A B : Type} (first : B) (f : A -> A -> B)
    (l : list A) : list B :=
  match l with
  | [] => []
  | v :: l' => first :: map_with_prev f v l'
  end.

(** [array.reduce((sum, v) => sum + v, 0)] *)
Definition sum (l : list float) : float :=
  fold_left (fun sum v => sum + v) l 0.

(** What an analysis returns: [{ suspicious, severity, reason }], the last
    two absent from [{ suspicious: false }]. *)
Record Analysis : Type := mkAnalysis {
  suspicious : bool;
  severity : option string;
  reason : option string
}.

Definition not_suspicious : Analysis :=
  {| suspicious := false; severity := None; reason := None |}.

Definition checkDepthConsistency (depthData : list float) : bool :=
  let variations :=
    map_from_second 0 (fun depth prev => abs (depth - prev)) depthData in
  let avgVariation := sum variations / JS.of_nat (List.length variations) in
  JS.gt avgVariation 0.1.

Definition velocities (motionData : list (Position float)) : list float :=
  map_from_second 0 (fun position prevPosition => distance3D position prevPosition)
                  motionData.

Definition accelerationChanges (velocities : list float) : list float :=
  map_from_second 0 (fun velocity prev => abs (velocity - prev)) velocities.

(** [Math.max(...values)], which starts from -Infinity. *)
Definition Math_max_spread (values : list float) : float :=
  fold_left JS.max values neg_infinity.

Definition analyzeMotionPatterns (motionData : list (Position float)) : Analysis :=
  let maxAcceleration :=
    Math_max_spread (accelerationChanges (velocities motionData)) in
  if JS.gt maxAcceleration 100 then
    {| suspicious := true;
       severity := Some "medium"%string;
       reason := Some "unnatural_acceleration"%string |}
  else not_suspicious.

(** The list the timing analysis calls [intervals]: a 0 for the first
    frame, then the differences of consecutive timestamps. *)
Definition intervals (timingData : list float) : list float :=
  map_from_second 0 (fun time prev => time - prev) timingData.

Definition variance (intervals : list float) : float :=
  let avgInterval := sum intervals / JS.of_nat (List.length intervals) in
  fold_left (fun sum interval => sum + Math_pow2 (interval - avgInterval))
            intervals 0
  / JS.of_nat (List.length intervals).

Definition analyzeTimingPatterns (timingData : list float) : Analysis :=
  if JS.lt (variance (intervals timingData)) 0.01 then
    {| suspicious := true;
       severity := Some "high"%string;
       reason := Some "too_perfect_timing"%string |}
  else not_suspicious.

(** A recorded event: [{ type, data, timestamp, threatLevel }], the data
    of the anti-spoofing events being [{ severity, reason }]. *)
Record Event : Type := mkEvent {
  type : string;
  data_severity : option string;
  data_reason : option string;
  timestamp : Z;
  threatLevelAtTime : string
}.

Record Manager : Type := mkManager {
  antiSpoofingEnabled : bool;
  threatLevel : string;
  securityEvents : list Event
}.

(** [recordSecurityEvent]: push, then keep the last 1000. *)
Definition recordSecurityEvent (this : Manager) (eventType : string)
    (severity reason : option string) (now : Z) : Manager :=
  let events :=
    securityEvents this ++
    [ {| type := eventType; data_severity := severity; data_reason := reason;
         timestamp := now; threatLevelAtTime := threatLevel this |} ] in
  {| antiSpoofingEnabled := antiSpoofingEnabled this;
     threatLevel := threatLevel this;
     securityEvents :=
       if (1000 <? List.length events)%nat
       then skipn (List.length events - 1000) events
       else events |}.
Arguments recordSecurityEvent this eventType%_string severity reason now.

(** The argument of [performAntiSpoofingCheck]; [None] is a property the
    object does not have. *)
Record CheckInput : Type := mkCheckInput {
  depthData : option (list float);
  motionData : option (list (Position float));
  timingData : option (list float)
}.

(** The body of the [try] block.  [undefined.map(...)] is a TypeError. *)
Definition antiSpoofing_try (this : Manager) (gestureData : CheckInput)
    (now : Z) : result bool * Manager :=
  let depth_failed :=
    match depthData gestureData with
    | Some depth => negb (checkDepthConsistency depth)
    | None => false
    end in
  if depth_failed then
    (Ok false,
     recordSecurityEvent this "depth_inconsistency_detected"
       (Some "high"%string) (Some "possible_spoofing"%string) now)
  else
    match motionData gestureData with
    | None => (Throw "TypeError: Cannot read properties of undefined (reading 'map')", this)
    | Some motion =>
        let motionAnalysis := analyzeMotionPatterns motion in
        if suspicious motionAnalysis then
          (Ok false,
           recordSecurityEvent this "suspicious_motion_pattern"
             (severity motionAnalysis) (reason motionAnalysis) now)
        else
          match timingData gestureData with
          | None => (Throw "TypeError: Cannot read properties of undefined (reading 'map')", this)
          | Some timing =>
              let timingAnalysis := analyzeTimingPatterns timing in
              if suspicious timingAnalysis then
                (Ok false,
                 recordSecurityEvent this "suspicious_timing_pattern"
                   (severity timingAnalysis) (reason timingAnalysis) now)
              else (Ok true, this)
          end
    end.

Definition performAntiSpoofingCheck (this : Manager)
    (gestureData : CheckInput) (now : Z) : bool * Manager :=
  if negb (antiSpoofingEnabled this) then (true, this)
  else
    match antiSpoofing_try this gestureData now with
    | (Ok verdict, this') => (verdict, this')
    | (Throw _, this') => (true, this')   (* catch: fail open *)
    end.

End Security.

(** ** Samples used in the statements *)

Module Scenario.

Local Open Scope float_scope.

Definition pos (a b c : float) : Position float := mkPosition a b c.

Definition fresh_stats : Gesture.UsageStats :=
  {| Gesture.totalAttempts := 0;
     Gesture.successfulAttempts := 0;
     Gesture.failedAttempts := 0;
     Gesture.averageConfidence := 0;
     Gesture.lastUsed := None |}.

Definition default_tolerance : Gesture.Tolerance :=
  {| Gesture.tol_position := 0.15; Gesture.tol_timing := 0.2 |}.

(** A template at rest in the origin for one second. *)
Definition stored : GestureData float :=
  {| positions := [pos 0 0 0; pos 0 0 0; pos 0 0 0];
     timing := [0; 500; 1000] |}.

Definition template : Gesture.Doc :=
  {| Gesture.gestureData := Some stored;
     Gesture.tolerance := default_tolerance;
     Gesture.usageStats := fresh_stats |}.

(** The same sample, its first position moved to (0, 0.2, 0). *)
Definition displaced : GestureData float :=
  {| positions := [pos 0 0.2 0; pos 0 0 0; pos 0 0 0];
     timing := [0; 500; 1000] |}.

(** The first two frames of [stored] only. *)
Definition truncated : GestureData float :=
  {| positions := [pos 0 0 0; pos 0 0 0];
     timing := [0; 500] |}.

End Scenario.

Module ScenarioAuth.

Local Open Scope float_scope.

(** Four frames exactly 100 ms apart. *)
Definition evenly_spaced : GestureData float :=
  {| positions := [Scenario.pos 0 0 0; Scenario.pos 0.1 0 0;
                   Scenario.pos 0.2 0 0; Scenario.pos 0.3 0 0];
     timing := [0; 100; 200; 300] |}.

(** The same capture as the anti-spoofing check receives it. *)
Definition evenly_spaced_check : Security.CheckInput :=
  {| Security.depthData := None;
     Security.motionData := Some (positions evenly_spaced);
     Security.timingData := Some (timing evenly_spaced) |}.

Definition manager : Security.Manager :=
  {| Security.antiSpoofingEnabled := true;
     Security.threatLevel := "low";
     Security.securityEvents := [] |}.

Definition fresh_user : User.Doc :=
  {| User.loginAttempts := 0;
     User.lockUntil := None;
     User.lastLogin := None;
     User.stats := {| User.totalLogins := 0;
                      User.successfulLogins := 0;
                      User.lastLoginDate := None |} |}.

Definition account : Auth.Account :=
  {| Auth.user := fresh_user; Auth.gesturePassword := Scenario.template |}.

(** Samples of three frames whose third timestamp is 45, and the same
    with a fourth frame at timestamp 15. *)
Definition three_frames : GestureData float :=
  {| positions := [Scenario.pos 0 0 0; Scenario.pos 0 0 0; Scenario.pos 0 0 0];
     timing := [0; 0; 45] |}.

Definition four_frames : GestureData float :=
  {| positions := [Scenario.pos 0 0 0; Scenario.pos 0 0 0; Scenario.pos 0 0 0;
                   Scenario.pos 0.1 0 0];
     timing := [0; 0; 45; 15] |}.





(** A schema on which the two confidence helpers are defined (here: as
    constants), to show what the handler does when validation returns. *)
Definition methods_with_helpers : Gesture.Methods :=
  {| Gesture.calculatePositionConfidence := Some (fun _ _ => 1);
     Gesture.calculateTimingConfidence := Some (fun _ _ => 1) |}.

(** A series of login attempts, each with its sample and its time. *)
Fixpoint replay (methods : Gesture.Methods) (found : option Auth.Account)
    (attempts : list (GestureData float * Z))
    : list Auth.Response * option Auth.Account :=
  match attempts with
  | [] => ([], found)
  | (g, t) :: rest =>
      let (response, found') := Auth.login methods found g t in
      let (responses, final) := replay methods found' rest in
      (response :: responses, final)
  end.

(** Five attempts with the displaced sample, then one with the stored
    sample itself, ten milliseconds apart. *)
Definition five_wrong_then_right : list (GestureData float * Z) :=
  [(Scenario.displaced, 10%Z); (Scenario.displaced, 20%Z);
   (Scenario.displaced, 30%Z); (Scenario.displaced, 40%Z);
   (Scenario.displaced, 50%Z); (Scenario.stored, 60%Z)].

(** Five failures in a row, at the times [t1 .. t5]. *)
Definition after_five_failures (this : User.Doc) (t1 t2 t3 t4 t5 : Z) : User.Doc :=
  User.incLoginAttempts
    (User.incLoginAttempts
       (User.incLoginAttempts
          (User.incLoginAttempts (User.incLoginAttempts this t1) t2) t3) t4) t5.

End ScenarioAuth.

(** ** Classes of binary64 values *)

Module Binary64.

(** Not NaN. *)
Definition notnan (v : spec_float) : Prop := v <> S754_nan.

(** Not NaN, with the sign [sx]. *)
Definition sgn_is (sx : bool) (v : spec_float) : Prop :=
  match v with
  | S754_nan => False
  | S754_zero s | S754_infinity s | S754_finite s _ _ => s = sx
  end.

(** Neither NaN nor negative: a zero, a positive number or +Infinity. *)
Definition nn (v : spec_float) : Prop :=
  match v with
  | S754_nan => False
  | S754_zero _ => True
  | S754_infinity s | S754_finite s _ _ => s = false
  end.

(** Neither NaN nor infinite. *)
Definition fin (v : spec_float) : Prop :=
  match v with
  | S754_zero _ | S754_finite _ _ _ => True
  | _ => False
  end.

(** Positive and finite. *)
Definition posfin (v : spec_float) : Prop :=
  match v with
  | S754_finite false _ _ => True
  | _ => False
  end.

(** The Numbers 1 and 10. *)
Definition one : spec_float := S754_finite false 4503599627370496 (-52).
Definition ten : spec_float := S754_finite false 5629499534213120 (-49).

End Binary64.

(** ** The numbers that binary64 values denote *)

Module Value.

Local Open Scope R_scope.

(** [2^e], for any integer [e]. *)
Definition pow2 (e : Z) : R := powerRZ 2 e.

(** The number a finite value denotes, [(-1)^s * m * 2^e]; zeros denote 0
    (and so do, by convention, the values that denote no number). *)
Definition of_SF (v : spec_float) : R :=
  match v with
  | S754_finite s m e => IZR (cond_Zopp s (Z.pos m)) * pow2 e
  | _ => 0
  end.

Definition of_float (v : float) : R := of_SF (Prim2SF v).

(** Where a real [x] lies between the integers [m] and [m + 1], as the
    rounding of SpecFloat records it: on [m], below the middle, on the
    middle, above it. *)
Definition located (m : Z) (l : location) (x : R) : Prop :=
  match l with
  | loc_Exact => x = IZR m
  | loc_Inexact Lt => IZR m < x < IZR m + / 2
  | loc_Inexact Eq => x = IZR m + / 2
  | loc_Inexact Gt => IZR m + / 2 < x < IZR m + 1
  end.

(** [r] is what the positive number [v] rounds to: the rounding, to
    nearest with ties to even, of a mantissa and an exponent that denote
    [v], the exponent not above the one of the format at that magnitude. *)
Definition rounding (v : R) (r : spec_float) : Prop :=
  exists (M : positive) (e : Z),
    v = IZR (Z.pos M) * pow2 e /\
    (e <= fexp prec emax (Z.pos (digits2_pos M) + e))%Z /\
    r = binary_round_aux prec emax false (Z.pos M) e loc_Exact.

(** A zero, a positive number or +Infinity, in canonical form. *)
Definition nnv (v : spec_float) : Prop :=
  Binary64.nn v /\ valid_binary v = true.

End Value.

(** ** The specification's formulas, for comparison with the code *)

Module Spec.

(** Section 4.4, "compute inter-frame intervals, their mean and
    variance": the intervals between the frames of an N-frame capture are
    the N-1 differences of consecutive timestamps. *)
Definition interFrameIntervals (timingData : list float) : list float :=
  match timingData with
  | [] => []
  | first :: rest =>
      Security.map_with_prev (fun time prev => (time - prev)%float) first rest
  end.

Definition interFrameVariance (timingData : list float) : float :=
  Security.variance (interFrameIntervals timingData).

(** Section 4.4, the verdict "too_perfect_timing", severity high. *)
Definition too_perfect_timing : Security.Analysis :=
  {| Security.suspicious := true;
     Security.severity := Some "high"%string;
     Security.reason := Some "too_perfect_timing"%string |}.

(** Section 3's GestureSample, as far as the score depends on it: 3 to 10
    positions, as many timestamps, every number finite. *)
Definition finite_position (p : Position float) : bool :=
  is_finite (x p) && is_finite (y p) && is_finite (z p).

Definition admissible (g : GestureData float) : bool :=
  (3 <=? List.length (positions g))%nat
  && (List.length (positions g) <=? 10)%nat
  && (List.length (timing g) =? List.length (positions g))%nat
  && forallb finite_position (positions g)
  && forallb is_finite (timing g).

(** Section 4.2's output, [complexity:int∈[1,10]], as a Number. *)
Definition is_score (r : float) : Prop :=
  In r [1; 2; 3; 4; 5; 6; 7; 8; 9; 10]%float.

(** Section 4.2's formula,
    [1 + 0.5*N + 0.1*Σdistance(pos[i-1],pos[i]) + 0.01*Var(timing)],
    each operation being the binary64 one. *)
Definition distance64 (a b : Position float) : float :=
  PrimFloat.sqrt ((x a - x b) * (x a - x b) + (y a - y b) * (y a - y b)
                  + (z a - z b) * (z a - z b))%float.







Local Open Scope R_scope.

(** The same formula on the numbers themselves. *)
Definition sum (l : list R) : R := fold_right Rplus 0 l.


Definition distance (a b : Position R) : R :=
  sqrt ((x a - x b) * (x a - x b) + (y a - y b) * (y a - y b)
        + (z a - z b) * (z a - z b)).


Definition mean (l : list R) : R := sum l / INR (List.length l).



(** The numbers a sample of Numbers denotes. *)
Definition exact (g : GestureData float) : GestureData R :=
  {| positions :=
       map (fun p => mkPosition (Value.of_float (x p)) (Value.of_float (y p))
                                (Value.of_float (z p)))
           (positions g);
     timing := map Value.of_float (timing g) |}.


Definition clamp_1_10 (n : Z) : Z := Z.min 10 (Z.max 1 n).

End Spec.

(** ** A JavaScript [Map] with string keys, in insertion order *)

Module JSMap.

Section WithValues.

Context {V : Type}.

Definition t : Type := list (string * V).

(** [map.get(key)]; [None] is [undefined]. *)
Fixpoint get (m : t) (key : string) : option V :=
  match m with
  | [] => None
  | (k, v) :: m' => if String.eqb k key then Some v else get m' key
  end.

Definition has (m : t) (key : string) : bool :=
  match get m key with
  | Some _ => true
  | None => false
  end.

(** [map.set(key, value)]: a key already present keeps its place. *)
Fixpoint set (m : t) (key : string) (value : V) : t :=
  match m with
  | [] => [(key, value)]
  | (k, v) :: m' =>
      if String.eqb k key then (k, value) :: m'
      else (k, v) :: set m' key value
  end.

(** [map.delete(key)] *)
Definition delete (m : t) (key : string) : t :=
  filter (fun entry => negb (String.eqb (fst entry) key)) m.

(** No key twice, as in every [Map]. *)
Definition wf (m : t) : Prop := NoDup (map fst m).

End WithValues.

Arguments t V : clear implicits.

End JSMap.

(** ** Backend/src/middleware/auth.js: rateLimitByUser *)

Module RateLimit.

(** The record kept per key: [{ count, resetTime }]. *)
Record Entry : Type := mkEntry {
  count : Z;
  resetTime : Z
}.

(** One request through the middleware [rateLimitByUser(maxAttempts,
    windowMs)], for the key [req.user?.id || req.ip].  The boolean tells
    whether [next()] is called; otherwise the answer is 429. *)
Definition rateLimitByUser (maxAttempts windowMs : Z)
    (attempts : JSMap.t Entry) (userId : string) (now : Z)
    : bool * JSMap.t Entry :=
  let fresh := {| count := 0; resetTime := now + windowMs |} in
  let attempts :=
    if negb (JSMap.has attempts userId) then JSMap.set attempts userId fresh
    else attempts in
  let userAttempts :=
    match JSMap.get attempts userId with
    | Some entry => entry
    | None => fresh                 (* not reached: the key has just been set *)
    end in
  let userAttempts :=
    if resetTime userAttempts <? now
    then {| count := 0; resetTime := now + windowMs |}
    else userAttempts in
  let userAttempts :=
    {| count := count userAttempts + 1; resetTime := resetTime userAttempts |} in
  (negb (maxAttempts <? count userAttempts),
   JSMap.set attempts userId userAttempts).

(** A series of requests of one key, at the given times: the answers, and
    the table afterwards. *)
Fixpoint requests (maxAttempts windowMs : Z) (attempts : JSMap.t Entry)
    (userId : string) (times : list Z) : list bool * JSMap.t Entry :=
  match times with
  | [] => ([], attempts)
  | now :: times' =>
      let (passed, attempts') :=
        rateLimitByUser maxAttempts windowMs attempts userId now in
      let (rest, final) := requests maxAttempts windowMs attempts' userId times' in
      (passed :: rest, final)
  end.

Inductive Response : Type :=
| TooManyRequests                       (* 429 'Too many requests. ...' *)
| Handled (response : Auth.Response).

(** [router.post('/login', [...], rateLimitByUser(5, 15 * 60 * 1000),
    asyncHandler(...))] for a request whose body passes the validators,
    coming from the address [ip]. *)
Definition loginRoute (methods : Gesture.Methods) (attempts : JSMap.t Entry)
    (ip : string) (found : option Auth.Account)
    (gestureData : GestureData float) (now : Z)
    : Response * JSMap.t Entry * option Auth.Account :=
  let (passed, attempts') :=
    rateLimitByUser 5 (15 * 60 * 1000) attempts ip now in
  if passed then
    let (response, found') := Auth.login methods found gestureData now in
    (Handled response, attempts', found')
  else (TooManyRequests, attempts', found).

End RateLimit.

(** ** Backend/src/routes/auth.js: the login streak *)

Module LoginStreak.

(** The streak lines of the login handler, run after a validation that
    succeeded:
    [user.stats.lastLoginDate = new Date();
     const lastLogin = user.stats.lastLoginDate;
     const today = new Date();
     const daysDiff = Math.floor((today - lastLogin) / (1000 * 60 * 60 * 24));]
    and then the two tests on [daysDiff].  [now] and [today] are the two
    dates the handler creates; the result is the new [streakDays]. *)
Definition update (stats_lastLoginDate : option Z) (streakDays : Z)
    (now today : Z) : Z :=
  let stats_lastLoginDate := now in
  let lastLogin := stats_lastLoginDate in
  let daysDiff := (today - lastLogin) / (1000 * 60 * 60 * 24) in
  if daysDiff =? 1 then streakDays + 1
  else if 1 <? daysDiff then 1
  else streakDays.

End LoginStreak.

(** ** Backend/src/models/User.js: histories of the lockout fields *)

Module History.

(** What the login handler tells the user document after a validation. *)
Inductive Event : Type :=
| Failed (now : Z)       (* incLoginAttempts() *)
| Succeeded (now : Z).   (* resetLoginAttempts() *)

Definition step (user : User.Doc) (e : Event) : User.Doc :=
  match e with
  | Failed now => User.incLoginAttempts user now
  | Succeeded now => User.resetLoginAttempts user now
  end.

Definition run (user : User.Doc) (events : list Event) : User.Doc :=
  fold_left step events user.

(** The counter and the lock date agree: a lock date is set exactly when
    the counter has reached 5. *)
Definition consistent (user : User.Doc) : bool :=
  match User.lockUntil user with
  | None => (0 <=? User.loginAttempts user) && (User.loginAttempts user <=? 4)
  | Some _ => 5 <=? User.loginAttempts user
  end.

End History.

(** A position one of whose coordinates is not a number. *)
Definition has_nan_coordinate (p : Position float) : bool :=
  is_nan (x p) || is_nan (y p) || is_nan (z p).

(** ** Backend/src/routes/gestures.js: the analysis of a sample *)

Module Analysis.

Section WithAcos.

Local Open Scope float_scope.

(** [Math.acos] is the host's; the analysis is embedded for any function
    in its place. *)
Variable Math_acos : float -> float.

Definition Math_PI : float := 3.141592653589793.

Record HandSize : Type := mkHandSize { width : float; height : float }.

Record FingerLengths : Type := mkFingerLengths {
  thumb : float; index : float; middle : float; ring : float; pinky : float
}.

Definition calculateHandSize (positions : list (Position float)) : HandSize :=
  {| width := 1.0; height := 1.0 |}.

Definition calculateFingerLengths (positions : list (Position float))
    : FingerLengths :=
  {| thumb := 1.0; index := 1.0; middle := 1.0; ring := 1.0; pinky := 1.0 |}.

(** [timing[i]]: an index past the end reads [undefined], which the
    subtraction turns into NaN. *)
Definition timing_at (timing : list float) (i : nat) : float :=
  nth i timing nan.

(** The loop of [calculateGestureSpeed], [i] being the index of [curr]. *)
Fixpoint calculateGestureSpeed_loop (timing : list float) (i : nat)
    (prev : Position float) (rest : list (Position float))
    (totalSpeed : float) : float :=
  match rest with
  | [] => totalSpeed
  | curr :: rest' =>
      let distance := distance3D curr prev in
      let time := timing_at timing i - timing_at timing (i - 1) in
      calculateGestureSpeed_loop timing (S i) curr rest'
        (totalSpeed + distance / time)
  end.

Definition calculateGestureSpeed (positions : list (Position float))
    (timing : list float) : float :=
  let totalSpeed :=
    match positions with
    | [] => 0
    | first :: rest => calculateGestureSpeed_loop timing 1 first rest 0
    end in
  totalSpeed / (JS.of_nat (List.length positions) - 1).

Definition calculateAngle (p1 p2 p3 : Position float) : float :=
  let v1 := mkPosition (x p2 - x p1) (y p2 - y p1) (z p2 - z p1) in
  let v2 := mkPosition (x p3 - x p2) (y p3 - y p2) (z p3 - z p2) in
  let dot := x v1 * x v2 + y v1 * y v2 + z v1 * z v2 in
  let mag1 := PrimFloat.sqrt (x v1 * x v1 + y v1 * y v1 + z v1 * z v1) in
  let mag2 := PrimFloat.sqrt (x v2 * x v2 + y v2 * y v2 + z v2 * z v2) in
  Math_acos (dot / (mag1 * mag2)) * (180 / Math_PI).

(** The loop of [calculateFluidityScore], over the triples
    [positions[i - 2], positions[i - 1], positions[i]]. *)
Fixpoint calculateFluidityScore_loop (prev curr : Position float)
    (rest : list (Position float)) (fluidity : float) : float :=
  match rest with
  | [] => fluidity
  | next :: rest' =>
      let angle := calculateAngle prev curr next in
      let fluidity := if JS.lt angle 90 then fluidity - 0.1 else fluidity in
      calculateFluidityScore_loop curr next rest' fluidity
  end.

Definition calculateFluidityScore (positions : list (Position float))
    (timing : list float) : float :=
  let fluidity :=
    match positions with
    | prev :: curr :: rest => calculateFluidityScore_loop prev curr rest 1.0
    | _ => 1.0
    end in
  JS.max 0 (JS.min 1 fluidity).

(** The result of [analyzeBiometricData], its first three fields before
    [JSON.stringify]. *)
Record BiometricData : Type := mkBiometricData {
  handSize : HandSize;
  fingerLengths : FingerLengths;
  gestureSpeed : float;
  fluidityScore : float
}.

Definition analyzeBiometricData (gestureData : GestureData float)
    : BiometricData :=
  {| handSize := calculateHandSize (positions gestureData);
     fingerLengths := calculateFingerLengths (positions gestureData);
     gestureSpeed :=
       calculateGestureSpeed (positions gestureData) (timing gestureData);
     fluidityScore :=
       calculateFluidityScore (positions gestureData) (timing gestureData) |}.

Definition generateRecommendations (complexity : float)
    (biometricData : BiometricData) : list string :=
  let recommendations := [] in
  let recommendations :=
    if JS.lt complexity 5
    then recommendations
         ++ ["Consider adding more positions to increase security"%string]
    else recommendations in
  let recommendations :=
    if JS.lt (fluidityScore biometricData) 0.7
    then recommendations
         ++ ["Practice your gesture to make it more fluid"%string]
    else recommendations in
  if (List.length recommendations =? 0)%nat
  then recommendations
       ++ ["Your gesture is well-balanced for security and usability"%string]
  else recommendations.

Record GestureAnalysis : Type := mkGestureAnalysis {
  complexity : float;
  securityScore : float;
  biometricData : BiometricData;
  recommendations : list string
}.

Definition analyzeGesture (gestureData : GestureData float) : GestureAnalysis :=
  let complexity := calculateComplexity gestureData in
  let biometricData := analyzeBiometricData gestureData in
  {| complexity := complexity;
     securityScore := JS.min 100 (complexity * 10);
     biometricData := biometricData;
     recommendations := generateRecommendations complexity biometricData |}.

End WithAcos.

End Analysis.

(** ** Frontend/js/modules/security.js: attempts, locks and the threat level *)

Module Monitor.

(** The values the event data hold. *)
Inductive Value : Type :=
| VUndefined
| VString (s : string)
| VNumber (n : Z).

Record Event : Type := mkEvent {
  type : string;
  data : list (string * Value);
  timestamp : Z;
  threatLevel : string
}.

(** [{ ...activity, timestamp: Date.now() }] *)
Record Activity : Type := mkActivity {
  activity_type : string;
  severity : string;
  activity_timestamp : option Z
}.

(** An entry of a [failedAttempts] array: [{ ip, timestamp }]. *)
Record Attempt : Type := mkAttempt {
  ip : string;
  attempt_timestamp : Z
}.

(** The detail of an 'auth:loginFailed' event: [{ userId, ip, timestamp }]. *)
Record AttemptData : Type := mkAttemptData {
  userId : string;
  attempt : Attempt
}.

(** A callback handed to [setTimeout]: [unlockAccount(userId)], due
    [lockoutDuration] after the lock. *)
Record Timer : Type := mkTimer {
  due : Z;
  unlocks : string
}.

Record Manager : Type := mkManager {
  currentThreatLevel : string;
  suspiciousActivities : list Activity;
  securityEvents : list Event;
  maxLoginAttempts : Z;
  lockoutDuration : Z;
  failedAttempts : JSMap.t (list Attempt);
  timers : list Timer
}.

(** The manager the constructor builds. *)
Definition initial : Manager :=
  {| currentThreatLevel := "low";
     suspiciousActivities := [];
     securityEvents := [];
     maxLoginAttempts := 5;
     lockoutDuration := 15 * 60 * 1000;
     failedAttempts := [];
     timers := [] |}.

Definition set_threatLevel (this : Manager) (level : string) : Manager :=
  {| currentThreatLevel := level;
     suspiciousActivities := suspiciousActivities this;
     securityEvents := securityEvents this;
     maxLoginAttempts := maxLoginAttempts this;
     lockoutDuration := lockoutDuration this;
     failedAttempts := failedAttempts this;
     timers := timers this |}.

Definition set_suspiciousActivities (this : Manager) (l : list Activity)
    : Manager :=
  {| currentThreatLevel := currentThreatLevel this;
     suspiciousActivities := l;
     securityEvents := securityEvents this;
     maxLoginAttempts := maxLoginAttempts this;
     lockoutDuration := lockoutDuration this;
     failedAttempts := failedAttempts this;
     timers := timers this |}.

Definition set_securityEvents (this : Manager) (l : list Event) : Manager :=
  {| currentThreatLevel := currentThreatLevel this;
     suspiciousActivities := suspiciousActivities this;
     securityEvents := l;
     maxLoginAttempts := maxLoginAttempts this;
     lockoutDuration := lockoutDuration this;
     failedAttempts := failedAttempts this;
     timers := timers this |}.

Definition set_failedAttempts (this : Manager) (m : JSMap.t (list Attempt))
    : Manager :=
  {| currentThreatLevel := currentThreatLevel this;
     suspiciousActivities := suspiciousActivities this;
     securityEvents := securityEvents this;
     maxLoginAttempts := maxLoginAttempts this;
     lockoutDuration := lockoutDuration this;
     failedAttempts := m;
     timers := timers this |}.

Definition set_timers (this : Manager) (l : list Timer) : Manager :=
  {| currentThreatLevel := currentThreatLevel this;
     suspiciousActivities := suspiciousActivities this;
     securityEvents := securityEvents this;
     maxLoginAttempts := maxLoginAttempts this;
     lockoutDuration := lockoutDuration this;
     failedAttempts := failedAttempts this;
     timers := l |}.

(** [recordSecurityEvent(eventType, data)]: push, then keep the last
    1000. *)
Definition recordSecurityEvent (this : Manager) (eventType : string)
    (data : list (string * Value)) (now : Z) : Manager :=
  let events :=
    securityEvents this ++
    [ {| type := eventType; data := data; timestamp := now;
         threatLevel := currentThreatLevel this |} ] in
  set_securityEvents this
    (if (1000 <? List.length events)%nat
     then skipn (List.length events - 1000) events
     else events).
Arguments recordSecurityEvent this eventType%_string data now.

Definition levels : list string :=
  ["low"; "medium"; "high"; "critical"]%string.

(** [array.indexOf(value)], -1 when the value is absent. *)
Fixpoint indexOf_from (l : list string) (value : string) (i : Z) : Z :=
  match l with
  | [] => -1
  | v :: l' => if String.eqb v value then i else indexOf_from l' value (i + 1)
  end.

Definition indexOf (l : list string) (value : string) : Z :=
  indexOf_from l value 0.

(** [levels[i]], [undefined] outside the array. *)
Definition level_at (i : Z) : Value :=
  if i <? 0 then VUndefined
  else match nth_error levels (Z.to_nat i) with
       | Some level => VString level
       | None => VUndefined
       end.

Definition raiseThreatLevel (this : Manager) (level : string) (now : Z)
    : Manager :=
  let currentIndex := indexOf levels (currentThreatLevel this) in
  let newIndex := indexOf levels level in
  if currentIndex <? newIndex then
    let this := set_threatLevel this level in
    recordSecurityEvent this "threat_level_raised"
      [("from"%string, level_at currentIndex); ("to"%string, VString level)] now
  else this.

(** [handleSuspiciousActivity]; the alert it triggers afterwards goes to
    the server and to the screen and leaves the manager as it is. *)
Definition handleSuspiciousActivity (this : Manager) (activity : Activity)
    (now : Z) : Manager :=
  let this :=
    set_suspiciousActivities this
      (suspiciousActivities this ++
       [ {| activity_type := activity_type activity;
            severity := severity activity;
            activity_timestamp := Some now |} ]) in
  if String.eqb (severity activity) "high" then raiseThreatLevel this "high" now
  else if String.eqb (severity activity) "medium"
       then raiseThreatLevel this "medium" now
       else this.

(** [attempts.filter(attempt => attempt.timestamp > cutoffTime)] *)
Definition recent (cutoffTime : Z) (attempts : list Attempt) : list Attempt :=
  filter (fun attempt => cutoffTime <? attempt_timestamp attempt) attempts.

Definition unlockAccount (this : Manager) (userId : string) (now : Z)
    : Manager :=
  let this :=
    set_failedAttempts this (JSMap.delete (failedAttempts this) userId) in
  recordSecurityEvent this "account_unlocked"
    [("userId"%string, VString userId)] now.

Definition lockAccount (this : Manager) (userId : string) (now : Z) : Manager :=
  let this :=
    recordSecurityEvent this "account_locked"
      [("userId"%string, VString userId);
       ("reason"%string, VString "too_many_failed_attempts");
       ("lockoutDuration"%string, VNumber (lockoutDuration this))] now in
  set_timers this
    (timers this ++ [ {| due := now + lockoutDuration this; unlocks := userId |} ]).

Definition recordFailedAttempt (this : Manager) (attemptData : AttemptData)
    (now : Z) : Manager :=
  let userId := userId attemptData in
  let table := failedAttempts this in
  let table :=
    if negb (JSMap.has table userId) then JSMap.set table userId [] else table in
  let attempts :=
    match JSMap.get table userId with
    | Some attempts => attempts
    | None => []                    (* not reached: the key has just been set *)
    end in
  let attempts := attempts ++ [attempt attemptData] in
  let cutoffTime := now - lockoutDuration this in
  let recentAttempts := recent cutoffTime attempts in
  let this := set_failedAttempts this (JSMap.set table userId recentAttempts) in
  if maxLoginAttempts this <=? Z.of_nat (List.length recentAttempts)
  then lockAccount this userId now
  else this.

Definition isAccountLocked (this : Manager) (userId : string) (now : Z) : bool :=
  let attempts :=
    match JSMap.get (failedAttempts this) userId with
    | Some attempts => attempts
    | None => []
    end in
  let cutoffTime := now - lockoutDuration this in
  let recentAttempts := recent cutoffTime attempts in
  maxLoginAttempts this <=? Z.of_nat (List.length recentAttempts).

Definition getRecentAttempts (this : Manager) (userId : string)
    (timeWindow now : Z) : list Attempt :=
  let attempts :=
    match JSMap.get (failedAttempts this) userId with
    | Some attempts => attempts
    | None => []
    end in
  let cutoffTime := now - timeWindow in
  recent cutoffTime attempts.

(** The timers that have come due run their callbacks, in the order they
    were set. *)
Definition runTimers (this : Manager) (now : Z) : Manager :=
  let dueNow := filter (fun timer => due timer <=? now) (timers this) in
  let waiting := filter (fun timer => negb (due timer <=? now)) (timers this) in
  fold_left (fun this timer => unlockAccount this (unlocks timer) now)
            dueNow (set_timers this waiting).

(** [cleanupOldData]: events, activities and attempts older than 24 hours
    are dropped, and a user left without attempts loses the entry. *)
Definition cleanupOldData (this : Manager) (now : Z) : Manager :=
  let cutoffTime := now - 86400000 in
  let this :=
    set_securityEvents this
      (filter (fun event => cutoffTime <? timestamp event) (securityEvents this)) in
  let this :=
    set_suspiciousActivities this
      (filter (fun activity =>
                 match activity_timestamp activity with
                 | Some t => cutoffTime <? t
                 | None => false
                 end) (suspiciousActivities this)) in
  set_failedAttempts this
    (fold_left
       (fun table entry =>
          let recentAttempts := recent cutoffTime (snd entry) in
          if (List.length recentAttempts =? 0)%nat
          then JSMap.delete table (fst entry)
          else JSMap.set table (fst entry) recentAttempts)
       (failedAttempts this) (failedAttempts this)).

(** What reaches the manager: the events it listens to, a direct call,
    the timers and the cleaning job. *)
Inductive Call : Type :=
| SuspiciousActivity (activity : Activity)     (* 'security:suspiciousActivity' *)
| LoginFailed (attemptData : AttemptData)      (* 'auth:loginFailed' *)
| RaiseThreatLevel (level : string)
| RecordSecurityEvent (eventType : string) (data : list (string * Value))
| RunTimers
| CleanupOldData.

Definition call (this : Manager) (c : Call) (now : Z) : Manager :=
  match c with
  | SuspiciousActivity activity => handleSuspiciousActivity this activity now
  | LoginFailed attemptData => recordFailedAttempt this attemptData now
  | RaiseThreatLevel level => raiseThreatLevel this level now
  | RecordSecurityEvent eventType data =>
      recordSecurityEvent this eventType data now
  | RunTimers => runTimers this now
  | CleanupOldData => cleanupOldData this now
  end.

Definition run (this : Manager) (calls : list (Call * Z)) : Manager :=
  fold_left (fun this c => call this (fst c) (snd c)) calls this.

(** The failed logins of one user, each with the time it is reported
    at, as calls. *)
Definition failures_of (user : string) (failures : list (Attempt * Z))
    : list (Call * Z) :=
  map (fun f => (LoginFailed {| userId := user; attempt := fst f |}, snd f))
      failures.

(** Where the current level stands in [levels]. *)
Definition threatIndex (this : Manager) : Z :=
  indexOf levels (currentThreatLevel this).

End Monitor.

(** * Properties *)

(** ** The matcher *)

Section Matcher.

Local Open Scope float_scope.
Import Gesture.

Lemma comparePositions_loop_true_iff (tol : float) :
  forall stored input,
    comparePositions_loop tol stored input = true <->
    (forall i s l, nth_error stored i = Some s -> nth_error input i = Some l ->
                   JS.gt (distance3D s l) tol = false).
Proof.
  induction stored as [|s0 stored IH]; intros [|l0 input]; simpl.
  - split; [intros _ [|i] s l Hs Hl; discriminate | reflexivity].
  - split; [intros _ [|i] s l Hs Hl; discriminate | reflexivity].
  - split; [intros _ [|i] s l Hs Hl; discriminate | reflexivity].
  - destruct (JS.gt (distance3D s0 l0) tol) eqn:Hd.
    + split; [discriminate|].
      intros Hall. specialize (Hall 0%nat s0 l0 eq_refl eq_refl). congruence.
    + rewrite IH. split.
      * intros Hall [|i] s l Hs Hl; simpl in *.
        -- now inversion Hs; inversion Hl; subst.
        -- eauto.
      * intros Hall i s l Hs Hl. exact (Hall (S i) s l Hs Hl).
Qed.

(** The position match fails exactly when some index below both lengths
    has a distance above the tolerance. *)
Lemma comparePositions_false_iff (this : Doc) :
  forall stored input,
    comparePositions this stored input = false <->
    (exists i s l, nth_error stored i = Some s /\ nth_error input i = Some l /\
                   JS.gt (distance3D s l) (tol_position (tolerance this)) = true).
Proof.
  unfold comparePositions.
  induction stored as [|s0 stored IH]; intros [|l0 input]; simpl.
  - split; [discriminate | intros ([|i] & s & l & Hs & _); discriminate].
  - split; [discriminate | intros ([|i] & s & l & Hs & _); discriminate].
  - split; [discriminate | intros ([|i] & s & l & _ & Hl & _); discriminate].
  - destruct (JS.gt (distance3D s0 l0) _) eqn:Hd.
    + split; [|reflexivity]. intros _. now exists 0%nat, s0, l0.
    + rewrite IH. split.
      * intros (i & s & l & Hs & Hl & Hgt). now exists (S i), s, l.
      * intros ([|i] & s & l & Hs & Hl & Hgt); simpl in *.
        -- inversion Hs; inversion Hl; subst. congruence.
        -- now exists i, s, l.
Qed.

Lemma compareTiming_loop_true_iff (tol : float) :
  forall stored input,
    compareTiming_loop tol stored input = true <->
    (forall i s l, nth_error stored i = Some s -> nth_error input i = Some l ->
                   JS.gt (relativeDiff s l) tol = false).
Proof.
  induction stored as [|s0 stored IH]; intros [|l0 input]; simpl.
  - split; [intros _ [|i] s l Hs Hl; discriminate | reflexivity].
  - split; [intros _ [|i] s l Hs Hl; discriminate | reflexivity].
  - split; [intros _ [|i] s l Hs Hl; discriminate | reflexivity].
  - destruct (JS.gt (relativeDiff s0 l0) tol) eqn:Hd.
    + split; [discriminate|].
      intros Hall. specialize (Hall 0%nat s0 l0 eq_refl eq_refl). congruence.
    + rewrite IH. split.
      * intros Hall [|i] s l Hs Hl; simpl in *.
        -- now inversion Hs; inversion Hl; subst.
        -- eauto.
      * intros Hall i s l Hs Hl. exact (Hall (S i) s l Hs Hl).
Qed.

Lemma compareTiming_false_iff (this : Doc) :
  forall stored input,
    compareTiming this stored input = false <->
    (exists i s l, nth_error stored i = Some s /\ nth_error input i = Some l /\
                   JS.gt (abs (s - l) / s) (tol_timing (tolerance this)) = true).
Proof.
  unfold compareTiming. intros stored input.
  destruct (compareTiming_loop _ stored input) eqn:E.
  - split; [discriminate|].
    intros (i & s & l & Hs & Hl & Hgt).
    rewrite compareTiming_loop_true_iff in E.
    specialize (E i s l Hs Hl). unfold relativeDiff in E. congruence.
  - split; [intros _|reflexivity].
    revert input E.
    induction stored as [|s0 stored IH]; intros [|l0 input]; simpl; try discriminate.
    destruct (JS.gt (relativeDiff s0 l0) _) eqn:Hd.
    + intros _. now exists 0%nat, s0, l0.
    + intros E. destruct (IH _ E) as (i & s & l & Hs & Hl & Hgt).
      now exists (S i), s, l.
Qed.

End Matcher.

(** ** Division by a zero timestamp *)

Section ZeroTimestamp.

Local Open Scope float_scope.
Import Gesture.

Lemma Prim2SF_zero : Prim2SF 0 = S754_zero false.
Proof. reflexivity. Qed.

Lemma Prim2SF_infinity : Prim2SF infinity = S754_infinity false.
Proof. reflexivity. Qed.

(** [0 / 0]: both timestamps zero gives NaN. *)
Lemma relativeDiff_zero_zero (l : float) :
  (l =? 0) = true -> Prim2SF (relativeDiff 0 l) = S754_nan.
Proof.
  unfold relativeDiff.
  rewrite eqb_spec, div_spec, abs_spec, sub_spec, Prim2SF_zero.
  destruct (Prim2SF l) as [[|]|[|]| |[|] m e]; simpl; try discriminate; reflexivity.
Qed.

(** [|l| / 0] with [l] a number other than zero is +Infinity. *)
Lemma relativeDiff_zero_nonzero (l : float) :
  is_nan l = false -> (l =? 0) = false ->
  Prim2SF (relativeDiff 0 l) = S754_infinity false.
Proof.
  unfold relativeDiff, is_nan.
  rewrite !eqb_spec, div_spec, abs_spec, sub_spec, Prim2SF_zero.
  destruct (Prim2SF l) as [[|]|[|]| |[|] m e]; simpl; try discriminate; reflexivity.
Qed.

(** [|0 - NaN| / 0] is NaN. *)
Lemma relativeDiff_zero_nan (l : float) :
  is_nan l = true -> Prim2SF (relativeDiff 0 l) = S754_nan.
Proof.
  unfold relativeDiff, is_nan.
  rewrite eqb_spec, div_spec, abs_spec, sub_spec, Prim2SF_zero.
  destruct (Prim2SF l) as [[|]|[|]| |s m e]; simpl; try discriminate;
    try reflexivity.
  unfold SFeqb, SFcompare. rewrite Z.compare_refl.
  destruct s; rewrite Pos.compare_cont_refl; discriminate.
Qed.

(** NaN is above nothing. *)
Lemma gt_nan (v tol : float) : Prim2SF v = S754_nan -> JS.gt v tol = false.
Proof.
  intros Hv. unfold JS.gt. rewrite ltb_spec, Hv.
  destruct (Prim2SF tol) as [[|]|[|]| |[|] m e]; reflexivity.
Qed.

(** +Infinity is above every tolerance that is itself below +Infinity. *)
Lemma gt_infinity (v tol : float) :
  Prim2SF v = S754_infinity false -> (tol <? infinity) = true ->
  JS.gt v tol = true.
Proof.
  intros Hv Htol. unfold JS.gt. rewrite ltb_spec, Hv.
  now rewrite ltb_spec, Prim2SF_infinity in Htol.
Qed.

End ZeroTimestamp.

(** ** Claims on the matcher *)

Section MatcherClaims.

Local Open Scope float_scope.
Import Gesture.

(** With both confidence helpers defined and a template that deciphers,
    one call returns [{success, confidence}] and records exactly one
    attempt. *)
Lemma validateGesture_with_helpers
    (posConf : list (Position float) -> list (Position float) -> float)
    (timeConf : list float -> list float -> float)
    (this : Doc) (stored input : GestureData float) (now : Z) :
  gestureData this = Some stored ->
  exists v this',
    validateGesture {| calculatePositionConfidence := Some posConf;
                       calculateTimingConfidence := Some timeConf |}
                    this input now = (Ok v, this') /\
    success v = comparePositions this (positions stored) (positions input)
                && compareTiming this (timing stored) (timing input) /\
    totalAttempts (usageStats this') = (totalAttempts (usageStats this) + 1)%Z /\
    (successfulAttempts (usageStats this') + failedAttempts (usageStats this')
     = successfulAttempts (usageStats this) + failedAttempts (usageStats this) + 1)%Z /\
    lastUsed (usageStats this') = Some now.
Proof.
  intros Hs. unfold validateGesture, decryptGestureData, calculateConfidence.
  rewrite Hs. cbn [calculatePositionConfidence calculateTimingConfidence].
  eexists _, _. split; [reflexivity|]. cbn [success usageStats record_attempt
    totalAttempts successfulAttempts failedAttempts lastUsed].
  repeat split.
  destruct (comparePositions _ _ _ && compareTiming _ _ _); lia.
Qed.

(** The schema's own methods: the call is abandoned at
    [calculateConfidence], before the statistics are touched. *)
Lemma validateGesture_schema_methods (this : Doc)
    (inputGesture : GestureData float) (now : Z) :
  validateGesture schema_methods this inputGesture now
  = (Throw "Gesture validation failed", this).
Proof.
  unfold validateGesture. destruct (decryptGestureData this); reflexivity.
Qed.

(** C1 (code defect).  [validateGesture] as Gesture.js defines it never
    returns [{success, confidence}]: [calculateConfidence] calls
    [this.calculatePositionConfidence], which the schema does not define,
    the TypeError is caught and replaced by 'Gesture validation failed',
    and the usage statistics are left as they were, for every template
    and every live sample. *)
Theorem validateGesture_throws_before_stats :
  forall (this : Doc) (inputGesture : GestureData float) (now : Z),
    validateGesture schema_methods this inputGesture now
    = (Throw "Gesture validation failed", this).
Proof.
  intros this inputGesture now. apply validateGesture_schema_methods.
Qed.

(** C2 (code defect).  In the scenario of the claim (tolerance 0.15,
    stored (0,0,0), live (0,0.2,0)) the position match fails and the
    success flag computed inside [validateGesture] is false, but the call
    throws 'Gesture validation failed' instead of returning it. *)
Theorem position_scenario_match_fails_validate_throws :
  forall now : Z,
    JS.gt (distance3D (Scenario.pos 0 0 0) (Scenario.pos 0 0.2 0)) 0.15 = true /\
    comparePositions Scenario.template
      (positions Scenario.stored) (positions Scenario.displaced) = false /\
    comparePositions Scenario.template
      (positions Scenario.stored) (positions Scenario.displaced)
    && compareTiming Scenario.template
      (timing Scenario.stored) (timing Scenario.displaced) = false /\
    validateGesture schema_methods Scenario.template Scenario.displaced now
    = (Throw "Gesture validation failed", Scenario.template).
Proof.
  intros now. repeat split; vm_compute; reflexivity.
Qed.

(** C3, as the claim states it, fails on a live timestamp that is not a
    number: against a stored 0 the quotient is NaN, which is above no
    tolerance, so the index passes although the live value is not 0. *)
Lemma nan_against_stored_zero_passes :
  nth_error (timing Scenario.stored) 0 = Some 0 /\
  nth_error [nan; 500; 1000] 0 = Some nan /\
  (nan =? 0) = false /\
  compareTiming Scenario.template (timing Scenario.stored) [nan; 500; 1000]
  = true.
Proof. repeat split; vm_compute; reflexivity. Qed.

(** C3, amended.  [compareTiming] fails exactly when some index below both
    lengths has [|stored[i] - live[i]| / stored[i]] above the timing
    tolerance, and a stored 0 has no case of its own.  At such an index a
    live timestamp of zero passes (0/0 is NaN, which is above nothing), and
    so does a live NaN; a live number other than zero makes the match fail
    (the quotient is +Infinity). *)
Theorem compareTiming_relative_diff_and_zero_timestamp :
  forall (this : Doc) (stored live : list float),
    (compareTiming this stored live = false <->
     exists i s l, (nth_error stored i = Some s) /\ (nth_error live i = Some l) /\
                   (JS.gt (abs (s - l) / s) (tol_timing (tolerance this)) = true))
    /\
    (forall i l, nth_error stored i = Some 0 -> nth_error live i = Some l ->
                 (l =? 0) = true ->
                 JS.gt (abs (0 - l) / 0) (tol_timing (tolerance this)) = false)
    /\
    (forall i l, nth_error stored i = Some 0 -> nth_error live i = Some l ->
                 is_nan l = true ->
                 JS.gt (abs (0 - l) / 0) (tol_timing (tolerance this)) = false)
    /\
    (forall i l, nth_error stored i = Some 0 -> nth_error live i = Some l ->
                 is_nan l = false -> (l =? 0) = false ->
                 (tol_timing (tolerance this) <? infinity) = true ->
                 compareTiming this stored live = false).
Proof.
  intros this stored live. split; [apply compareTiming_false_iff|]. split; [|split].
  - intros i l _ _ Hz. apply gt_nan. now apply relativeDiff_zero_zero.
  - intros i l _ _ Hn. apply gt_nan. now apply relativeDiff_zero_nan.
  - intros i l Hs Hl Hn Hz Htol. apply compareTiming_false_iff.
    exists i, 0, l. repeat split; try assumption.
    apply gt_infinity; [|assumption]. now apply relativeDiff_zero_nonzero.
Qed.

Lemma compareTiming_relative_diff_and_zero_timestamp_witness :
  compareTiming Scenario.template [0; 500] [5; 500] = false /\
  JS.gt (abs (0 - (-0)) / 0) 0.2 = false /\
  JS.gt (abs (0 - nan) / 0) 0.2 = false.
Proof.
  destruct (compareTiming_relative_diff_and_zero_timestamp
              Scenario.template [0; 500] [5; 500]) as (_ & _ & _ & Hfail).
  destruct (compareTiming_relative_diff_and_zero_timestamp
              Scenario.template [0; 500] [-0; 500]) as (_ & Hpass & _ & _).
  destruct (compareTiming_relative_diff_and_zero_timestamp
              Scenario.template [0; 500] [nan; 500]) as (_ & _ & Hnan & _).
  split; [|split].
  - apply (Hfail 0%nat 5); reflexivity.
  - apply (Hpass 0%nat (-0)); reflexivity.
  - apply (Hnan 0%nat nan); reflexivity.
Defined.

(** A stored -0 would make the quotient -Infinity, which is above nothing.
    The routes store [JSON.stringify(gestureData)], which writes -0 as 0, so
    a stored zero reads back as +0. *)
Remark stored_negative_zero_timestamp :
  JS.gt (relativeDiff (-0) 5) 0.2 = false.
Proof. reflexivity. Qed.

(** C10.  Neither loop looks beyond the shorter array or compares the
    lengths: a live sample shorter than the stored one that stays within
    tolerance on its own indices passes both matches. *)
Theorem truncated_prefix_passes_both_matches :
  forall (this : Doc) (stored live : GestureData float),
    (List.length (positions live) < List.length (positions stored))%nat ->
    (List.length (timing live) < List.length (timing stored))%nat ->
    (forall i s l, nth_error (positions stored) i = Some s ->
                   nth_error (positions live) i = Some l ->
                   JS.gt (distance3D s l) (tol_position (tolerance this)) = false) ->
    (forall i s l, nth_error (timing stored) i = Some s ->
                   nth_error (timing live) i = Some l ->
                   JS.gt (relativeDiff s l) (tol_timing (tolerance this)) = false) ->
    comparePositions this (positions stored) (positions live) = true /\
    compareTiming this (timing stored) (timing live) = true.
Proof.
  intros this stored live _ _ Hpos Htime. split.
  - now apply comparePositions_loop_true_iff.
  - now apply compareTiming_loop_true_iff.
Qed.

Lemma truncated_prefix_passes_both_matches_witness :
  comparePositions Scenario.template
    (positions Scenario.stored) (positions Scenario.truncated) = true /\
  compareTiming Scenario.template
    (timing Scenario.stored) (timing Scenario.truncated) = true.
Proof.
  apply (truncated_prefix_passes_both_matches
           Scenario.template Scenario.stored Scenario.truncated).
  - simpl; lia.
  - simpl; lia.
  - intros [|[|[|i]]] s l Hs Hl; simpl in Hs, Hl; try discriminate;
      inversion Hs; inversion Hl; subst; reflexivity.
  - intros [|[|[|i]]] s l Hs Hl; simpl in Hs, Hl; try discriminate;
      inversion Hs; inversion Hl; subst; reflexivity.
Defined.

End MatcherClaims.

(** ** The lockout *)

Section Lockout.

Import User.

Lemma isLocked_iff (this : Doc) (now : Z) :
  isLocked this now = true <-> exists t, lockUntil this = Some t /\ now < t.
Proof.
  unfold isLocked. destruct (lockUntil this) as [t|].
  - rewrite Z.ltb_lt. split; [intros Hlt; now exists t|].
    intros (t' & Ht & Hlt). now inversion Ht; subst.
  - split; [discriminate | intros (t' & Ht & _); discriminate].
Qed.

(** The handler stores [incLoginAttempts] after a validation that came
    back with [success] false, whatever methods the schema has. *)
Lemma login_failed_validation_increments
    (methods : Gesture.Methods) (acct : Auth.Account)
    (g : GestureData float) (now : Z) (v : Gesture.Validation)
    (gesture' : Gesture.Doc) :
  isLocked (Auth.user acct) now = false ->
  Gesture.validateGesture methods (Auth.gesturePassword acct) g now
    = (Ok v, gesture') ->
  Gesture.success v = false ->
  Auth.login methods (Some acct) g now
  = (Auth.InvalidGesture (Z.max 0 (5 - loginAttempts (Auth.user acct) - 1)),
     Some {| Auth.user := incLoginAttempts (Auth.user acct) now;
             Auth.gesturePassword := gesture' |}).
Proof.
  intros Hl Hv Hs. unfold Auth.login. now rewrite Hl, Hv, Hs.
Qed.

(** C5.  The transitions of the lockout state: a failure increments
    [loginAttempts]; a failure that brings the count to 5 (or beyond) on
    an account that is not locked sets [lockUntil] to now + 2 hours, an
    earlier one leaves [lockUntil] alone; a failure after a lock that has
    expired sets the count to 1 and clears [lockUntil]; a success resets
    the count, clears [lockUntil] and stamps [lastLogin]. *)
Theorem lockout_transitions :
  forall (this : Doc) (now : Z),
    (lockExpired this now = false ->
     loginAttempts (incLoginAttempts this now) = loginAttempts this + 1) /\
    (lockExpired this now = false -> isLocked this now = false ->
     5 <= loginAttempts this + 1 ->
     lockUntil (incLoginAttempts this now) = Some (now + 2 * 60 * 60 * 1000)) /\
    (lockExpired this now = false -> loginAttempts this + 1 < 5 ->
     lockUntil (incLoginAttempts this now) = lockUntil this) /\
    (forall t, lockUntil this = Some t -> t < now ->
     loginAttempts (incLoginAttempts this now) = 1 /\
     lockUntil (incLoginAttempts this now) = None) /\
    (loginAttempts (resetLoginAttempts this now) = 0 /\
     lockUntil (resetLoginAttempts this now) = None /\
     lastLogin (resetLoginAttempts this now) = Some now).
Proof.
  intros this now.
  split; [|split; [|split; [|split; [intros t Ht Hlt; split|repeat split]]]].
  - intros He. unfold incLoginAttempts. now rewrite He.
  - intros He Hl Hc. unfold incLoginAttempts. rewrite He, Hl. simpl.
    apply Z.leb_le in Hc. now rewrite Hc.
  - intros He Hc. unfold incLoginAttempts. rewrite He. simpl.
    apply Z.leb_gt in Hc. now rewrite Hc.
  - unfold incLoginAttempts, lockExpired. rewrite Ht.
    apply Z.ltb_lt in Hlt. now rewrite Hlt.
  - unfold incLoginAttempts, lockExpired. rewrite Ht.
    apply Z.ltb_lt in Hlt. now rewrite Hlt.
Qed.

Lemma lockout_transitions_witness :
  let four := {| loginAttempts := 4; lockUntil := None; lastLogin := None;
                 stats := stats ScenarioAuth.fresh_user |} in
  let stale := {| loginAttempts := 5; lockUntil := Some 1000; lastLogin := None;
                  stats := stats ScenarioAuth.fresh_user |} in
  loginAttempts (incLoginAttempts four 50) = 5 /\
  lockUntil (incLoginAttempts four 50) = Some 7200050 /\
  lockUntil (incLoginAttempts ScenarioAuth.fresh_user 50) = None /\
  loginAttempts (incLoginAttempts stale 2000) = 1 /\
  lockUntil (incLoginAttempts stale 2000) = None.
Proof.
  intros four stale.
  destruct (lockout_transitions four 50) as (Hinc & Hlock & _).
  destruct (lockout_transitions ScenarioAuth.fresh_user 50) as (_ & _ & Hkeep & _).
  destruct (lockout_transitions stale 2000) as (_ & _ & _ & Hexp & _).
  split; [apply Hinc; reflexivity|].
  split; [apply Hlock; [reflexivity | reflexivity | simpl; lia]|].
  split; [apply Hkeep; [reflexivity | simpl; lia]|].
  apply (Hexp 1000); [reflexivity | lia].
Defined.

(** What an 'Invalid gesture' answer tells about the handler's run: the
    account was not locked and the stored user is the incremented one. *)
Lemma login_invalid_gesture_inv
    (methods : Gesture.Methods) (acct acct' : Auth.Account)
    (g : GestureData float) (now remaining : Z) :
  Auth.login methods (Some acct) g now
  = (Auth.InvalidGesture remaining, Some acct') ->
  Auth.user acct' = incLoginAttempts (Auth.user acct) now.
Proof.
  unfold Auth.login. destruct (isLocked (Auth.user acct) now); [discriminate|].
  destruct (Gesture.validateGesture methods _ g now) as [[v|message] gesture'];
    [|discriminate].
  destruct (Gesture.success v); simpl; intros Heq; inversion Heq. reflexivity.
Qed.

Lemma after_five_failures_locked (this : Doc) (t1 t2 t3 t4 t5 : Z) :
  loginAttempts this = 0 -> lockUntil this = None ->
  loginAttempts (ScenarioAuth.after_five_failures this t1 t2 t3 t4 t5) = 5 /\
  lockUntil (ScenarioAuth.after_five_failures this t1 t2 t3 t4 t5)
  = Some (t5 + 2 * 60 * 60 * 1000).
Proof.
  intros H0 Hnone.
  unfold ScenarioAuth.after_five_failures, incLoginAttempts, lockExpired, isLocked.
  cbn [lockUntil loginAttempts]. rewrite Hnone, H0. cbn. split; reflexivity.
Qed.

Lemma login_locked (methods : Gesture.Methods) (acct : Auth.Account)
    (g : GestureData float) (now t : Z) :
  lockUntil (Auth.user acct) = Some t -> now < t ->
  Auth.login methods (Some acct) g now = (Auth.AccountLocked, Some acct).
Proof.
  intros Ht Hlt. unfold Auth.login.
  replace (isLocked (Auth.user acct) now) with true; [reflexivity|].
  symmetry. apply isLocked_iff. now exists t.
Qed.

(** C6.  While [lockUntil] lies in the future the handler answers with
    the locked-account error before it looks at the gesture: the response
    and the stored account are the same for every gesture and every set
    of schema methods, and the gesture document is untouched.  Five
    failures in a row on a fresh account set [lockUntil] two hours after
    the fifth, so every attempt before that moment is answered that way;
    and five attempts in a row that the handler answers with 'Invalid
    gesture' are five such failures. *)
Theorem locked_account_rejects_before_matching :
  (forall (methods : Gesture.Methods) (acct : Auth.Account)
          (g : GestureData float) (now t : Z),
      lockUntil (Auth.user acct) = Some t -> now < t ->
      Auth.login methods (Some acct) g now = (Auth.AccountLocked, Some acct)) /\
  (forall (this : Doc) (t1 t2 t3 t4 t5 : Z),
      loginAttempts this = 0 -> lockUntil this = None ->
      let locked := ScenarioAuth.after_five_failures this t1 t2 t3 t4 t5 in
      loginAttempts locked = 5 /\
      lockUntil locked = Some (t5 + 2 * 60 * 60 * 1000) /\
      forall (methods : Gesture.Methods) (gesture : Gesture.Doc)
             (g : GestureData float) (now : Z),
        now < t5 + 2 * 60 * 60 * 1000 ->
        Auth.login methods
          (Some {| Auth.user := locked; Auth.gesturePassword := gesture |}) g now
        = (Auth.AccountLocked,
           Some {| Auth.user := locked; Auth.gesturePassword := gesture |})) /\
  (forall (methods : Gesture.Methods) (a0 a1 a2 a3 a4 a5 : Auth.Account)
          (g1 g2 g3 g4 g5 : GestureData float)
          (t1 t2 t3 t4 t5 r1 r2 r3 r4 r5 : Z),
      loginAttempts (Auth.user a0) = 0 -> lockUntil (Auth.user a0) = None ->
      Auth.login methods (Some a0) g1 t1 = (Auth.InvalidGesture r1, Some a1) ->
      Auth.login methods (Some a1) g2 t2 = (Auth.InvalidGesture r2, Some a2) ->
      Auth.login methods (Some a2) g3 t3 = (Auth.InvalidGesture r3, Some a3) ->
      Auth.login methods (Some a3) g4 t4 = (Auth.InvalidGesture r4, Some a4) ->
      Auth.login methods (Some a4) g5 t5 = (Auth.InvalidGesture r5, Some a5) ->
      forall (g : GestureData float) (now : Z),
        now < t5 + 2 * 60 * 60 * 1000 ->
        Auth.login methods (Some a5) g now = (Auth.AccountLocked, Some a5)).
Proof.
  split; [exact login_locked|]. split.
  - intros this t1 t2 t3 t4 t5 H0 Hnone locked.
    destruct (after_five_failures_locked this t1 t2 t3 t4 t5 H0 Hnone)
      as [H5 Hlock].
    split; [exact H5|]. split; [exact Hlock|].
    intros methods gesture g now Hlt.
    apply (login_locked methods _ g now (t5 + 2 * 60 * 60 * 1000)); assumption.
  - intros methods a0 a1 a2 a3 a4 a5 g1 g2 g3 g4 g5 t1 t2 t3 t4 t5
           r1 r2 r3 r4 r5 H0 Hnone L1 L2 L3 L4 L5 g now Hlt.
    apply login_invalid_gesture_inv in L1, L2, L3, L4, L5.
    assert (Hu : Auth.user a5
                 = ScenarioAuth.after_five_failures (Auth.user a0) t1 t2 t3 t4 t5).
    { unfold ScenarioAuth.after_five_failures. congruence. }
    destruct (after_five_failures_locked (Auth.user a0) t1 t2 t3 t4 t5 H0 Hnone)
      as [_ Hlock].
    apply (login_locked methods a5 g now (t5 + 2 * 60 * 60 * 1000));
      [now rewrite Hu|assumption].
Qed.

Lemma locked_account_rejects_before_matching_witness :
  Auth.login Gesture.schema_methods
    (Some {| Auth.user := ScenarioAuth.after_five_failures ScenarioAuth.fresh_user 10 20 30 40 50;
             Auth.gesturePassword := Scenario.template |})
    Scenario.stored 7200049
  = (Auth.AccountLocked,
     Some {| Auth.user := ScenarioAuth.after_five_failures ScenarioAuth.fresh_user 10 20 30 40 50;
             Auth.gesturePassword := Scenario.template |}).
Proof.
  destruct locked_account_rejects_before_matching as (_ & Hfive & _).
  destruct (Hfive ScenarioAuth.fresh_user 10 20 30 40 50 eq_refl eq_refl)
    as (_ & _ & Hreject).
  apply Hreject. lia.
Defined.

(** With the schema as Gesture.js defines it, no attempt reaches the
    counter: six attempts are six server errors, and the account is left as
    it was. *)
Example six_attempts_on_the_schema_as_defined :
  ScenarioAuth.replay Gesture.schema_methods (Some ScenarioAuth.account)
    ScenarioAuth.five_wrong_then_right
  = ([Auth.ServerError "Gesture validation failed";
      Auth.ServerError "Gesture validation failed";
      Auth.ServerError "Gesture validation failed";
      Auth.ServerError "Gesture validation failed";
      Auth.ServerError "Gesture validation failed";
      Auth.ServerError "Gesture validation failed"],
     Some ScenarioAuth.account).
Proof. vm_compute. reflexivity. Qed.

(** With the two helpers defined, the same six attempts are five 'Invalid
    gesture' answers and a locked account for the right gesture. *)
Example six_attempts_with_helpers_defined :
  fst (ScenarioAuth.replay ScenarioAuth.methods_with_helpers
         (Some ScenarioAuth.account) ScenarioAuth.five_wrong_then_right)
  = [Auth.InvalidGesture 4; Auth.InvalidGesture 3; Auth.InvalidGesture 2;
     Auth.InvalidGesture 1; Auth.InvalidGesture 0; Auth.AccountLocked].
Proof. vm_compute. reflexivity. Qed.

End Lockout.

(** ** The anti-spoofing check *)

Section AntiSpoofing.

Local Open Scope float_scope.
Import Security.

(** C7.  An exception inside the [try] block makes the check answer
    true: whenever the body throws, [performAntiSpoofingCheck] returns
    true, and a capture without [motionData] is one that throws. *)
Theorem antiSpoofing_fails_open :
  (forall (this this' : Manager) (g : CheckInput) (now : Z) (message : string),
      antiSpoofing_try this g now = (Throw message, this') ->
      performAntiSpoofingCheck this g now = (true, this')) /\
  (forall (this : Manager) (timing : option (list float)) (now : Z),
      exists message,
        antiSpoofing_try this
          {| depthData := None; motionData := None; timingData := timing |} now
        = (Throw message, this)).
Proof.
  split.
  - intros this this' g now message Hthrow. unfold performAntiSpoofingCheck.
    destruct (antiSpoofingEnabled this) eqn:Hen; simpl.
    + now rewrite Hthrow.
    + unfold antiSpoofing_try in Hthrow.
      destruct (match depthData g with Some _ => _ | None => _ end);
        [discriminate|].
      destruct (motionData g) as [motion|]; [|now inversion Hthrow].
      destruct (suspicious (analyzeMotionPatterns motion)); [discriminate|].
      destruct (timingData g) as [timing|]; [|now inversion Hthrow].
      destruct (suspicious (analyzeTimingPatterns timing)); discriminate.
  - intros this timing now. eexists. reflexivity.
Qed.

Lemma antiSpoofing_fails_open_witness :
  performAntiSpoofingCheck ScenarioAuth.manager
    {| depthData := None; motionData := None;
       timingData := Some [0; 100; 200; 300] |} 0
  = (true, ScenarioAuth.manager).
Proof.
  destruct antiSpoofing_fails_open as [Hopen _].
  eapply Hopen. reflexivity.
Defined.

(** C4, as the claim states it, fails on a capture whose frames are
    exactly 100 ms apart: the variance of its inter-frame intervals is 0,
    yet the timing analysis does not flag it (the analysis counts an
    interval of 0 for the first frame, which makes its variance 1875), the
    anti-spoofing check passes, and the login handler hands the capture
    to the matcher, whose exception it reports. *)
Lemma evenly_spaced_capture_not_flagged :
  JS.lt (Spec.interFrameVariance (timing ScenarioAuth.evenly_spaced)) 0.01 = true /\
  analyzeTimingPatterns (timing ScenarioAuth.evenly_spaced) = not_suspicious /\
  performAntiSpoofingCheck ScenarioAuth.manager ScenarioAuth.evenly_spaced_check 0
  = (true, ScenarioAuth.manager) /\
  Auth.login Gesture.schema_methods (Some ScenarioAuth.account)
    ScenarioAuth.evenly_spaced 0
  = (Auth.ServerError "Gesture validation failed", Some ScenarioAuth.account).
Proof.
  repeat split; vm_compute; reflexivity.
Qed.

End AntiSpoofing.

(** ** Sign and NaN through the binary64 operations *)

Section SignTracking.

Import Binary64.

Lemma sgn_is_nn v : sgn_is false v -> nn v.
Proof. destruct v; simpl; auto. Qed.

Lemma sgn_is_notnan s v : sgn_is s v -> notnan v.
Proof. destruct v; simpl; unfold notnan; intuition discriminate. Qed.

Lemma nn_notnan v : nn v -> notnan v.
Proof. destruct v; simpl; unfold notnan; intuition discriminate. Qed.

(** Shifting a mantissa to the right keeps it non-negative. *)
Lemma shr_1_nonneg mrs : 0 <= shr_m mrs -> 0 <= shr_m (shr_1 mrs).
Proof.
  destruct mrs as [m r s]. simpl.
  destruct m as [|[p|p|]|[p|p|]]; simpl; lia.
Qed.

Lemma iter_pos_shr_1_nonneg (p : positive) :
  forall mrs, 0 <= shr_m mrs -> 0 <= shr_m (SpecFloat.iter_pos shr_1 p mrs).
Proof.
  induction p as [p IH|p IH|]; intros mrs Hm; simpl.
  - apply IH, IH, shr_1_nonneg, Hm.
  - apply IH, IH, Hm.
  - apply shr_1_nonneg, Hm.
Qed.

Lemma shr_fexp_nonneg m e l :
  0 <= m -> 0 <= shr_m (fst (shr_fexp prec emax m e l)).
Proof.
  intros Hm. unfold shr_fexp, shr.
  assert (H0 : 0 <= shr_m (shr_record_of_loc m l)) by (destruct l as [|[| |]]; exact Hm).
  destruct (fexp prec emax (Zdigits2 m + e) - e) as [|p|p]; simpl; auto.
  now apply iter_pos_shr_1_nonneg.
Qed.

Lemma round_nearest_even_nonneg m l : 0 <= m -> 0 <= round_nearest_even m l.
Proof.
  intros Hm. destruct l as [|[| |]]; simpl; try lia.
  destruct (Z.even m); lia.
Qed.

(** Rounding a non-negative mantissa gives a zero, a number or an infinity
    of the sign asked for, never NaN. *)
Lemma binary_round_aux_sgn sx mx ex lx :
  0 <= mx -> sgn_is sx (binary_round_aux prec emax sx mx ex lx).
Proof.
  intros Hm. unfold binary_round_aux.
  pose proof (shr_fexp_nonneg mx ex lx Hm) as H1.
  destruct (shr_fexp prec emax mx ex lx) as [mrs' e']. simpl in H1.
  pose proof (shr_fexp_nonneg _ e' loc_Exact
                (round_nearest_even_nonneg _ (loc_of_shr_record mrs') H1)) as H2.
  destruct (shr_fexp prec emax _ e' loc_Exact) as [mrs'' e'']. simpl in H2.
  destruct (shr_m mrs'') as [|p|p]; cbn; try reflexivity; [|lia].
  match goal with |- context [if ?c then _ else _] => destruct c end; reflexivity.
Qed.

Lemma binary_round_sgn sx mx ex : sgn_is sx (binary_round prec emax sx mx ex).
Proof.
  unfold binary_round. destruct (shl_align _ _ _) as [mz ez].
  now apply binary_round_aux_sgn.
Qed.

Lemma binary_normalize_notnan m e szero : notnan (binary_normalize prec emax m e szero).
Proof.
  destruct m as [|p|p]; simpl.
  - discriminate.
  - eapply sgn_is_notnan, binary_round_sgn.
  - eapply sgn_is_notnan, binary_round_sgn.
Qed.

(** A sum of two non-negative values is non-negative. *)
Lemma SF64add_nn a b : nn a -> nn b -> nn (SF64add a b).
Proof.
  destruct a as [sa|sa| |sa ma ea], b as [sb|sb| |sb mb eb]; simpl;
    intros Ha Hb; subst; try contradiction; try reflexivity; try exact I.
  - destruct sa, sb; exact I.
  - apply sgn_is_nn. unfold cond_Zopp.
    match goal with |- context [binary_normalize _ _ ?m _ _] => destruct m eqn:E end; simpl.
    + lia. + apply binary_round_sgn. + lia.
Qed.

(** Adding a finite number to anything that is not NaN does not give NaN,
    and neither does subtracting anything that is not NaN from a finite
    number. *)
Lemma SF64add_notnan_fin a b : notnan a -> fin b -> notnan (SF64add a b).
Proof.
  destruct a as [sa|sa| |sa ma ea], b as [sb|sb| |sb mb eb]; simpl;
    intros Ha Hb; try contradiction; try (now elim Ha); try discriminate.
  - destruct sa, sb; discriminate.
  - apply binary_normalize_notnan.
Qed.

Lemma SF64sub_fin_notnan a b : fin a -> notnan b -> notnan (SF64sub a b).
Proof.
  destruct a as [sa|sa| |sa ma ea], b as [sb|sb| |sb mb eb]; simpl;
    intros Ha Hb; try contradiction; try (now elim Hb); try discriminate.
  - destruct sa, sb; discriminate.
  - apply binary_normalize_notnan.
Qed.

(** A square is non-negative; so is a non-negative value times a positive
    number. *)
Lemma SF64mul_self_nn a : notnan a -> nn (SF64mul a a).
Proof.
  destruct a as [sa|sa| |sa ma ea]; simpl; intros Ha; try (now elim Ha).
  - exact I.
  - now destruct sa.
  - apply sgn_is_nn. replace false with (xorb sa sa) at 1 by now destruct sa.
    apply binary_round_aux_sgn. lia.
Qed.

Lemma SF64mul_nn_posfin a b : nn a -> posfin b -> nn (SF64mul a b).
Proof.
  destruct a as [sa|sa| |sa ma ea], b as [sb|sb| |[|] mb eb]; simpl;
    intros Ha Hb; subst; try contradiction; try reflexivity; try exact I.
  apply sgn_is_nn. apply (binary_round_aux_sgn false). lia.
Qed.

Lemma div_eucl_nonneg a b : 0 <= a -> 0 < b -> 0 <= fst (Z.div_eucl a b).
Proof.
  intros Ha Hb. change (fst (Z.div_eucl a b)) with (a / b). now apply Z.div_pos.
Qed.

Lemma SFdiv_core_nonneg mx ex my ey :
  0 <= fst (fst (SFdiv_core_binary prec emax (Z.pos mx) ex (Z.pos my) ey)).
Proof.
  unfold SFdiv_core_binary.
  match goal with |- context [Z.div_eucl ?m _] =>
    assert (Hm : 0 <= m); [| pose proof (div_eucl_nonneg m (Z.pos my) Hm ltac:(lia)) as Hq;
       destruct (Z.div_eucl m (Z.pos my)) as [q r]; exact Hq ] end.
  destruct (ex - ey - _) as [|s|s]; try lia.
  apply Z.shiftl_nonneg. lia.
Qed.

(** A quotient by a finite number other than zero has the sign of the
    signs, and is not NaN. *)
Lemma SF64div_sgn a b :
  notnan a -> forall mb eb sb, b = S754_finite sb mb eb ->
  match a with
  | S754_nan => False
  | S754_zero sa | S754_infinity sa | S754_finite sa _ _ =>
      sgn_is (xorb sa sb) (SF64div a b)
  end.
Proof.
  intros Ha mb eb sb ->.
  destruct a as [sa|sa| |sa ma ea]; simpl; try reflexivity; try (now elim Ha).
  pose proof (SFdiv_core_nonneg ma ea mb eb) as Hq.
  destruct (SFdiv_core_binary prec emax (Z.pos ma) ea (Z.pos mb) eb) as [[mz ez] lz].
  now apply binary_round_aux_sgn.
Qed.

Lemma SF64div_notnan_posfin a b : notnan a -> posfin b -> notnan (SF64div a b).
Proof.
  intros Ha Hb. destruct b as [sb|sb| |[|] mb eb]; try contradiction.
  pose proof (SF64div_sgn a _ Ha mb eb false eq_refl) as H.
  destruct a; try (now elim Ha); eapply sgn_is_notnan, H.
Qed.

Lemma SF64div_nn_posfin a b : nn a -> posfin b -> nn (SF64div a b).
Proof.
  intros Ha Hb. destruct b as [sb|sb| |[|] mb eb]; try contradiction.
  pose proof (SF64div_sgn a _ (nn_notnan _ Ha) mb eb false eq_refl) as H.
  destruct a as [sa|sa| |sa ma ea]; simpl in Ha; subst; try contradiction.
  - simpl. exact I.
  - apply sgn_is_nn. exact H.
  - apply sgn_is_nn. exact H.
Qed.

Lemma SFsqrt_core_nonneg mx ex :
  0 <= fst (fst (SFsqrt_core_binary prec emax (Z.pos mx) ex)).
Proof.
  unfold SFsqrt_core_binary.
  match goal with |- context [Z.sqrtrem ?m] =>
    pose proof (Z.sqrtrem_sqrt m) as Hs; pose proof (Z.sqrt_nonneg m) as Hn;
    destruct (Z.sqrtrem m) as [q r] end.
  simpl in *. subst q. exact Hn.
Qed.

(** The square root of a non-negative value is non-negative. *)
Lemma SF64sqrt_nn a : nn a -> nn (SF64sqrt a).
Proof.
  destruct a as [sa|sa| |sa ma ea]; simpl; intros Ha; subst; try contradiction;
    try exact I; try reflexivity.
  pose proof (SFsqrt_core_nonneg ma ea) as Hq.
  destruct (SFsqrt_core_binary prec emax (Z.pos ma) ea) as [[mz ez] lz].
  apply sgn_is_nn. now apply binary_round_aux_sgn.
Qed.

End SignTracking.

(** ** Integers as binary64 values, rounding and the clamp *)

Section RoundAndClamp.

Import Binary64.
Import Spec.

(** The bit length of the mantissa is [Pos.size]. *)
Lemma digits2_pos_size p : digits2_pos p = Pos.size p.
Proof. induction p; simpl; congruence. Qed.

Lemma digits2_pos_iter_xO (k p : positive) :
  digits2_pos (Pos.iter xO p k) = (digits2_pos p + k)%positive.
Proof.
  induction k as [|k IH] using Pos.peano_ind.
  - simpl. lia.
  - rewrite Pos.iter_succ. simpl. rewrite IH. lia.
Qed.

(** A mantissa of exactly 53 bits with an exponent in range is left as it is. *)
Lemma binary_round_aux_exact (s : bool) (mz : positive) (ez : Z) :
  digits2_pos mz = 53%positive -> -1074 <= ez <= 971 ->
  binary_round_aux prec emax s (Z.pos mz) ez loc_Exact = S754_finite s mz ez.
Proof.
  intros Hd He. unfold binary_round_aux, shr_fexp, shr, fexp, SpecFloat.emin.
  cbn [Zdigits2 shr_record_of_loc]. rewrite Hd.
  replace (Z.max (53 + ez - prec) (3 - emax - prec) - ez) with 0
    by (unfold prec, emax; lia).
  cbn [shr_m loc_of_shr_record round_nearest_even Zdigits2 shr_record_of_loc].
  rewrite Hd.
  replace (Z.max (53 + ez - prec) (3 - emax - prec) - ez) with 0
    by (unfold prec, emax; lia).
  cbn [shr_m].
  replace (ez <=? emax - prec) with true; [reflexivity|].
  symmetry. apply Z.leb_le. unfold prec, emax. lia.
Qed.

(** A positive integer of at most 53 bits is represented exactly, with
    exponent [digits - 53]. *)
Lemma binary_normalize_small (p : positive) (szero : bool) :
  (digits2_pos p <= 53)%positive ->
  exists mz, digits2_pos mz = 53%positive /\
    binary_normalize prec emax (Z.pos p) 0 szero
    = S754_finite false mz (Z.pos (digits2_pos p) - 53).
Proof.
  intros Hd. unfold binary_normalize, binary_round, shl_align, fexp, SpecFloat.emin.
  replace (Z.max (Z.pos (digits2_pos p) + 0 - prec) (3 - emax - prec))
    with (Z.pos (digits2_pos p) - 53) by (unfold prec, emax; lia).
  rewrite Z.sub_0_r.
  destruct (Z.pos (digits2_pos p) - 53) as [|k|k] eqn:Ek; try lia.
  - exists p. assert (digits2_pos p = 53%positive) by lia.
    split; [assumption|]. apply binary_round_aux_exact; [assumption|lia].
  - exists (Pos.iter xO p k).
    assert (Hd' : digits2_pos (Pos.iter xO p k) = 53%positive)
      by (rewrite digits2_pos_iter_xO; lia).
    split; [assumption|]. apply binary_round_aux_exact; [assumption|lia].
Qed.

Lemma valid_binary_53 (s : bool) (mz : positive) (ez : Z) :
  digits2_pos mz = 53%positive -> -1074 <= ez <= 971 ->
  valid_binary (S754_finite s mz ez) = true.
Proof.
  intros Hd He. unfold SpecFloat.valid_binary, SpecFloat.bounded, SpecFloat.canonical_mantissa, SpecFloat.fexp, SpecFloat.emin.
  rewrite Hd. apply andb_true_intro. split.
  - apply Z.eqb_eq. unfold prec, emax. lia.
  - apply Z.leb_le. unfold prec, emax. lia.
Qed.

Lemma size_le_of_lt (p : positive) (k : Z) :
  0 <= k -> Z.pos p < 2 ^ k -> Z.pos (Pos.size p) <= k.
Proof.
  intros Hk Hlt. pose proof (Pos.size_le p) as Hs.
  assert (H2 : 2 ^ Z.pos (Pos.size p) <= 2 * Z.pos p).
  { rewrite <- Pos2Z.inj_pow. change (2 * Z.pos p) with (Z.pos p~0). now apply Pos2Z.pos_le_pos. }
  destruct (Z_le_gt_dec (Z.pos (Pos.size p)) k) as [|Hgt]; [assumption|exfalso].
  assert (2 ^ (k + 1) <= 2 ^ Z.pos (Pos.size p)) by (apply Z.pow_le_mono_r; lia).
  rewrite Z.pow_add_r in H by lia. lia.
Qed.

Lemma size_gt_of_le (p : positive) (k : Z) :
  0 <= k -> 2 ^ k <= Z.pos p -> k < Z.pos (Pos.size p).
Proof.
  intros Hk Hle. pose proof (Pos.size_gt p) as Hs.
  assert (H2 : Z.pos p < 2 ^ Z.pos (Pos.size p)).
  { rewrite <- Pos2Z.inj_pow. now apply Pos2Z.pos_lt_pos. }
  destruct (Z_lt_le_dec k (Z.pos (Pos.size p))) as [|Hge]; [assumption|exfalso].
  assert (2 ^ Z.pos (Pos.size p) <= 2 ^ k) by (apply Z.pow_le_mono_r; lia).
  lia.
Qed.

(** Comparisons against the Numbers 1 and 10. *)
Lemma SFcompare_refl v : notnan v -> SFcompare v v = Some Eq.
Proof.
  destruct v as [s|s| |s m e]; intros H; try (now elim H); simpl.
  - reflexivity.
  - now destruct s.
  - rewrite Z.compare_refl.
    destruct s; simpl; rewrite ?Pos.compare_cont_refl; reflexivity.
Qed.

Lemma is_nan_false (v : float) : notnan (Prim2SF v) -> is_nan v = false.
Proof.
  intros H. unfold is_nan. rewrite eqb_spec. unfold SFeqb.
  now rewrite SFcompare_refl.
Qed.

Lemma is_finite_fin (v : float) : is_finite v = true -> fin (Prim2SF v).
Proof.
  unfold is_finite, is_nan, is_infinity. rewrite !eqb_spec, abs_spec.
  change (Prim2SF infinity) with (S754_infinity false).
  destruct (Prim2SF v) as [s|s| |s m e]; simpl; try exact (fun _ => I);
    try discriminate.
  destruct s; discriminate.
Qed.

Lemma Prim2SF_1 : Prim2SF 1 = one.
Proof. reflexivity. Qed.
Lemma Prim2SF_10 : Prim2SF 10 = ten.
Proof. reflexivity. Qed.

Lemma SFltb_exponent (m1 m2 : positive) (e1 e2 : Z) :
  e1 < e2 ->
  SFltb (S754_finite false m1 e1) (S754_finite false m2 e2) = true.
Proof.
  intros H. unfold SFltb, SFcompare.
  now rewrite (proj2 (Z.compare_lt_iff e1 e2) H).
Qed.

(** Above 10: clamped to 10. *)
Lemma clamp_large (r : float) (m : positive) (e : Z) :
  Prim2SF r = S754_finite false m e -> -49 < e ->
  JS.min 10 (JS.max 1 r) = 10%float.
Proof.
  intros Hr He.
  assert (Hn : is_nan r = false) by (apply is_nan_false; rewrite Hr; discriminate).
  assert (H1 : (1 <? r)%float = true).
  { rewrite ltb_spec, Hr, Prim2SF_1. apply SFltb_exponent. lia. }
  assert (H10 : (10 <? r)%float = true).
  { rewrite ltb_spec, Hr, Prim2SF_10. apply SFltb_exponent. lia. }
  unfold JS.max. rewrite Hn, H1.
  change (is_nan 1 || false) with false. cbv iota.
  unfold JS.min. rewrite Hn, H10. reflexivity.
Qed.

(** Zero, of either sign: clamped to 1. *)
Lemma clamp_zero (r : float) (s : bool) :
  Prim2SF r = S754_zero s -> JS.min 10 (JS.max 1 r) = 1%float.
Proof.
  intros Hr.
  assert (Hn : is_nan r = false) by (apply is_nan_false; rewrite Hr; discriminate).
  assert (H1 : (1 <? r)%float = false) by (now rewrite ltb_spec, Hr, Prim2SF_1).
  assert (H2 : (r <? 1)%float = true) by (now rewrite ltb_spec, Hr, Prim2SF_1).
  unfold JS.max. rewrite Hn, H1, H2. reflexivity.
Qed.

(** +Infinity: clamped to 10. *)
Lemma clamp_infinity (r : float) :
  Prim2SF r = S754_infinity false -> JS.min 10 (JS.max 1 r) = 10%float.
Proof.
  intros Hr.
  assert (Hn : is_nan r = false) by (apply is_nan_false; rewrite Hr; discriminate).
  assert (H1 : (1 <? r)%float = true) by (now rewrite ltb_spec, Hr, Prim2SF_1).
  assert (H10 : (10 <? r)%float = true) by (now rewrite ltb_spec, Hr, Prim2SF_10).
  unfold JS.max. rewrite Hn, H1.
  change (is_nan 1 || false) with false. cbv iota.
  unfold JS.min. rewrite Hn, H10. reflexivity.
Qed.

Lemma is_score_1 : is_score 1.
Proof. unfold is_score. simpl. auto. Qed.

Lemma is_score_10 : is_score 10.
Proof. unfold is_score. simpl. auto 12. Qed.

(** Rounded integers below 16, one by one. *)
Lemma clamp_small (n : Z) :
  0 <= n < 16 -> is_score (JS.min 10 (JS.max 1 (JS.of_Z_signed n false))).
Proof.
  intros Hn. rewrite <- (Z2Nat.id n) by lia.
  assert (Hk : (Z.to_nat n < 16)%nat) by lia.
  revert Hk. generalize (Z.to_nat n) as k. intros k Hk. unfold is_score.
  do 16 (destruct k as [|k]; [vm_compute; auto 12|]).
  lia.
Qed.

(** Rounded integers from 16 up to 53 bits. *)
Lemma clamp_of_Z_large (p : positive) :
  16 <= Z.pos p -> (digits2_pos p <= 53)%positive ->
  JS.min 10 (JS.max 1 (JS.of_Z_signed (Z.pos p) false)) = 10%float.
Proof.
  intros H16 Hd.
  destruct (binary_normalize_small p false Hd) as (mz & Hmz & Hnorm).
  assert (H5 : 4 < Z.pos (digits2_pos p)).
  { rewrite digits2_pos_size. apply size_gt_of_le; [lia|]. exact H16. }
  apply (clamp_large _ mz (Z.pos (digits2_pos p) - 53)); [|lia].
  unfold JS.of_Z_signed. rewrite Hnorm.
  apply Prim2SF_SF2Prim, valid_binary_53; [assumption|lia].
Qed.

(** The half-up rounding of [m * 2^e], [e < 0], does not exceed [m]. *)
Lemma round_quotient_bounds (m : positive) (e : Z) :
  e < 0 -> 0 <= (2 * Z.pos m + 2 ^ (- e)) / 2 ^ (1 - e) <= Z.pos m.
Proof.
  intros He.
  assert (Hk : 0 < 2 ^ (- e)) by (apply Z.pow_pos_nonneg; lia).
  assert (Hk2 : 2 ^ (1 - e) = 2 * 2 ^ (- e)).
  { replace (1 - e) with (1 + - e) by lia. rewrite Z.pow_add_r by lia. reflexivity. }
  assert (H2 : 2 <= 2 ^ (- e)).
  { change 2 with (2 ^ 1) at 1. apply Z.pow_le_mono_r; lia. }
  split.
  - apply Z.div_pos; lia.
  - apply Z.lt_succ_r. apply Z.div_lt_upper_bound; [lia|]. rewrite Hk2. nia.
Qed.

(** [Math.min(10, Math.max(1, Math.round(c)))] for a number [c] that is
    neither NaN nor negative is one of 1, 2, ..., 10. *)
Lemma clamp_round_is_score (c : float) :
  nn (Prim2SF c) -> is_score (JS.min 10 (JS.max 1 (JS.round c))).
Proof.
  intros Hc. pose proof (Prim2SF_valid c) as Hv. unfold JS.round.
  destruct (Prim2SF c) as [s|s| |s m e] eqn:Ec; simpl in Hc; try contradiction.
  - rewrite (clamp_zero c s Ec). apply is_score_1.
  - subst s. rewrite (clamp_infinity c Ec). apply is_score_10.
  - subst s. destruct (0 <=? e) eqn:He.
    + apply Z.leb_le in He. rewrite (clamp_large c m e Ec) by lia. apply is_score_10.
    + apply Z.leb_gt in He.
      pose proof (round_quotient_bounds m e He) as Hq.
      set (n := (2 * Z.pos m + 2 ^ (- e)) / 2 ^ (1 - e)) in *.
      assert (Hm53 : Z.pos (digits2_pos m) <= 53).
      { unfold SpecFloat.valid_binary, SpecFloat.bounded, SpecFloat.canonical_mantissa, SpecFloat.fexp, SpecFloat.emin in Hv.
        apply andb_prop in Hv. destruct Hv as [Hcan _]. apply Z.eqb_eq in Hcan.
        unfold prec, emax in Hcan. lia. }
      destruct (Z_lt_le_dec n 16) as [Hlt|Hge].
      * apply clamp_small. lia.
      * destruct n as [|p|p] eqn:En; try lia.
        rewrite clamp_of_Z_large; [apply is_score_10|assumption|].
        assert (Hp : Z.pos (digits2_pos p) <= 53).
        { rewrite digits2_pos_size. apply size_le_of_lt; [lia|].
          pose proof (Pos.size_gt m) as Hs.
          assert (Z.pos m < 2 ^ Z.pos (Pos.size m))
            by (rewrite <- Pos2Z.inj_pow; now apply Pos2Z.pos_lt_pos).
          assert (2 ^ Z.pos (Pos.size m) <= 2 ^ 53).
          { apply Z.pow_le_mono_r; [lia|]. rewrite <- digits2_pos_size. exact Hm53. }
          lia. }
        lia.
Qed.

End RoundAndClamp.

(** ** The score of an admissible sample on JavaScript numbers *)

Section FloatScore.

Import Binary64.
Import Spec.
Local Open Scope float_scope.

(** The same facts on Numbers, through the specification of each
    primitive. *)
Lemma sub_notnan (a b : float) :
  fin (Prim2SF a) -> notnan (Prim2SF b) -> notnan (Prim2SF (a - b)).
Proof. intros Ha Hb. rewrite sub_spec. now apply SF64sub_fin_notnan. Qed.

Lemma pow2_nn (v : float) : notnan (Prim2SF v) -> nn (Prim2SF (Math_pow2 v)).
Proof.
  intros Hv. unfold Math_pow2. cbn [mul FloatArith].
  rewrite mul_spec. now apply SF64mul_self_nn.
Qed.

Lemma add_nn (a b : float) :
  nn (Prim2SF a) -> nn (Prim2SF b) -> nn (Prim2SF (a + b)).
Proof. intros Ha Hb. rewrite add_spec. now apply SF64add_nn. Qed.

Lemma finite_position_fin (p : Position float) :
  finite_position p = true ->
  fin (Prim2SF (x p)) /\ fin (Prim2SF (y p)) /\ fin (Prim2SF (z p)).
Proof.
  unfold finite_position. intros H.
  apply andb_prop in H. destruct H as [H Hz].
  apply andb_prop in H. destruct H as [Hx Hy].
  repeat split; now apply is_finite_fin.
Qed.

Lemma fin_notnan v : fin v -> notnan v.
Proof. destruct v; simpl; unfold notnan; intuition discriminate. Qed.

Lemma distance3D_nn (a b : Position float) :
  finite_position a = true -> finite_position b = true ->
  nn (Prim2SF (distance3D a b)).
Proof.
  intros Ha Hb.
  destruct (finite_position_fin a Ha) as (Hax & Hay & Haz).
  destruct (finite_position_fin b Hb) as (Hbx & Hby & Hbz).
  unfold distance3D. cbn [Math_sqrt add sub FloatArith].
  rewrite sqrt_spec. apply SF64sqrt_nn.
  repeat apply add_nn; apply pow2_nn; cbn [sub FloatArith];
    apply sub_notnan; auto using fin_notnan.
Qed.

Lemma totalDistance_loop_nn :
  forall (rest : list (Position float)) (prev : Position float) (acc : float),
    finite_position prev = true -> forallb finite_position rest = true ->
    nn (Prim2SF acc) -> nn (Prim2SF (totalDistance_loop prev rest acc)).
Proof.
  induction rest as [|curr rest IH]; intros prev acc Hp Hr Hacc; simpl.
  - exact Hacc.
  - simpl in Hr. apply andb_prop in Hr. destruct Hr as [Hc Hr].
    apply IH; try assumption. cbn [add FloatArith].
    apply add_nn; [assumption|]. now apply distance3D_nn.
Qed.

Lemma totalDistance_nn (pos : list (Position float)) :
  forallb finite_position pos = true -> nn (Prim2SF (totalDistance pos)).
Proof.
  destruct pos as [|first rest]; simpl; intros H.
  - exact I.
  - apply andb_prop in H. destruct H as [Hf Hr].
    apply totalDistance_loop_nn; try assumption. exact I.
Qed.

(** [array.length] as a Number, for the lengths an admissible sample has. *)
Lemma of_nat_posfin (n : nat) :
  (1 <= n <= 10)%nat -> posfin (Prim2SF (JS.of_nat n)).
Proof.
  intros Hn.
  do 11 (destruct n as [|n]; [first [lia | exact I]|]). lia.
Qed.

Lemma of_nat_nn (n : nat) : (n <= 10)%nat -> nn (Prim2SF (JS.of_nat n)).
Proof.
  intros Hn.
  do 11 (destruct n as [|n]; [first [exact I | reflexivity]|]). lia.
Qed.

Lemma sum_notnan :
  forall (l : list float) (acc : float),
    forallb is_finite l = true -> notnan (Prim2SF acc) ->
    notnan (Prim2SF (fold_left (fun sum t => add sum t) l acc)).
Proof.
  induction l as [|t l IH]; intros acc Hl Hacc; simpl.
  - exact Hacc.
  - simpl in Hl. apply andb_prop in Hl. destruct Hl as [Ht Hl].
    apply IH; [assumption|]. rewrite add_spec.
    apply SF64add_notnan_fin; [assumption|]. now apply is_finite_fin.
Qed.

Lemma avgTime_notnan (ts : list float) :
  (1 <= List.length ts <= 10)%nat -> forallb is_finite ts = true ->
  notnan (Prim2SF (avgTime ts)).
Proof.
  intros Hlen Hts. unfold avgTime. cbn [div lit_0 of_length FloatArith].
  rewrite div_spec. apply SF64div_notnan_posfin.
  - apply sum_notnan; [assumption|discriminate].
  - now apply of_nat_posfin.
Qed.

Lemma squares_nn (avg : float) :
  notnan (Prim2SF avg) ->
  forall (l : list float) (acc : float),
    forallb is_finite l = true -> nn (Prim2SF acc) ->
    nn (Prim2SF (fold_left (fun sum t => add sum (Math_pow2 (sub t avg))) l acc)).
Proof.
  intros Havg. induction l as [|t l IH]; intros acc Hl Hacc; simpl.
  - exact Hacc.
  - simpl in Hl. apply andb_prop in Hl. destruct Hl as [Ht Hl].
    apply IH; [assumption|]. apply add_nn; [assumption|].
    apply pow2_nn. cbn [sub FloatArith]. apply sub_notnan; [|assumption].
    now apply is_finite_fin.
Qed.

Lemma timeVariance_nn (ts : list float) :
  (1 <= List.length ts <= 10)%nat -> forallb is_finite ts = true ->
  nn (Prim2SF (timeVariance ts)).
Proof.
  intros Hlen Hts. unfold timeVariance. cbn [div lit_0 of_length FloatArith].
  rewrite div_spec. apply SF64div_nn_posfin.
  - apply squares_nn; [now apply avgTime_notnan|assumption|exact I].
  - now apply of_nat_posfin.
Qed.

Lemma mul_nn_literal (a b : float) :
  nn (Prim2SF a) -> posfin (Prim2SF b) -> nn (Prim2SF (a * b)).
Proof. intros Ha Hb. rewrite mul_spec. now apply SF64mul_nn_posfin. Qed.

Lemma rawComplexity_nn (g : GestureData float) :
  admissible g = true -> nn (Prim2SF (rawComplexity g)).
Proof.
  unfold admissible. intros H.
  apply andb_prop in H. destruct H as [H Hts].
  apply andb_prop in H. destruct H as [H Hps].
  apply andb_prop in H. destruct H as [H Hlen].
  apply andb_prop in H. destruct H as [H3 H10].
  apply Nat.leb_le in H3, H10. apply Nat.eqb_eq in Hlen.
  unfold rawComplexity.
  cbn [add mul lit_1 lit_0_5 lit_0_1 lit_0_01 of_length FloatArith].
  repeat apply add_nn.
  - exact eq_refl.
  - apply mul_nn_literal; [apply of_nat_nn; lia|exact I].
  - apply mul_nn_literal; [now apply totalDistance_nn|exact I].
  - apply mul_nn_literal; [apply timeVariance_nn; [lia|assumption]|exact I].
Qed.

Lemma complexity_js_is_score (g : GestureData float) :
  admissible g = true -> is_score (calculateComplexity g).
Proof.
  intros H. unfold calculateComplexity.
  cbn [Math_min Math_max Math_round lit_1 lit_10 FloatArith].
  apply clamp_round_is_score. now apply rawComplexity_nn.
Qed.

End FloatScore.

(** ** The complexity score on JavaScript numbers *)

Section ComplexityJS.

Local Open Scope float_scope.

(** A capture of one second scores 10: the variance of its timestamps
    alone is far above the clamp. *)
Example complexity_of_one_second_capture :
  calculateComplexity Scenario.stored = 10
  /\ calculateComplexity Scenario.displaced = 10.
Proof. split; vm_compute; reflexivity. Qed.

(** Without timestamps the mean is 0/0, and the NaN survives [Math.round],
    [Math.max] and [Math.min]. *)
Example complexity_without_timestamps_is_nan :
  is_nan (calculateComplexity
            {| positions := positions Scenario.stored; timing := [] |}) = true.
Proof. vm_compute. reflexivity. Qed.

(** When the added frame brings a timestamp with it the variance term can
    shrink by more than the position adds: 7 before, 6 after. *)
Remark complexity_can_drop_when_a_timestamp_is_added :
  calculateComplexity ScenarioAuth.three_frames = 7 /\
  calculateComplexity ScenarioAuth.four_frames = 6 /\
  calculateComplexity
    {| positions := positions ScenarioAuth.four_frames;
       timing := timing ScenarioAuth.three_frames |} = 8.
Proof. repeat split; vm_compute; reflexivity. Qed.

End ComplexityJS.

(** ** Maps *)

Section MapFacts.

Context {V : Type}.

Lemma get_set_same (m : JSMap.t V) (key : string) (value : V) :
  JSMap.get (JSMap.set m key value) key = Some value.
Proof.
  induction m as [|[k v] m IH]; simpl.
  - now rewrite String.eqb_refl.
  - destruct (String.eqb k key) eqn:E; simpl; rewrite E; [reflexivity|exact IH].
Qed.

Lemma get_set_other (m : JSMap.t V) (key other : string) (value : V) :
  key <> other -> JSMap.get (JSMap.set m key value) other = JSMap.get m other.
Proof.
  intros Hne. induction m as [|[k v] m IH]; simpl.
  - apply String.eqb_neq in Hne. now rewrite Hne.
  - destruct (String.eqb k key) eqn:E; simpl.
    + apply String.eqb_eq in E. subst k.
      apply String.eqb_neq in Hne. now rewrite Hne.
    + now rewrite IH.
Qed.

End MapFacts.

(** ** The rate limiter *)

Section RateLimiter.

Import RateLimit.

(** A key that has an entry whose window is still open. *)
Lemma rateLimitByUser_open_window
    (maxAttempts windowMs : Z) (attempts : JSMap.t Entry) (userId : string)
    (now c r : Z) :
  JSMap.get attempts userId = Some {| count := c; resetTime := r |} ->
  now <= r ->
  rateLimitByUser maxAttempts windowMs attempts userId now
  = (negb (maxAttempts <? c + 1),
     JSMap.set attempts userId {| count := c + 1; resetTime := r |}).
Proof.
  intros Hget Hle. unfold rateLimitByUser, JSMap.has. rewrite Hget. simpl.
  rewrite Hget. simpl.
  replace (r <? now) with false by (symmetry; apply Z.ltb_ge; lia).
  reflexivity.
Qed.

(** A key seen for the first time. *)
Lemma rateLimitByUser_first
    (maxAttempts windowMs : Z) (attempts : JSMap.t Entry) (userId : string)
    (now : Z) :
  JSMap.get attempts userId = None -> 0 <= windowMs ->
  exists attempts',
    rateLimitByUser maxAttempts windowMs attempts userId now
    = (negb (maxAttempts <? 1), attempts') /\
    JSMap.get attempts' userId
    = Some {| count := 1; resetTime := now + windowMs |} /\
    (forall other, userId <> other ->
                   JSMap.get attempts' other = JSMap.get attempts other).
Proof.
  intros Hget Hw. unfold rateLimitByUser, JSMap.has. rewrite Hget. simpl.
  rewrite get_set_same. simpl.
  replace (now + windowMs <? now) with false by (symmetry; apply Z.ltb_ge; lia).
  eexists. split; [reflexivity|]. split.
  - apply get_set_same.
  - intros other Hne. now rewrite !get_set_other.
Qed.

Lemma requests_open_window (maxAttempts windowMs : Z) (userId : string) :
  forall (times : list Z) (attempts : JSMap.t Entry) (c r : Z),
    JSMap.get attempts userId = Some {| count := c; resetTime := r |} ->
    (forall t, In t times -> t <= r) ->
    fst (requests maxAttempts windowMs attempts userId times)
    = map (fun i => c + Z.of_nat i <=? maxAttempts) (seq 1 (List.length times)) /\
    JSMap.get (snd (requests maxAttempts windowMs attempts userId times)) userId
    = Some {| count := c + Z.of_nat (List.length times); resetTime := r |}.
Proof.
  induction times as [|now times IH]; intros attempts c r Hget Hall.
  - simpl. rewrite Z.add_0_r. split; [reflexivity|exact Hget].
  - cbn [requests].
    rewrite (rateLimitByUser_open_window _ _ _ _ now c r Hget)
      by (apply Hall; now left).
    specialize (IH (JSMap.set attempts userId {| count := c + 1; resetTime := r |})
                   (c + 1) r (get_set_same _ _ _)
                   (fun t Ht => Hall t (or_intror Ht))).
    destruct (requests maxAttempts windowMs _ userId times) as [rest final].
    cbn [fst snd] in *. destruct IH as [IHa IHg]. split.
    + cbn [List.length seq map]. f_equal.
      * rewrite <- Z.leb_antisym. reflexivity.
      * rewrite IHa, <- (seq_shift (List.length times) 1), map_map.
        apply map_ext. intros i.
        f_equal. lia.
    + rewrite IHg. f_equal. f_equal. cbn [List.length]. lia.
Qed.

End RateLimiter.

(** ** Histories of the lockout fields *)

Section LockoutHistory.

Import User.

Lemma consistent_iff (user : Doc) :
  History.consistent user = true <->
  match lockUntil user with
  | None => 0 <= loginAttempts user <= 4
  | Some _ => 5 <= loginAttempts user
  end.
Proof.
  unfold History.consistent. destruct (lockUntil user).
  - apply Z.leb_le.
  - rewrite andb_true_iff, !Z.leb_le. reflexivity.
Qed.

Lemma step_consistent (user : Doc) (e : History.Event) :
  History.consistent user = true ->
  History.consistent (History.step user e) = true.
Proof.
  rewrite !consistent_iff. destruct e as [now|now]; simpl.
  - unfold incLoginAttempts, lockExpired, isLocked.
    destruct (lockUntil user) as [t|]; intros Hc.
    + destruct (t <? now); simpl; [lia|].
      destruct ((5 <=? loginAttempts user + 1) && negb (now <? t)); lia.
    + simpl. rewrite andb_true_r.
      destruct (5 <=? loginAttempts user + 1) eqn:E; simpl.
      * lia.
      * apply Z.leb_gt in E. lia.
  - intros _. lia.
Qed.

Lemma run_consistent (events : list History.Event) :
  forall user, History.consistent user = true ->
               History.consistent (History.run user events) = true.
Proof.
  unfold History.run.
  induction events as [|e events IH]; intros user Hc; simpl; [exact Hc|].
  apply IH, step_consistent, Hc.
Qed.

(** X1.  Whatever failures and successes an account goes through, at
    whatever times, its counter never goes below 0 and it carries a lock
    date exactly when the counter has reached 5. *)
Theorem lock_date_iff_five_failures :
  forall (user : Doc) (events : list History.Event),
    History.consistent user = true ->
    let after := History.run user events in
    0 <= loginAttempts after /\
    (lockUntil after = None <-> loginAttempts after < 5).
Proof.
  intros user events Hc after.
  pose proof (run_consistent events user Hc) as Ha. fold after in Ha.
  apply consistent_iff in Ha.
  destruct (lockUntil after) as [t|].
  - split; [lia|]. split; [discriminate | lia].
  - split; [lia|]. split; [lia | reflexivity].
Qed.

Lemma lock_date_iff_five_failures_witness :
  let after :=
    History.run ScenarioAuth.fresh_user
      [History.Failed 10; History.Failed 20; History.Succeeded 30;
       History.Failed 40; History.Failed 50; History.Failed 60;
       History.Failed 70; History.Failed 80; History.Failed 90] in
  0 <= loginAttempts after /\
  (lockUntil after = None <-> loginAttempts after < 5).
Proof.
  apply (lock_date_iff_five_failures ScenarioAuth.fresh_user).
  reflexivity.
Defined.

Lemma failures_while_locked (t : Z) (times : list Z) :
  forall user,
    lockUntil user = Some t -> (forall now, In now times -> now < t) ->
    lockUntil (History.run user (map History.Failed times)) = Some t /\
    loginAttempts (History.run user (map History.Failed times))
    = loginAttempts user + Z.of_nat (List.length times).
Proof.
  unfold History.run.
  induction times as [|now times IH]; intros user Ht Hall.
  - simpl. split; [exact Ht | lia].
  - cbn [map fold_left History.step].
    assert (Hnow : now < t) by (apply Hall; now left).
    assert (Hstep : incLoginAttempts user now
                    = {| loginAttempts := loginAttempts user + 1;
                         lockUntil := Some t;
                         lastLogin := lastLogin user;
                         stats := stats user |}).
    { unfold incLoginAttempts, lockExpired, isLocked. rewrite Ht.
      replace (t <? now) with false by (symmetry; apply Z.ltb_ge; lia).
      replace (now <? t) with true by (symmetry; apply Z.ltb_lt; lia).
      now rewrite andb_false_r. }
    rewrite Hstep.
    destruct (IH {| loginAttempts := loginAttempts user + 1;
                    lockUntil := Some t;
                    lastLogin := lastLogin user;
                    stats := stats user |} eq_refl
                 (fun n Hn => Hall n (or_intror Hn))) as [IHl IHc].
    split; [exact IHl|]. rewrite IHc. cbn [loginAttempts List.length]. lia.
Qed.

(** X2.  Failures counted while a lock is running never move its end:
    after any number of [incLoginAttempts] before [lockUntil], the lock
    date is the one set at the fifth failure, and the counter has grown by
    the number of calls. *)
Theorem failures_during_lock_do_not_extend_it :
  forall (user : Doc) (t : Z) (times : list Z),
    lockUntil user = Some t -> (forall now, In now times -> now < t) ->
    let after := History.run user (map History.Failed times) in
    lockUntil after = Some t /\
    loginAttempts after = loginAttempts user + Z.of_nat (List.length times).
Proof.
  intros user t times Ht Hall. now apply failures_while_locked.
Qed.

Lemma failures_during_lock_do_not_extend_it_witness :
  let locked :=
    ScenarioAuth.after_five_failures ScenarioAuth.fresh_user 1 2 3 4 5 in
  let after := History.run locked (map History.Failed [100; 7000000; 7200004]) in
  lockUntil after = Some 7200005 /\ loginAttempts after = 5 + 3.
Proof.
  apply (failures_during_lock_do_not_extend_it
           (ScenarioAuth.after_five_failures ScenarioAuth.fresh_user 1 2 3 4 5)
           7200005 [100; 7000000; 7200004]).
  - reflexivity.
  - simpl. intros now [<-|[<-|[<-|[]]]]; lia.
Defined.

(** X3.  The instant [lockUntil] itself belongs to neither side: the
    account is not locked any more ([lockUntil > now] fails), and the lock
    has not expired yet ([lockUntil < now] fails).  A failure counted at
    that instant therefore does not restart the counter: it goes on to 6 or
    more and a new two-hour lock starts at once. *)
Theorem failure_at_the_lock_date_locks_again :
  forall (user : Doc) (t : Z),
    lockUntil user = Some t -> 5 <= loginAttempts user ->
    isLocked user t = false /\
    lockExpired user t = false /\
    loginAttempts (incLoginAttempts user t) = loginAttempts user + 1 /\
    lockUntil (incLoginAttempts user t) = Some (t + 2 * 60 * 60 * 1000).
Proof.
  intros user t Ht Hc.
  unfold incLoginAttempts, isLocked, lockExpired. rewrite Ht, Z.ltb_irrefl.
  cbn [loginAttempts lockUntil negb]. rewrite andb_true_r.
  replace (5 <=? loginAttempts user + 1) with true
    by (symmetry; apply Z.leb_le; lia).
  repeat split.
Qed.

Lemma failure_at_the_lock_date_locks_again_witness :
  let locked :=
    ScenarioAuth.after_five_failures ScenarioAuth.fresh_user 1 2 3 4 5 in
  isLocked locked 7200005 = false /\
  lockExpired locked 7200005 = false /\
  loginAttempts (incLoginAttempts locked 7200005) = loginAttempts locked + 1 /\
  lockUntil (incLoginAttempts locked 7200005) = Some (7200005 + 2 * 60 * 60 * 1000).
Proof.
  apply (failure_at_the_lock_date_locks_again
           (ScenarioAuth.after_five_failures ScenarioAuth.fresh_user 1 2 3 4 5)
           7200005).
  - reflexivity.
  - simpl. lia.
Defined.

(** X4.  After a lock has run out, the failure that clears it counts as
    the first of a new series: the account stays unlocked through the next
    three failures, whenever they come, and the fifth of the series locks
    it for two hours from that moment. *)
Theorem expired_lock_restarts_the_count :
  forall (user : Doc) (t n1 n2 n3 n4 n5 : Z),
    lockUntil user = Some t -> t < n1 ->
    let four := History.run user (map History.Failed [n1; n2; n3; n4]) in
    let five := History.run user (map History.Failed [n1; n2; n3; n4; n5]) in
    loginAttempts four = 4 /\ lockUntil four = None /\
    loginAttempts five = 5 /\ lockUntil five = Some (n5 + 2 * 60 * 60 * 1000).
Proof.
  intros user t n1 n2 n3 n4 n5 Ht Hlt.
  assert (Hfirst : incLoginAttempts user n1
                   = {| loginAttempts := 1; lockUntil := None;
                        lastLogin := lastLogin user; stats := stats user |}).
  { unfold incLoginAttempts, lockExpired. rewrite Ht.
    apply Z.ltb_lt in Hlt. now rewrite Hlt. }
  unfold History.run. cbn [map fold_left History.step]. rewrite Hfirst.
  repeat split.
Qed.

Lemma expired_lock_restarts_the_count_witness :
  let locked :=
    ScenarioAuth.after_five_failures ScenarioAuth.fresh_user 1 2 3 4 5 in
  let four := History.run locked (map History.Failed [7200006; 7200100; 7200200; 7200300]) in
  let five := History.run locked (map History.Failed [7200006; 7200100; 7200200; 7200300; 7200400]) in
  loginAttempts four = 4 /\ lockUntil four = None /\
  loginAttempts five = 5 /\ lockUntil five = Some (7200400 + 2 * 60 * 60 * 1000).
Proof.
  apply (expired_lock_restarts_the_count
           (ScenarioAuth.after_five_failures ScenarioAuth.fresh_user 1 2 3 4 5)
           7200005).
  - reflexivity.
  - lia.
Defined.

End LockoutHistory.

(** ** The login handler over several requests *)

Section LoginHandler.

Import User.

Lemma login_schema_methods (found : option Auth.Account)
    (g : GestureData float) (now : Z) :
  Auth.login Gesture.schema_methods found g now
  = (match found with
     | None => Auth.InvalidCredentials
     | Some acct =>
         if isLocked (Auth.user acct) now then Auth.AccountLocked
         else Auth.ServerError "Gesture validation failed"
     end, found).
Proof.
  unfold Auth.login. destruct found as [acct|]; [|reflexivity].
  destruct (isLocked (Auth.user acct) now); [reflexivity|].
  rewrite validateGesture_schema_methods. now destruct acct.
Qed.

(** X5.  With the methods Gesture.js defines, no series of login requests
    ever changes the stored account, and none is answered 'Login
    successful' or 'Invalid gesture': an unknown identifier gets 'Invalid
    credentials', a locked account the lock message, and every other
    request the server error of the failed validation.  The failed-login
    counter therefore never moves. *)
Theorem login_on_schema_methods_never_counts :
  forall (found : option Auth.Account) (attempts : list (GestureData float * Z)),
    ScenarioAuth.replay Gesture.schema_methods found attempts
    = (map (fun attempt : GestureData float * Z =>
              match found with
              | None => Auth.InvalidCredentials
              | Some acct =>
                  if isLocked (Auth.user acct) (snd attempt)
                  then Auth.AccountLocked
                  else Auth.ServerError "Gesture validation failed"
              end) attempts,
       found).
Proof.
  intros found attempts. induction attempts as [|[g t] attempts IH].
  - reflexivity.
  - cbn [ScenarioAuth.replay map snd]. rewrite login_schema_methods, IH.
    reflexivity.
Qed.

(** What an 'Invalid gesture' answer tells about its [attemptsRemaining]. *)
Lemma login_invalid_gesture_remaining
    (methods : Gesture.Methods) (acct acct' : Auth.Account)
    (g : GestureData float) (now remaining : Z) :
  Auth.login methods (Some acct) g now
  = (Auth.InvalidGesture remaining, Some acct') ->
  isLocked (Auth.user acct) now = false /\
  remaining = Z.max 0 (5 - loginAttempts (Auth.user acct) - 1) /\
  Auth.user acct' = incLoginAttempts (Auth.user acct) now.
Proof.
  unfold Auth.login. destruct (isLocked (Auth.user acct) now); [discriminate|].
  destruct (Gesture.validateGesture methods _ g now) as [[v|message] gesture'];
    [|discriminate].
  destruct (Gesture.success v); simpl; intros Heq; inversion Heq.
  repeat split.
Qed.

(** X6.  The [attemptsRemaining] of an 'Invalid gesture' answer, on an
    account whose counter and lock date agree.  It lies between 0 and 4.
    A positive value is exact: the account is left unlocked with
    [5 - attemptsRemaining] failures counted.  A value of 0 means the
    account has just been locked for two hours, unless an expired lock was
    still stored: then the answer is 0 as well, although the counter has
    just restarted at 1 and the account is left unlocked. *)
Theorem attemptsRemaining_and_the_counter :
  forall (methods : Gesture.Methods) (acct acct' : Auth.Account)
         (g : GestureData float) (now remaining : Z),
    History.consistent (Auth.user acct) = true ->
    Auth.login methods (Some acct) g now
    = (Auth.InvalidGesture remaining, Some acct') ->
    0 <= remaining <= 4 /\
    (0 < remaining ->
     lockUntil (Auth.user acct') = None /\
     loginAttempts (Auth.user acct') = 5 - remaining) /\
    (remaining = 0 -> lockExpired (Auth.user acct) now = false ->
     lockUntil (Auth.user acct') = Some (now + 2 * 60 * 60 * 1000)) /\
    (lockExpired (Auth.user acct) now = true ->
     remaining = 0 /\
     lockUntil (Auth.user acct') = None /\
     loginAttempts (Auth.user acct') = 1).
Proof.
  intros methods acct acct' g now remaining Hc Hlogin.
  destruct (login_invalid_gesture_remaining _ _ _ _ _ _ Hlogin)
    as (Hl & -> & ->).
  apply consistent_iff in Hc.
  unfold incLoginAttempts, lockExpired, isLocked in *.
  destruct (lockUntil (Auth.user acct)) as [t|] eqn:Ht.
  - destruct (t <? now) eqn:He; cbn [loginAttempts lockUntil].
    + repeat split; try lia; discriminate.
    + rewrite Hl. cbn [negb]. rewrite andb_true_r.
      replace (5 <=? loginAttempts (Auth.user acct) + 1) with true
        by (symmetry; apply Z.leb_le; lia).
      repeat split; try lia; discriminate.
  - cbn [loginAttempts lockUntil negb]. rewrite andb_true_r.
    destruct (5 <=? loginAttempts (Auth.user acct) + 1) eqn:E.
    + apply Z.leb_le in E. repeat split; try lia; discriminate.
    + apply Z.leb_gt in E. repeat split; try lia; discriminate.
Qed.

Lemma attemptsRemaining_and_the_counter_witness :
  let acct' :=
    {| Auth.user := incLoginAttempts ScenarioAuth.fresh_user 50;
       Auth.gesturePassword :=
         snd (Gesture.validateGesture ScenarioAuth.methods_with_helpers
                Scenario.template Scenario.displaced 50) |} in
  0 <= 4 <= 4 /\
  (0 < 4 ->
   lockUntil (Auth.user acct') = None /\
   loginAttempts (Auth.user acct') = 5 - 4) /\
  (4 = 0 -> lockExpired (Auth.user ScenarioAuth.account) 50 = false ->
   lockUntil (Auth.user acct') = Some (50 + 2 * 60 * 60 * 1000)) /\
  (lockExpired (Auth.user ScenarioAuth.account) 50 = true ->
   4 = 0 /\
   lockUntil (Auth.user acct') = None /\
   loginAttempts (Auth.user acct') = 1).
Proof.
  intros acct'.
  apply (attemptsRemaining_and_the_counter ScenarioAuth.methods_with_helpers
           ScenarioAuth.account acct' Scenario.displaced 50 4).
  - reflexivity.
  - vm_compute. reflexivity.
Defined.

(** X7.  The login streak never moves.  The handler stamps
    [stats.lastLoginDate] with the current date before it reads it back as
    the date of the last login, so the difference in days is 0 and
    [streakDays] is left as it was, whenever the user logged in before:
    the day before, a month before, or never. *)
Theorem login_streak_never_changes :
  forall (stats_lastLoginDate : option Z) (streakDays now today : Z),
    now <= today < now + 1000 * 60 * 60 * 24 ->
    LoginStreak.update stats_lastLoginDate streakDays now today = streakDays.
Proof.
  intros previous streakDays now today Hday. unfold LoginStreak.update.
  replace ((today - now) / (1000 * 60 * 60 * 24)) with 0
    by (symmetry; apply Z.div_small; lia).
  reflexivity.
Qed.

Lemma login_streak_never_changes_witness :
  LoginStreak.update (Some 0) 3 86400000 86400002 = 3.
Proof.
  apply (login_streak_never_changes (Some 0) 3 86400000 86400002). lia.
Defined.

End LoginHandler.

(** ** The rate limiter of the login route *)

Section RateLimiterProperties.

Import RateLimit.

Lemma requests_fresh (maxAttempts windowMs : Z) (attempts : JSMap.t Entry)
    (userId : string) (t0 : Z) (times : list Z) :
  JSMap.get attempts userId = None -> 0 <= windowMs ->
  (forall t, In t times -> t <= t0 + windowMs) ->
  fst (requests maxAttempts windowMs attempts userId (t0 :: times))
  = map (fun i => Z.of_nat i <=? maxAttempts) (seq 1 (S (List.length times))) /\
  JSMap.get (snd (requests maxAttempts windowMs attempts userId (t0 :: times)))
            userId
  = Some {| count := 1 + Z.of_nat (List.length times);
            resetTime := t0 + windowMs |}.
Proof.
  intros Hget Hw Hall. cbn [requests].
  destruct (rateLimitByUser_first maxAttempts windowMs attempts userId t0 Hget Hw)
    as (attempts' & -> & Hget' & _).
  destruct (requests_open_window maxAttempts windowMs userId times attempts'
              1 (t0 + windowMs) Hget' Hall) as [Ha Hg].
  destruct (requests maxAttempts windowMs attempts' userId times) as [rest final].
  cbn [fst snd] in *. split; [|exact Hg].
  cbn [seq map]. f_equal.
  - rewrite <- Z.leb_antisym. reflexivity.
  - rewrite Ha, <- (seq_shift (List.length times) 1), map_map.
    apply map_ext. intros i. f_equal. lia.
Qed.

(** X8.  Within one window the limiter lets exactly the first
    [maxAttempts] requests of a key through: of the requests of a new key
    that arrive no later than [windowMs] after its first one, the i-th is
    passed on if and only if [i <= maxAttempts], whatever the order of
    their times. *)
Theorem rateLimitByUser_passes_the_first_maxAttempts :
  forall (maxAttempts windowMs : Z) (attempts : JSMap.t Entry)
         (userId : string) (t0 : Z) (times : list Z),
    JSMap.get attempts userId = None -> 0 <= windowMs ->
    (forall t, In t times -> t <= t0 + windowMs) ->
    fst (requests maxAttempts windowMs attempts userId (t0 :: times))
    = map (fun i => Z.of_nat i <=? maxAttempts)
          (seq 1 (S (List.length times))).
Proof.
  intros maxAttempts windowMs attempts userId t0 times Hget Hw Hall.
  now apply requests_fresh.
Qed.

Lemma rateLimitByUser_passes_the_first_maxAttempts_witness :
  fst (requests 5 900000 [] "203.0.113.7" [1000; 1001; 500000; 2000; 900000;
                                            900999; 901000])
  = [true; true; true; true; true; false; false].
Proof.
  apply (rateLimitByUser_passes_the_first_maxAttempts 5 900000 [] "203.0.113.7"
           1000 [1001; 500000; 2000; 900000; 900999; 901000]).
  - reflexivity.
  - lia.
  - simpl. intros t [<-|[<-|[<-|[<-|[<-|[<-|[]]]]]]]; lia.
Defined.

(** X9.  Requests that are turned away do not push the window: however
    many requests of a key arrive within [windowMs] of its first one, the
    first request after that moment is let through and opens a window of
    its own, with the count back at 1. *)
Theorem rateLimitByUser_reopens_after_the_window :
  forall (maxAttempts windowMs : Z) (attempts : JSMap.t Entry)
         (userId : string) (t0 : Z) (times : list Z) (now : Z),
    JSMap.get attempts userId = None -> 0 <= windowMs -> 1 <= maxAttempts ->
    (forall t, In t times -> t <= t0 + windowMs) ->
    t0 + windowMs < now ->
    let table := snd (requests maxAttempts windowMs attempts userId (t0 :: times)) in
    fst (rateLimitByUser maxAttempts windowMs table userId now) = true /\
    JSMap.get (snd (rateLimitByUser maxAttempts windowMs table userId now)) userId
    = Some {| count := 1; resetTime := now + windowMs |}.
Proof.
  intros maxAttempts windowMs attempts userId t0 times now Hget Hw Hmax Hall Hlate
         table.
  destruct (requests_fresh maxAttempts windowMs attempts userId t0 times
              Hget Hw Hall) as [_ Hentry].
  fold table in Hentry.
  unfold rateLimitByUser, JSMap.has. rewrite Hentry.
  cbn [negb fst snd]. rewrite Hentry. cbn [resetTime count].
  replace (t0 + windowMs <? now) with true by (symmetry; apply Z.ltb_lt; lia).
  cbn [resetTime count]. split.
  - replace (maxAttempts <? 0 + 1) with false by (symmetry; apply Z.ltb_ge; lia).
    reflexivity.
  - apply get_set_same.
Qed.

Lemma rateLimitByUser_reopens_after_the_window_witness :
  let table := snd (requests 5 900000 [] "203.0.113.7"
                      [0; 1; 2; 3; 4; 5; 6; 7]) in
  fst (rateLimitByUser 5 900000 table "203.0.113.7" 900001) = true /\
  JSMap.get (snd (rateLimitByUser 5 900000 table "203.0.113.7" 900001))
            "203.0.113.7"
  = Some {| count := 1; resetTime := 900001 + 900000 |}.
Proof.
  apply (rateLimitByUser_reopens_after_the_window 5 900000 [] "203.0.113.7"
           0 [1; 2; 3; 4; 5; 6; 7] 900001).
  - reflexivity.
  - lia.
  - lia.
  - simpl. intros t [<-|[<-|[<-|[<-|[<-|[<-|[<-|[]]]]]]]]; lia.
  - lia.
Defined.

Lemma rateLimitByUser_get_other (maxAttempts windowMs : Z)
    (attempts : JSMap.t Entry) (userId other : string) (now : Z) :
  userId <> other ->
  JSMap.get (snd (rateLimitByUser maxAttempts windowMs attempts userId now)) other
  = JSMap.get attempts other.
Proof.
  intros Hne. unfold rateLimitByUser. cbn [snd].
  rewrite get_set_other by exact Hne.
  destruct (negb (JSMap.has attempts userId)); [|reflexivity].
  now apply get_set_other.
Qed.

Lemma rateLimitByUser_answer_from_entry (maxAttempts windowMs : Z)
    (a b : JSMap.t Entry) (userId : string) (now : Z) :
  JSMap.get a userId = JSMap.get b userId ->
  fst (rateLimitByUser maxAttempts windowMs a userId now)
  = fst (rateLimitByUser maxAttempts windowMs b userId now).
Proof.
  intros Heq. unfold rateLimitByUser, JSMap.has. cbn [fst]. rewrite <- Heq.
  destruct (JSMap.get a userId) as [entry|] eqn:Ha; cbn [negb].
  - now rewrite <- Heq, Ha.
  - now rewrite !get_set_same.
Qed.

(** X10.  Keys do not interfere: the requests of one key change neither
    the entry of another key nor the answer the other key gets next. *)
Theorem rateLimitByUser_keys_are_independent :
  forall (maxAttempts windowMs : Z) (attempts : JSMap.t Entry)
         (userId other : string) (times : list Z) (now : Z),
    userId <> other ->
    let table := snd (requests maxAttempts windowMs attempts userId times) in
    JSMap.get table other = JSMap.get attempts other /\
    fst (rateLimitByUser maxAttempts windowMs table other now)
    = fst (rateLimitByUser maxAttempts windowMs attempts other now).
Proof.
  intros maxAttempts windowMs attempts userId other times now Hne table.
  assert (Hget : JSMap.get table other = JSMap.get attempts other).
  { subst table. revert attempts.
    induction times as [|t times IH]; intros attempts; [reflexivity|].
    cbn [requests].
    pose proof (rateLimitByUser_get_other maxAttempts windowMs attempts
                  userId other t Hne) as Hstep.
    destruct (rateLimitByUser maxAttempts windowMs attempts userId t)
      as [passed attempts'].
    specialize (IH attempts').
    destruct (requests maxAttempts windowMs attempts' userId times)
      as [rest final].
    cbn [snd] in *. now rewrite IH. }
  split; [exact Hget|]. now apply rateLimitByUser_answer_from_entry.
Qed.

Lemma rateLimitByUser_keys_are_independent_witness :
  let table := snd (requests 5 900000 [] "203.0.113.7" [0; 1; 2; 3; 4; 5; 6]) in
  JSMap.get table "198.51.100.2" = JSMap.get [] "198.51.100.2" /\
  fst (rateLimitByUser 5 900000 table "198.51.100.2" 7)
  = fst (rateLimitByUser 5 900000 [] "198.51.100.2" 7).
Proof.
  apply (rateLimitByUser_keys_are_independent 5 900000 [] "203.0.113.7"
           "198.51.100.2" [0; 1; 2; 3; 4; 5; 6] 7).
  discriminate.
Defined.

(** X11.  On the login route the limiter comes before the handler: once
    an address has sent five requests within fifteen minutes, every further
    request in that window is answered 429 without the handler being run,
    whatever account and gesture it names, so the account is neither
    matched nor counted against. *)
Theorem login_route_sixth_request_is_turned_away :
  forall (methods : Gesture.Methods) (attempts : JSMap.t Entry) (ip : string)
         (t0 : Z) (times : list Z) (now : Z)
         (found : option Auth.Account) (gestureData : GestureData float),
    JSMap.get attempts ip = None ->
    (4 <= List.length times)%nat ->
    (forall t, In t times -> t <= t0 + 15 * 60 * 1000) ->
    now <= t0 + 15 * 60 * 1000 ->
    let table := snd (requests 5 (15 * 60 * 1000) attempts ip (t0 :: times)) in
    fst (fst (loginRoute methods table ip found gestureData now)) = TooManyRequests /\
    snd (loginRoute methods table ip found gestureData now) = found.
Proof.
  intros methods attempts ip t0 times now found gestureData Hget Hlen Hall Hnow
         table.
  destruct (requests_fresh 5 (15 * 60 * 1000) attempts ip t0 times Hget
              ltac:(lia) Hall) as [_ Hentry].
  fold table in Hentry. unfold loginRoute.
  rewrite (rateLimitByUser_open_window 5 (15 * 60 * 1000) table ip now _ _
             Hentry Hnow).
  replace (5 <? 1 + Z.of_nat (List.length times) + 1) with true
    by (symmetry; apply Z.ltb_lt; lia).
  split; reflexivity.
Qed.

Lemma login_route_sixth_request_is_turned_away_witness :
  let table := snd (requests 5 (15 * 60 * 1000) [] "203.0.113.7"
                      [0; 1000; 2000; 3000; 4000]) in
  fst (fst (loginRoute ScenarioAuth.methods_with_helpers table "203.0.113.7"
              (Some ScenarioAuth.account) Scenario.stored 5000))
  = TooManyRequests /\
  snd (loginRoute ScenarioAuth.methods_with_helpers table "203.0.113.7"
         (Some ScenarioAuth.account) Scenario.stored 5000)
  = Some ScenarioAuth.account.
Proof.
  apply (login_route_sixth_request_is_turned_away
           ScenarioAuth.methods_with_helpers [] "203.0.113.7" 0
           [1000; 2000; 3000; 4000] 5000).
  - reflexivity.
  - simpl. lia.
  - simpl. intros t [<-|[<-|[<-|[<-|[]]]]]; lia.
  - lia.
Defined.

End RateLimiterProperties.

(** ** Numbers: NaN, differences of equal values, order *)

Section NumberFacts.

Local Open Scope float_scope.
Import Binary64.

Lemma is_nan_Prim2SF (v : float) : is_nan v = true -> Prim2SF v = S754_nan.
Proof.
  intros Hn. destruct (Prim2SF v) as [s|s| |s m e] eqn:E; try reflexivity;
    rewrite is_nan_false in Hn; try discriminate; rewrite E; discriminate.
Qed.

Lemma Prim2SF_is_nan (v : float) : Prim2SF v = S754_nan -> is_nan v = true.
Proof. intros Hv. unfold is_nan. now rewrite eqb_spec, Hv. Qed.

Lemma binary_round_opp (s : bool) (m : positive) (e : Z) :
  binary_round prec emax (negb s) m e = SFopp (binary_round prec emax s m e).
Proof.
  unfold binary_round. destruct (shl_align _ _ _) as [mz ez].
  unfold binary_round_aux.
  destruct (shr_fexp prec emax (Z.pos mz) ez loc_Exact) as [mrs' e'].
  destruct (shr_fexp prec emax _ e' loc_Exact) as [mrs'' e''].
  destruct (shr_m mrs''); [reflexivity| |reflexivity].
  destruct (e'' <=? emax - prec)%Z; reflexivity.
Qed.

(** A Number minus itself is +0, or NaN when it is NaN or infinite. *)
Lemma SF64sub_diag (v : spec_float) :
  SF64sub v v = S754_zero false \/ SF64sub v v = S754_nan.
Proof.
  destruct v as [s|s| |s m e]; simpl.
  - left. now destruct s.
  - right. now destruct s.
  - now right.
  - left. now rewrite Z.sub_diag.
Qed.

(** Swapping the operands of a subtraction changes the sign of the
    result, a zero result apart. *)
Lemma SF64sub_swap (a b : spec_float) :
  SF64sub b a = SFopp (SF64sub a b) \/
  (exists s s', SF64sub a b = S754_zero s /\ SF64sub b a = S754_zero s').
Proof.
  destruct a as [sa|sa| |sa ma ea], b as [sb|sb| |sb mb eb]; simpl;
    try (left; reflexivity);
    try (left; now rewrite negb_involutive);
    try (left; destruct sa, sb; reflexivity).
  - right. destruct sa, sb; eauto.
  - rewrite (Z.min_comm eb ea).
    set (A := cond_Zopp sa _). set (B := cond_Zopp sb _).
    replace (B - A)%Z with (- (A - B))%Z by lia.
    destruct (A - B)%Z as [|p|p]; simpl.
    + right. eauto.
    + left. apply (binary_round_opp false).
    + left. apply (binary_round_opp true).
Qed.

Lemma SF64mul_opp_opp (v : spec_float) :
  SF64mul (SFopp v) (SFopp v) = SF64mul v v.
Proof. destruct v as [s|s| |s m e]; simpl; try reflexivity; now destruct s. Qed.

(** The square of a difference does not depend on the order of the
    operands. *)
Lemma pow2_sub_swap (a b : float) : Math_pow2 (a - b) = Math_pow2 (b - a).
Proof.
  apply Prim2SF_inj. unfold Math_pow2. cbn [mul FloatArith].
  rewrite !mul_spec, !sub_spec.
  destruct (SF64sub_swap (Prim2SF a) (Prim2SF b)) as [->|(s & s' & -> & ->)].
  - now rewrite SF64mul_opp_opp.
  - simpl. now destruct s, s'.
Qed.

Lemma SFcompare_antisym (a b : spec_float) :
  SFcompare b a = option_map CompOpp (SFcompare a b).
Proof.
  destruct a as [sa|sa| |sa ma ea], b as [sb|sb| |sb mb eb]; simpl;
    try reflexivity;
    try (now destruct sa); try (now destruct sb); try (now destruct sa, sb).
  rewrite (Z.compare_antisym ea eb).
  destruct sa, sb; simpl; try reflexivity;
    destruct (ea ?= eb)%Z; simpl; try reflexivity.
  - now rewrite CompOpp_involutive, Pos.compare_cont_antisym.
  - now rewrite Pos.compare_cont_antisym.
Qed.

Lemma is_nan_notnan (v : float) : is_nan v = false -> notnan (Prim2SF v).
Proof.
  intros Hn E. rewrite (Prim2SF_is_nan v E) in Hn. discriminate.
Qed.

Lemma SFcompare_some (a b : spec_float) :
  notnan a -> notnan b -> exists c, SFcompare a b = Some c.
Proof.
  destruct a as [sa|sa| |sa ma ea], b as [sb|sb| |sb mb eb]; simpl;
    intros Ha Hb; try (now elim Ha); try (now elim Hb); eauto.
Qed.

(** A Number that is not NaN and not above [b] is at most [b]. *)
Lemma leb_of_not_gt (a b : float) :
  is_nan a = false -> is_nan b = false -> (b <? a) = false -> (a <=? b) = true.
Proof.
  intros Ha Hb. apply is_nan_notnan in Ha, Hb.
  rewrite ltb_spec, leb_spec. unfold SFltb, SFleb.
  rewrite (SFcompare_antisym (Prim2SF a) (Prim2SF b)).
  destruct (SFcompare_some _ _ Ha Hb) as [c ->].
  destruct c; simpl; congruence.
Qed.

Lemma leb_of_lt (a b : float) : (a <? b) = true -> (a <=? b) = true.
Proof.
  rewrite ltb_spec, leb_spec. unfold SFltb, SFleb.
  destruct (SFcompare (Prim2SF a) (Prim2SF b)) as [[| |]|]; congruence.
Qed.

(** [Math.max(0, Math.min(1, c))]: NaN for NaN, a Number of [0, 1]
    otherwise. *)
Lemma clamp_0_1 (c : float) :
  (is_nan c = true /\ is_nan (JS.max 0 (JS.min 1 c)) = true) \/
  (is_nan c = false /\
   (0 <=? JS.max 0 (JS.min 1 c)) = true /\ (JS.max 0 (JS.min 1 c) <=? 1) = true).
Proof.
  destruct (is_nan c) eqn:Hn.
  - left. split; [reflexivity|]. unfold JS.min. rewrite Hn. reflexivity.
  - right. split; [reflexivity|].
    assert (Hmin : JS.min 1 c = if 1 <? c then 1 else c).
    { unfold JS.min. rewrite Hn. change (is_nan 1) with false. cbn [orb].
      destruct (1 <? c); [reflexivity|].
      destruct (c <? 1); reflexivity. }
    rewrite Hmin.
    destruct (1 <? c) eqn:H1.
    + split; reflexivity.
    + assert (Hmax : JS.max 0 c = if 0 <? c then c else 0).
      { unfold JS.max. rewrite Hn. change (is_nan 0) with false. cbn [orb].
        destruct (0 <? c); [reflexivity|].
        destruct (c <? 0); reflexivity. }
      rewrite Hmax. destruct (0 <? c) eqn:H0.
      * split; [now apply leb_of_lt | now apply leb_of_not_gt].
      * split; reflexivity.
Qed.

End NumberFacts.

(** ** More on the matcher *)

Section MatcherProperties.

Local Open Scope float_scope.
Import Gesture Binary64.

Lemma distance3D_swap (a b : Position float) : distance3D a b = distance3D b a.
Proof.
  unfold distance3D. cbn [Math_sqrt add sub FloatArith].
  now rewrite (pow2_sub_swap (x a) (x b)), (pow2_sub_swap (y a) (y b)),
              (pow2_sub_swap (z a) (z b)).
Qed.

Lemma comparePositions_loop_swap (tol : float) :
  forall stored input,
    comparePositions_loop tol stored input = comparePositions_loop tol input stored.
Proof.
  induction stored as [|s stored IH]; intros [|l input]; simpl; try reflexivity.
  rewrite (distance3D_swap l s), IH. reflexivity.
Qed.

Lemma pow2_diag (v : float) :
  Prim2SF (Math_pow2 (v - v)) = S754_zero false \/
  Prim2SF (Math_pow2 (v - v)) = S754_nan.
Proof.
  unfold Math_pow2. cbn [mul FloatArith]. rewrite mul_spec, sub_spec.
  destruct (SF64sub_diag (Prim2SF v)) as [-> | ->]; [now left | now right].
Qed.

Lemma add_zero_or_nan (a b : float) :
  Prim2SF a = S754_zero false \/ Prim2SF a = S754_nan ->
  Prim2SF b = S754_zero false \/ Prim2SF b = S754_nan ->
  Prim2SF (a + b) = S754_zero false \/ Prim2SF (a + b) = S754_nan.
Proof.
  rewrite add_spec. intros [-> | ->] [-> | ->]; simpl; auto.
Qed.

Lemma distance3D_diag (p : Position float) :
  Prim2SF (distance3D p p) = S754_zero false \/
  Prim2SF (distance3D p p) = S754_nan.
Proof.
  unfold distance3D. cbn [Math_sqrt add sub FloatArith]. rewrite sqrt_spec.
  destruct (add_zero_or_nan _ _
              (add_zero_or_nan _ _ (pow2_diag (x p)) (pow2_diag (y p)))
              (pow2_diag (z p))) as [-> | ->]; [now left | now right].
Qed.

Lemma relativeDiff_diag (s : float) :
  (exists sz, Prim2SF (relativeDiff s s) = S754_zero sz) \/
  Prim2SF (relativeDiff s s) = S754_nan.
Proof.
  unfold relativeDiff. rewrite div_spec, abs_spec, sub_spec.
  destruct (Prim2SF s) as [sg|sg| |sg m e]; simpl; eauto.
  - right. now destruct sg.
  - right. now destruct sg.
  - left. rewrite Z.sub_diag. simpl. eauto.
Qed.

(** A zero is above no tolerance that is not negative. *)
Lemma gt_zero (v tol : float) (sz : bool) :
  Prim2SF v = S754_zero sz -> (tol <? 0) = false -> JS.gt v tol = false.
Proof.
  intros Hv. unfold JS.gt. rewrite !ltb_spec, Hv.
  change (Prim2SF 0) with (S754_zero false).
  destruct (Prim2SF tol) as [st|st| |st mt et]; simpl; auto.
Qed.

Lemma nth_error_same {A : Type} (l : list A) (i : nat) (a b : A) :
  nth_error l i = Some a -> nth_error l i = Some b -> a = b.
Proof. congruence. Qed.

(** X12.  A sample always matches itself: for every tolerance that is
    not negative, whatever the positions and timestamps are (zeros,
    infinities and NaN included), both matches of a sample against itself
    succeed; so on a schema that has the two confidence helpers, the
    enrolled sample validates with [success] true. *)
Theorem sample_matches_itself :
  forall (this : Doc) (g : GestureData float),
    (tol_position (tolerance this) <? 0) = false ->
    (tol_timing (tolerance this) <? 0) = false ->
    comparePositions this (positions g) (positions g) = true /\
    compareTiming this (timing g) (timing g) = true /\
    (forall posConf timeConf now,
        gestureData this = Some g ->
        exists v this',
          validateGesture {| calculatePositionConfidence := Some posConf;
                             calculateTimingConfidence := Some timeConf |}
                          this g now = (Ok v, this') /\
          success v = true).
Proof.
  intros this g Hp Ht.
  assert (Hpos : comparePositions this (positions g) (positions g) = true).
  { apply comparePositions_loop_true_iff. intros i s l Hs Hl.
    rewrite (nth_error_same _ _ _ _ Hs Hl).
    destruct (distance3D_diag l) as [Hz|Hn].
    - now apply (gt_zero _ _ false).
    - now apply gt_nan. }
  assert (Htim : compareTiming this (timing g) (timing g) = true).
  { apply compareTiming_loop_true_iff. intros i s l Hs Hl.
    rewrite (nth_error_same _ _ _ _ Hs Hl).
    destruct (relativeDiff_diag l) as [[sz Hz]|Hn].
    - now apply (gt_zero _ _ sz).
    - now apply gt_nan. }
  split; [exact Hpos|]. split; [exact Htim|].
  intros posConf timeConf now Hg.
  destruct (validateGesture_with_helpers posConf timeConf this g g now Hg)
    as (v & this' & Hv & Hs & _).
  exists v, this'. split; [exact Hv|]. now rewrite Hs, Hpos, Htim.
Qed.

Lemma sample_matches_itself_witness :
  comparePositions Scenario.template
    (positions ScenarioAuth.evenly_spaced) (positions ScenarioAuth.evenly_spaced)
  = true /\
  compareTiming Scenario.template
    (timing ScenarioAuth.evenly_spaced) (timing ScenarioAuth.evenly_spaced)
  = true.
Proof.
  destruct (sample_matches_itself Scenario.template ScenarioAuth.evenly_spaced)
    as (Hp & Ht & _); [reflexivity | reflexivity |].
  split; assumption.
Defined.

Lemma SF64sub_nan_r (a : spec_float) : SF64sub a S754_nan = S754_nan.
Proof. now destruct a. Qed.

Lemma SF64add_nan_r (a : spec_float) : SF64add a S754_nan = S754_nan.
Proof. now destruct a. Qed.

Lemma distance3D_nan_input (s l : Position float) :
  has_nan_coordinate l = true ->
  Prim2SF (distance3D s l) = S754_nan.
Proof.
  intros H. unfold distance3D, Math_pow2. cbn [Math_sqrt add sub mul FloatArith].
  rewrite sqrt_spec, !add_spec, !mul_spec, !sub_spec.
  apply orb_prop in H. destruct H as [H|H]; [apply orb_prop in H; destruct H as [H|H]|];
    rewrite (is_nan_Prim2SF _ H), SF64sub_nan_r.
  - reflexivity.
  - change (SF64mul S754_nan S754_nan) with S754_nan.
    now rewrite SF64add_nan_r.
  - change (SF64mul S754_nan S754_nan) with S754_nan.
    now rewrite SF64add_nan_r.
Qed.

Lemma relativeDiff_nan_input (s l : float) :
  is_nan l = true -> Prim2SF (relativeDiff s l) = S754_nan.
Proof.
  intros H. unfold relativeDiff. rewrite div_spec, abs_spec, sub_spec.
  rewrite (is_nan_Prim2SF _ H). now destruct (Prim2SF s).
Qed.

(** X13.  A live sample made of values that are not numbers passes both
    matches against every template, under every tolerance: a position
    with a NaN coordinate is at distance NaN from anything, a NaN
    timestamp differs by NaN, and NaN exceeds no tolerance.  On a schema
    that has the two confidence helpers, such a sample validates with
    [success] true, and the login handler answers 'Login successful' to it
    on every account that is not locked. *)
Theorem nan_sample_passes_both_matches :
  forall (this : Doc) (stored live : GestureData float),
    (forall p, In p (positions live) -> has_nan_coordinate p = true) ->
    (forall t, In t (timing live) -> is_nan t = true) ->
    comparePositions this (positions stored) (positions live) = true /\
    compareTiming this (timing stored) (timing live) = true /\
    (forall posConf timeConf user now,
        gestureData this = Some stored ->
        User.isLocked user now = false ->
        let methods := {| calculatePositionConfidence := Some posConf;
                          calculateTimingConfidence := Some timeConf |} in
        (exists v this',
            validateGesture methods this live now = (Ok v, this') /\
            success v = true) /\
        (exists c acct',
            Auth.login methods
              (Some {| Auth.user := user; Auth.gesturePassword := this |})
              live now
            = (Auth.LoginSuccessful c, Some acct'))).
Proof.
  intros this stored live Hp Ht.
  assert (Hpos : comparePositions this (positions stored) (positions live) = true).
  { apply comparePositions_loop_true_iff. intros i s l Hs Hl.
    apply gt_nan, distance3D_nan_input, Hp. eapply nth_error_In, Hl. }
  assert (Htim : compareTiming this (timing stored) (timing live) = true).
  { apply compareTiming_loop_true_iff. intros i s l Hs Hl.
    apply gt_nan, relativeDiff_nan_input, Ht. eapply nth_error_In, Hl. }
  split; [exact Hpos|]. split; [exact Htim|].
  intros posConf timeConf user now Hg Hl methods.
  destruct (validateGesture_with_helpers posConf timeConf this stored live now Hg)
    as (v & this' & Hv & Hs & _).
  fold methods in Hv.
  assert (Hsucc : success v = true) by now rewrite Hs, Hpos, Htim.
  split; [now exists v, this'|].
  unfold Auth.login. cbn [Auth.user Auth.gesturePassword].
  rewrite Hl, Hv, Hsucc. cbn [negb]. eauto.
Qed.

Lemma nan_sample_passes_both_matches_witness :
  let live :=
    {| positions := [Scenario.pos nan 0 0; Scenario.pos 7 nan 0;
                     Scenario.pos 7 7 nan];
       timing := [nan; nan; nan] |} in
  comparePositions Scenario.template (positions Scenario.stored) (positions live)
  = true /\
  compareTiming Scenario.template (timing Scenario.stored) (timing live) = true.
Proof.
  intros live.
  destruct (nan_sample_passes_both_matches Scenario.template Scenario.stored live)
    as (Hp & Ht & _).
  - simpl. intros p [<-|[<-|[<-|[]]]]; reflexivity.
  - simpl. intros t [<-|[<-|[<-|[]]]]; reflexivity.
  - split; assumption.
Defined.

(** X14.  The position match does not depend on which sample is the
    stored one: swapping template and live sample gives the same answer.
    The timing match does: the difference is taken relative to the stored
    timestamp, so 124 against a stored 100 fails a tolerance of 0.2 while
    100 against a stored 124 passes it. *)
Theorem comparePositions_symmetric_compareTiming_not :
  (forall (this : Doc) (stored live : list (Position float)),
      comparePositions this stored live = comparePositions this live stored) /\
  compareTiming Scenario.template [100] [124] = false /\
  compareTiming Scenario.template [124] [100] = true.
Proof.
  split; [|split; reflexivity].
  intros this stored live. apply comparePositions_loop_swap.
Qed.

(** X15.  [validateGesture] never writes [averageConfidence], the
    stored sample or the tolerances, and it keeps the three attempt
    counters in step: if the total was the sum of the successful and the
    failed attempts before the call, it is afterwards, whether the call
    returns or throws, and for every set of schema methods. *)
Theorem validateGesture_keeps_counters_in_step :
  forall (methods : Methods) (this : Doc) (g : GestureData float) (now : Z),
    let this' := snd (validateGesture methods this g now) in
    averageConfidence (usageStats this') = averageConfidence (usageStats this) /\
    gestureData this' = gestureData this /\
    tolerance this' = tolerance this /\
    (totalAttempts (usageStats this)
     = successfulAttempts (usageStats this) + failedAttempts (usageStats this) ->
     totalAttempts (usageStats this')
     = successfulAttempts (usageStats this') + failedAttempts (usageStats this'))%Z.
Proof.
  intros methods this g now. unfold validateGesture.
  destruct (decryptGestureData this) as [storedGesture|message];
    [|cbn [snd]; auto].
  destruct (calculateConfidence methods storedGesture g) as [c|message];
    cbn [snd usageStats gestureData tolerance]; [|auto].
  unfold record_attempt.
  cbn [averageConfidence totalAttempts successfulAttempts failedAttempts].
  repeat split.
  destruct (comparePositions this _ _ && compareTiming this _ _); lia.
Qed.

Lemma validateGesture_keeps_counters_in_step_witness :
  let this' := snd (validateGesture ScenarioAuth.methods_with_helpers
                      Scenario.template Scenario.displaced 50) in
  (totalAttempts (usageStats this')
   = successfulAttempts (usageStats this') + failedAttempts (usageStats this'))%Z.
Proof.
  intros this'.
  destruct (validateGesture_keeps_counters_in_step
              ScenarioAuth.methods_with_helpers Scenario.template
              Scenario.displaced 50) as (_ & _ & _ & Hstep).
  apply Hstep. reflexivity.
Defined.

(** X16.  The confidence [validateGesture] reports is clamped: whatever
    the two helpers return, [calculateConfidence] gives a Number between 0
    and 1, or NaN, and NaN only when the mean of the two helper values is
    NaN. *)
Theorem calculateConfidence_is_clamped :
  forall (methods : Methods) (stored input : GestureData float) (c : float),
    calculateConfidence methods stored input = Ok c ->
    exists posConf timeConf,
      calculatePositionConfidence methods = Some posConf /\
      calculateTimingConfidence methods = Some timeConf /\
      let mean := (posConf (positions stored) (positions input)
                   + timeConf (timing stored) (timing input)) / 2 in
      (is_nan mean = true /\ is_nan c = true) \/
      (is_nan mean = false /\ (0 <=? c) = true /\ (c <=? 1) = true).
Proof.
  intros methods stored input c. unfold calculateConfidence.
  destruct (calculatePositionConfidence methods) as [posConf|]; [|discriminate].
  destruct (calculateTimingConfidence methods) as [timeConf|]; [|discriminate].
  intros Hc. injection Hc as <-.
  exists posConf, timeConf. split; [reflexivity|]. split; [reflexivity|].
  apply clamp_0_1.
Qed.

Lemma calculateConfidence_is_clamped_witness :
  exists posConf timeConf,
    calculatePositionConfidence
      {| calculatePositionConfidence := Some (fun _ _ => 3);
         calculateTimingConfidence := Some (fun _ _ => 0.5) |} = Some posConf /\
    calculateTimingConfidence
      {| calculatePositionConfidence := Some (fun _ _ => 3);
         calculateTimingConfidence := Some (fun _ _ => 0.5) |} = Some timeConf /\
    let mean := (posConf (positions Scenario.stored) (positions Scenario.displaced)
                 + timeConf (timing Scenario.stored) (timing Scenario.displaced)) / 2 in
    (is_nan mean = true /\ is_nan 1 = true) \/
    (is_nan mean = false /\ (0 <=? 1) = true /\ (1 <=? 1) = true).
Proof.
  apply (calculateConfidence_is_clamped
           {| calculatePositionConfidence := Some (fun _ _ => 3);
              calculateTimingConfidence := Some (fun _ _ => 0.5) |}
           Scenario.stored Scenario.displaced 1).
  reflexivity.
Defined.

End MatcherProperties.

(** ** The analysis of a sample *)

Section AnalysisProperties.

Local Open Scope float_scope.
Import Binary64 Spec Analysis.

Lemma SF64sub_notnan_fin (a b : spec_float) :
  notnan a -> fin b -> notnan (SF64sub a b).
Proof.
  destruct a as [sa|sa| |sa ma ea], b as [sb|sb| |sb mb eb]; simpl;
    intros Ha Hb; try contradiction; try (now elim Ha); try discriminate.
  - destruct sa, sb; discriminate.
  - apply binary_normalize_notnan.
Qed.

Lemma fluidity_step_notnan (f : float) :
  notnan (Prim2SF f) -> notnan (Prim2SF (f - 0.1)).
Proof.
  intros Hf. rewrite sub_spec. apply SF64sub_notnan_fin; [exact Hf | exact I].
Qed.

Lemma calculateFluidityScore_loop_notnan (Math_acos : float -> float) :
  forall (rest : list (Position float)) (prev curr : Position float) (f : float),
    notnan (Prim2SF f) ->
    notnan (Prim2SF (calculateFluidityScore_loop Math_acos prev curr rest f)).
Proof.
  induction rest as [|next rest IH]; intros prev curr f Hf; simpl.
  - exact Hf.
  - apply IH. destruct (JS.lt _ 90); [now apply fluidity_step_notnan | exact Hf].
Qed.

(** The loop lowers the score by 0.1 at most once for each triple. *)
Lemma calculateFluidityScore_loop_steps (Math_acos : float -> float) :
  forall (rest : list (Position float)) (prev curr : Position float) (k : nat),
    exists j, (j <= List.length rest)%nat /\
      calculateFluidityScore_loop Math_acos prev curr rest
        (Nat.iter k (fun f => f - 0.1) 1)
      = Nat.iter (j + k) (fun f => f - 0.1) 1.
Proof.
  induction rest as [|next rest IH]; intros prev curr k; simpl.
  - exists 0%nat. split; [lia | reflexivity].
  - destruct (JS.lt _ 90).
    + destruct (IH curr next (S k)) as (j & Hj & Heq).
      exists (S j). split; [lia|]. simpl in Heq. rewrite Heq.
      replace (j + S k)%nat with (S j + k)%nat by lia. reflexivity.
    + destruct (IH curr next k) as (j & Hj & Heq).
      exists j. split; [lia | exact Heq].
Qed.

(** X17.  The fluidity score is a Number between 0 and 1, never NaN,
    whatever the positions are and whatever [Math.acos] returns for them;
    and a sample of at most 10 positions, as the routes accept them, scores
    at least 0.2. *)
Theorem calculateFluidityScore_range :
  forall (Math_acos : float -> float)
         (positions : list (Position float)) (timing : list float),
    let score := calculateFluidityScore Math_acos positions timing in
    (0 <=? score) = true /\ (score <=? 1) = true /\
    ((List.length positions <= 10)%nat -> (0.2 <=? score) = true).
Proof.
  intros Math_acos positions timing score.
  assert (Hrange : (0 <=? score) = true /\ (score <=? 1) = true).
  { subst score. unfold calculateFluidityScore.
    match goal with |- context [JS.min 1 ?f] =>
      destruct (clamp_0_1 f) as [[Hn _]|[_ Hr]]; [exfalso|exact Hr];
      assert (Hf : notnan (Prim2SF f)) end.
    { destruct positions as [|prev [|curr rest]]; try discriminate.
      apply calculateFluidityScore_loop_notnan. discriminate. }
    rewrite (is_nan_false _ Hf) in Hn. discriminate. }
  destruct Hrange as [H0 H1]. split; [exact H0|]. split; [exact H1|].
  intros Hlen. subst score. unfold calculateFluidityScore.
  destruct positions as [|prev [|curr rest]]; try reflexivity.
  destruct (calculateFluidityScore_loop_steps Math_acos rest prev curr 0)
    as (j & Hj & Heq).
  change (Nat.iter 0 (fun f => f - 0.1) 1) with 1 in Heq. rewrite Heq.
  cbn [List.length] in Hlen.
  assert (Hj8 : (j <= 8)%nat) by lia.
  rewrite Nat.add_0_r.
  do 9 (destruct j as [|j]; [vm_compute; reflexivity|]). lia.
Qed.

Lemma calculateFluidityScore_range_witness :
  let score :=
    calculateFluidityScore (fun _ => 0) (positions ScenarioAuth.evenly_spaced)
      (timing ScenarioAuth.evenly_spaced) in
  (0.2 <=? score) = true.
Proof.
  intros score.
  destruct (calculateFluidityScore_range (fun _ => 0)
              (positions ScenarioAuth.evenly_spaced)
              (timing ScenarioAuth.evenly_spaced)) as (_ & _ & Hlow).
  apply Hlow. simpl. lia.
Defined.

Lemma times_ten_of_score (c : float) :
  is_score c ->
  JS.min 100 (c * 10) = c * 10 /\
  In (c * 10) [10; 20; 30; 40; 50; 60; 70; 80; 90; 100].
Proof.
  unfold is_score. intros Hc.
  repeat (destruct Hc as [<-|Hc]; [split; [reflexivity|simpl; tauto]|]).
  contradiction.
Qed.

Lemma generateRecommendations_not_empty (c : float) (b : BiometricData) :
  generateRecommendations c b <> [].
Proof.
  unfold generateRecommendations.
  destruct (JS.lt c 5), (JS.lt (fluidityScore b) 0.7); discriminate.
Qed.

(** X18.  For a sample of 3 to 10 finite positions with as many finite
    timestamps, the analysis reports a complexity among 1, ..., 10 and a
    security score that is exactly ten times the complexity, one of 10,
    20, ..., 100: the cap [Math.min(100, ...)] never takes effect.  The
    advice to add positions is given exactly for the complexities below 5,
    and the list of recommendations is never empty. *)
Theorem analyzeGesture_scores :
  forall (Math_acos : float -> float) (g : GestureData float),
    admissible g = true ->
    let a := analyzeGesture Math_acos g in
    is_score (complexity a) /\
    securityScore a = complexity a * 10 /\
    In (securityScore a) [10; 20; 30; 40; 50; 60; 70; 80; 90; 100] /\
    (In "Consider adding more positions to increase security"%string
        (recommendations a)
     <-> In (complexity a) [1; 2; 3; 4]) /\
    recommendations a <> [].
Proof.
  intros Math_acos g Hg a.
  pose proof (complexity_js_is_score g Hg) as Hc.
  subst a. unfold analyzeGesture.
  cbn [complexity securityScore recommendations].
  destruct (times_ten_of_score _ Hc) as [Hcap Hin].
  split; [exact Hc|]. rewrite Hcap. split; [reflexivity|]. split; [exact Hin|].
  split; [|apply generateRecommendations_not_empty].
  unfold generateRecommendations.
  set (f := fluidityScore _). clearbody f.
  unfold is_score in Hc. revert Hc. generalize (calculateComplexity g) as c.
  intros c Hc.
  repeat (destruct Hc as [<-|Hc];
          [ change (JS.lt _ 5) with true || change (JS.lt _ 5) with false;
            destruct (JS.lt f 0.7); cbn;
            split; intros H;
            repeat (destruct H as [H|H]; [try discriminate H; auto 10|]);
            try contradiction; auto 10
          |]).
  contradiction.
Qed.

Lemma analyzeGesture_scores_witness :
  let a := analyzeGesture (fun _ => 0) Scenario.displaced in
  is_score (complexity a) /\
  securityScore a = complexity a * 10 /\
  In (securityScore a) [10; 20; 30; 40; 50; 60; 70; 80; 90; 100].
Proof.
  intros a.
  destruct (analyzeGesture_scores (fun _ => 0) Scenario.displaced)
    as (Hc & Hs & Hin & _).
  - reflexivity.
  - split; [exact Hc|]. split; [exact Hs | exact Hin].
Defined.

End AnalysisProperties.

(** ** The speed of a sample *)

Section GestureSpeed.

Local Open Scope float_scope.
Import Binary64 Analysis.

(** Two Numbers that are [===] differ by a zero, or by NaN when both are
    the same infinity. *)
Lemma SF64sub_of_eqb (a b : spec_float) :
  SFeqb a b = true ->
  (exists s, SF64sub a b = S754_zero s) \/ SF64sub a b = S754_nan.
Proof.
  unfold SFeqb.
  destruct a as [sa|sa| |sa ma ea], b as [sb|sb| |sb mb eb]; simpl;
    try discriminate; try (destruct sa; discriminate);
    try (destruct sb; discriminate).
  - intros _. left. destruct sa, sb; eauto.
  - destruct sa, sb; try discriminate; auto.
  - destruct sa, sb; try discriminate;
      (destruct (ea ?= eb)%Z eqn:He; try discriminate;
       apply Z.compare_eq in He; subst eb;
       destruct (Pos.compare_cont Eq ma mb) eqn:Hm; try discriminate;
       apply Pos.compare_eq in Hm; subst mb; intros _; left;
       rewrite Z.sub_diag; simpl; eauto).
Qed.

(** A quotient by a zero or by NaN is not a finite Number. *)
Lemma SF64div_by_zero_or_nan (d t : spec_float) :
  (exists s, t = S754_zero s) \/ t = S754_nan -> ~ fin (SF64div d t).
Proof.
  intros [[s ->] | ->]; destruct d as [sd|sd| |sd md ed]; simpl; auto.
Qed.

Lemma SF64add_not_fin_r (a b : spec_float) : ~ fin b -> ~ fin (SF64add a b).
Proof.
  destruct a as [sa|sa| |sa ma ea], b as [sb|sb| |sb mb eb]; simpl;
    intros Hb; auto; try (now elim Hb); destruct sa, sb; simpl; auto.
Qed.

Lemma SF64add_not_fin_l (a b : spec_float) : ~ fin a -> ~ fin (SF64add a b).
Proof.
  destruct a as [sa|sa| |sa ma ea], b as [sb|sb| |sb mb eb]; simpl;
    intros Ha; auto; try (now elim Ha); destruct sa, sb; simpl; auto.
Qed.

Lemma SF64div_not_fin_l (a b : spec_float) : ~ fin a -> ~ fin (SF64div a b).
Proof.
  destruct a as [sa|sa| |sa ma ea], b as [sb|sb| |sb mb eb]; simpl;
    intros Ha; auto; now elim Ha.
Qed.

Lemma is_finite_false (v : float) : ~ fin (Prim2SF v) -> is_finite v = false.
Proof.
  intros Hv. unfold is_finite, is_nan, is_infinity.
  rewrite !eqb_spec, abs_spec.
  change (Prim2SF infinity) with (S754_infinity false).
  destruct (Prim2SF v) as [s|s| |s m e]; simpl in *;
    try (now elim Hv); [now destruct s | reflexivity].
Qed.

Lemma calculateGestureSpeed_loop_not_fin (timing : list float) :
  forall (rest : list (Position float)) (i : nat) (prev : Position float)
         (totalSpeed : float),
    ~ fin (Prim2SF totalSpeed) ->
    ~ fin (Prim2SF (calculateGestureSpeed_loop timing i prev rest totalSpeed)).
Proof.
  induction rest as [|curr rest IH]; intros i prev totalSpeed Ht; simpl.
  - exact Ht.
  - apply IH. rewrite add_spec. now apply SF64add_not_fin_l.
Qed.

Lemma calculateGestureSpeed_loop_repeated (timing : list float) (k : nat) :
  (timing_at timing k =? timing_at timing (k - 1)) = true ->
  forall (rest : list (Position float)) (i : nat) (prev : Position float)
         (totalSpeed : float),
    (i <= k < i + List.length rest)%nat ->
    ~ fin (Prim2SF (calculateGestureSpeed_loop timing i prev rest totalSpeed)).
Proof.
  intros Hk. induction rest as [|curr rest IH]; intros i prev totalSpeed Hi.
  - simpl in Hi. lia.
  - cbn [calculateGestureSpeed_loop].
    destruct (Nat.eq_dec i k) as [->|Hne].
    + apply calculateGestureSpeed_loop_not_fin.
      rewrite add_spec, div_spec, sub_spec.
      apply SF64add_not_fin_r, SF64div_by_zero_or_nan, SF64sub_of_eqb.
      now rewrite <- eqb_spec.
    + apply IH. cbn [List.length] in Hi. lia.
Qed.

(** X19.  When two consecutive frames carry the same timestamp, the
    gesture speed is not a finite Number: the step between them divides by
    zero, and the Infinity or NaN it gives stays in the sum and in the
    mean, whatever the other frames are. *)
Theorem calculateGestureSpeed_repeated_timestamp :
  forall (positions : list (Position float)) (timing : list float) (k : nat),
    (1 <= k < List.length positions)%nat ->
    (timing_at timing k =? timing_at timing (k - 1)) = true ->
    is_finite (calculateGestureSpeed positions timing) = false.
Proof.
  intros positions timing k Hk Heq. apply is_finite_false.
  unfold calculateGestureSpeed. rewrite div_spec. apply SF64div_not_fin_l.
  destruct positions as [|first rest]; [simpl in Hk; lia|].
  apply (calculateGestureSpeed_loop_repeated timing k Heq).
  cbn [List.length] in Hk. lia.
Qed.

Lemma calculateGestureSpeed_repeated_timestamp_witness :
  is_finite (calculateGestureSpeed (positions ScenarioAuth.four_frames)
               (timing ScenarioAuth.four_frames)) = false.
Proof.
  apply (calculateGestureSpeed_repeated_timestamp
           (positions ScenarioAuth.four_frames)
           (timing ScenarioAuth.four_frames) 1).
  - simpl. lia.
  - reflexivity.
Defined.

End GestureSpeed.

(** ** More on the anti-spoofing check *)

Section AntiSpoofingProperties.

Local Open Scope float_scope.
Import Security Binary64.

Lemma recordSecurityEvent_log (this : Manager) (eventType : string)
    (sev rsn : option string) (now : Z) :
  let e := {| type := eventType; data_severity := sev; data_reason := rsn;
              timestamp := now; threatLevelAtTime := threatLevel this |} in
  let this' := recordSecurityEvent this eventType sev rsn now in
  (List.length (securityEvents this') <= 1000)%nat /\
  List.length (securityEvents this')
  = Nat.min (S (List.length (securityEvents this))) 1000 /\
  last (securityEvents this') e = e /\
  antiSpoofingEnabled this' = antiSpoofingEnabled this /\
  threatLevel this' = threatLevel this.
Proof.
  intros e this'. subst this'. unfold recordSecurityEvent.
  cbn [securityEvents antiSpoofingEnabled threatLevel]. fold e.
  set (events := securityEvents this ++ [e]).
  assert (Hlen : List.length events = S (List.length (securityEvents this))).
  { subst events. rewrite length_app. simpl. lia. }
  destruct (1000 <? List.length events)%nat eqn:E.
  - apply Nat.ltb_lt in E. rewrite length_skipn.
    repeat split; try lia.
    subst events. rewrite skipn_app.
    replace (List.length (securityEvents this ++ [e]) - 1000
             - List.length (securityEvents this))%nat with 0%nat
      by (rewrite length_app; simpl; lia).
    cbn [skipn]. apply last_last.
  - apply Nat.ltb_ge in E. repeat split; try lia.
    subst events. apply last_last.
Qed.

(** X20.  Verdict and log of the anti-spoofing check go together.  A
    verdict of true leaves the manager as it was; a verdict of false comes
    with exactly one new event, the newest of the log, of one of the three
    spoofing types; and the log never grows beyond 1000 events. *)
Theorem performAntiSpoofingCheck_verdict_and_log :
  forall (this : Manager) (g : CheckInput) (now : Z),
    let verdict := fst (performAntiSpoofingCheck this g now) in
    let this' := snd (performAntiSpoofingCheck this g now) in
    (verdict = true -> this' = this) /\
    (verdict = false ->
     exists eventType sev rsn,
       this' = recordSecurityEvent this eventType sev rsn now /\
       In eventType ["depth_inconsistency_detected"; "suspicious_motion_pattern";
                     "suspicious_timing_pattern"]%string /\
       List.length (securityEvents this')
       = Nat.min (S (List.length (securityEvents this))) 1000) /\
    ((List.length (securityEvents this) <= 1000)%nat ->
     (List.length (securityEvents this') <= 1000)%nat).
Proof.
  intros this g now verdict this'.
  assert (Hcases :
    (verdict = true /\ this' = this) \/
    (verdict = false /\ exists eventType sev rsn,
        this' = recordSecurityEvent this eventType sev rsn now /\
        In eventType ["depth_inconsistency_detected"; "suspicious_motion_pattern";
                      "suspicious_timing_pattern"]%string)).
  { subst verdict this'. unfold performAntiSpoofingCheck, antiSpoofing_try.
    destruct (antiSpoofingEnabled this); cbn [negb]; [|now left].
    destruct (match depthData g with
              | Some depth => negb (checkDepthConsistency depth)
              | None => false
              end).
    { right. split; [reflexivity|]. eexists _, _, _. split; [reflexivity|].
      simpl. auto. }
    destruct (motionData g) as [motion|]; [|now left].
    destruct (suspicious (analyzeMotionPatterns motion)).
    { right. split; [reflexivity|]. eexists _, _, _. split; [reflexivity|].
      simpl. auto. }
    destruct (timingData g) as [times|]; [|now left].
    destruct (suspicious (analyzeTimingPatterns times)).
    { right. split; [reflexivity|]. eexists _, _, _. split; [reflexivity|].
      simpl. auto. }
    now left. }
  destruct Hcases as [[Hv Ht]|[Hv (eventType & sev & rsn & Ht & Hin)]].
  - split; [intros _; exact Ht|]. split; [congruence|]. now rewrite Ht.
  - pose proof (recordSecurityEvent_log this eventType sev rsn now)
      as (Hle & Hmin & _).
    split; [congruence|]. split.
    + intros _. exists eventType, sev, rsn. rewrite Ht. auto.
    + intros _. now rewrite Ht.
Qed.

Lemma performAntiSpoofingCheck_verdict_and_log_witness :
  (List.length (Security.securityEvents
     (snd (performAntiSpoofingCheck ScenarioAuth.manager
             ScenarioAuth.evenly_spaced_check 50))) <= 1000)%nat.
Proof.
  destruct (performAntiSpoofingCheck_verdict_and_log ScenarioAuth.manager
              ScenarioAuth.evenly_spaced_check 50) as (_ & _ & Hlog).
  apply Hlog. simpl. lia.
Defined.

(** NaN in sums and maxima. *)
Lemma sum_loop_nan :
  forall (l : list float) (acc : float),
    Prim2SF acc = S754_nan \/ Exists (fun v => Prim2SF v = S754_nan) l ->
    Prim2SF (fold_left (fun sum v => sum + v) l acc) = S754_nan.
Proof.
  induction l as [|v l IH]; intros acc H; simpl.
  - destruct H as [H|H]; [exact H | inversion H].
  - apply IH. destruct H as [H|H].
    + left. rewrite add_spec, H. reflexivity.
    + inversion H as [? ? Hv|? ? Hl]; subst.
      * left. rewrite add_spec, Hv. apply SF64add_nan_r.
      * now right.
Qed.

Lemma max_nan_l (a b : float) : is_nan a = true -> JS.max a b = nan.
Proof. intros Ha. unfold JS.max. now rewrite Ha. Qed.

Lemma max_nan_r (a b : float) : is_nan b = true -> JS.max a b = nan.
Proof. intros Hb. unfold JS.max. now rewrite Hb, orb_true_r. Qed.

Lemma Math_max_loop_nan :
  forall (l : list float) (acc : float),
    is_nan acc = true \/ Exists (fun v => is_nan v = true) l ->
    fold_left JS.max l acc = nan.
Proof.
  induction l as [|v l IH]; intros acc H; simpl.
  - destruct H as [H|H]; [|inversion H].
    apply Prim2SF_inj. now rewrite (is_nan_Prim2SF _ H).
  - apply IH. destruct H as [H|H].
    + left. now rewrite max_nan_l.
    + inversion H as [? ? Hv|? ? Hl]; subst.
      * left. now rewrite max_nan_r.
      * now right.
Qed.

(** NaN among the values of a track shows among its steps. *)
Lemma map_with_prev_Exists {A B : Type} (f : A -> A -> B)
    (bad : A -> Prop) (bad' : B -> Prop) :
  (forall v prev, bad v \/ bad prev -> bad' (f v prev)) ->
  forall (l : list A) (prev : A),
    (bad prev /\ l <> []) \/ Exists bad l ->
    Exists bad' (map_with_prev f prev l).
Proof.
  intros Hf. induction l as [|v l IH]; intros prev H.
  - destruct H as [[_ H]|H]; [now elim H | inversion H].
  - cbn [map_with_prev]. destruct H as [[H _]|H].
    + apply Exists_cons_hd, Hf. now right.
    + inversion H as [? ? Hv|? ? Hl]; subst.
      * apply Exists_cons_hd, Hf. now left.
      * apply Exists_cons_tl, IH. now right.
Qed.

Lemma map_from_second_Exists {A B : Type} (first : B) (f : A -> A -> B)
    (bad : A -> Prop) (bad' : B -> Prop) :
  (forall v prev, bad v \/ bad prev -> bad' (f v prev)) ->
  forall l : list A,
    (2 <= List.length l)%nat -> Exists bad l ->
    Exists bad' (map_from_second first f l).
Proof.
  intros Hf [|v l] Hlen H; [inversion H|].
  cbn [map_from_second]. apply Exists_cons_tl.
  apply (map_with_prev_Exists f bad bad' Hf).
  inversion H as [? ? Hv|? ? Hl]; subst.
  - left. split; [exact Hv|]. destruct l; [simpl in Hlen; lia | discriminate].
  - now right.
Qed.

End AntiSpoofingProperties.

Section AntiSpoofingEdges.

Local Open Scope float_scope.
Import Security Binary64.

Lemma map_with_prev_repeat {A B : Type} (f : A -> A -> B) (d : A) (n : nat) :
  map_with_prev f d (repeat d n) = repeat (f d d) n.
Proof. induction n as [|n IH]; simpl; [reflexivity | now rewrite IH]. Qed.

Lemma sum_loop_zero_or_nan :
  forall (l : list float) (acc : float),
    Forall (fun v => Prim2SF v = S754_zero false \/ Prim2SF v = S754_nan) l ->
    Prim2SF acc = S754_zero false \/ Prim2SF acc = S754_nan ->
    Prim2SF (fold_left (fun sum v => sum + v) l acc) = S754_zero false \/
    Prim2SF (fold_left (fun sum v => sum + v) l acc) = S754_nan.
Proof.
  induction l as [|v l IH]; intros acc Hl Hacc; simpl; [exact Hacc|].
  inversion Hl as [|? ? Hv Hl']; subst.
  apply IH; [exact Hl'|]. now apply add_zero_or_nan.
Qed.

Lemma abs_diag (d : float) :
  Prim2SF (abs (d - d)) = S754_zero false \/ Prim2SF (abs (d - d)) = S754_nan.
Proof.
  rewrite abs_spec, sub_spec.
  destruct (SF64sub_diag (Prim2SF d)) as [-> | ->]; [now left | now right].
Qed.

(** The mean of steps that are all +0 or NaN is above no threshold. *)
Lemma not_gt_of_zero_or_nan_sum (total n tol : float) :
  Prim2SF total = S754_zero false \/ Prim2SF total = S754_nan ->
  (tol <? 0) = false -> JS.gt (total / n) tol = false.
Proof.
  intros Ht Htol.
  assert (H : (exists sz, Prim2SF (total / n) = S754_zero sz) \/
              Prim2SF (total / n) = S754_nan).
  { rewrite div_spec. destruct Ht as [-> | ->]; [|now right].
    destruct (Prim2SF n) as [s|s| |s m e]; simpl; eauto. }
  destruct H as [[sz Hz]|Hn]; [now apply (gt_zero _ _ sz) | now apply gt_nan].
Qed.

Lemma checkDepthConsistency_constant (d : float) (n : nat) :
  checkDepthConsistency (repeat d n) = false.
Proof.
  unfold checkDepthConsistency. apply not_gt_of_zero_or_nan_sum; [|reflexivity].
  unfold sum. apply sum_loop_zero_or_nan; [|now left].
  destruct n as [|n]; cbn [repeat map_from_second]; [constructor|].
  constructor; [now left|]. rewrite map_with_prev_repeat.
  apply Forall_forall. intros v Hv. apply repeat_spec in Hv. subst v.
  apply abs_diag.
Qed.

Lemma abs_sub_nan (v prev : float) :
  is_nan v = true \/ is_nan prev = true ->
  Prim2SF (abs (v - prev)) = S754_nan.
Proof.
  rewrite abs_spec, sub_spec. intros [H|H]; rewrite (is_nan_Prim2SF _ H).
  - reflexivity.
  - now rewrite SF64sub_nan_r.
Qed.

Lemma checkDepthConsistency_nan (depth : list float) :
  Exists (fun v => is_nan v = true) depth ->
  checkDepthConsistency depth = false.
Proof.
  intros H. destruct depth as [|v [|w depth]]; [inversion H | reflexivity |].
  unfold checkDepthConsistency. apply gt_nan. rewrite div_spec.
  unfold sum. rewrite sum_loop_nan; [reflexivity|]. right.
  apply (map_from_second_Exists 0 _ (fun v => is_nan v = true)
           (fun v => Prim2SF v = S754_nan)).
  - intros a b Hab. now apply abs_sub_nan.
  - simpl. lia.
  - exact H.
Qed.

(** X21.  What the depth check turns away.  A depth track that does not
    vary (every frame at the same depth, or a single frame, or none) and a
    depth track that holds a value that is not a number both fail
    [checkDepthConsistency], so the anti-spoofing check answers false and
    records 'depth_inconsistency_detected' with severity high, before it
    looks at motion or timing. *)
Theorem depth_check_rejects_flat_and_nan_tracks :
  forall (this : Manager) (g : CheckInput) (depth : list float) (now : Z),
    antiSpoofingEnabled this = true ->
    depthData g = Some depth ->
    (exists d n, depth = repeat d n) \/
    Exists (fun v => is_nan v = true) depth ->
    performAntiSpoofingCheck this g now
    = (false,
       recordSecurityEvent this "depth_inconsistency_detected"
         (Some "high"%string) (Some "possible_spoofing"%string) now).
Proof.
  intros this g depth now Hon Hd Hflat.
  assert (Hc : checkDepthConsistency depth = false).
  { destruct Hflat as [(d & n & ->)|Hnan].
    - apply checkDepthConsistency_constant.
    - now apply checkDepthConsistency_nan. }
  unfold performAntiSpoofingCheck, antiSpoofing_try.
  now rewrite Hon, Hd, Hc.
Qed.

Lemma depth_check_rejects_flat_and_nan_tracks_witness :
  performAntiSpoofingCheck ScenarioAuth.manager
    {| depthData := Some [0.5; 0.5; 0.5; 0.5];
       motionData := Some (positions ScenarioAuth.evenly_spaced);
       timingData := Some (timing ScenarioAuth.evenly_spaced) |} 50%Z
  = (false,
     recordSecurityEvent ScenarioAuth.manager "depth_inconsistency_detected"
       (Some "high"%string) (Some "possible_spoofing"%string) 50%Z).
Proof.
  apply (depth_check_rejects_flat_and_nan_tracks ScenarioAuth.manager _
           [0.5; 0.5; 0.5; 0.5] 50%Z).
  - reflexivity.
  - reflexivity.
  - left. exists 0.5, 4%nat. reflexivity.
Defined.

Lemma distance3D_nan_either (a b : Position float) :
  has_nan_coordinate a = true \/ has_nan_coordinate b = true ->
  is_nan (distance3D a b) = true.
Proof.
  intros [H|H]; apply Prim2SF_is_nan.
  - rewrite distance3D_swap. now apply distance3D_nan_input.
  - now apply distance3D_nan_input.
Qed.

Lemma abs_sub_is_nan (v prev : float) :
  is_nan v = true \/ is_nan prev = true -> is_nan (abs (v - prev)) = true.
Proof. intros H. now apply Prim2SF_is_nan, abs_sub_nan. Qed.

Lemma analyzeMotionPatterns_nan (motion : list (Position float)) :
  Exists (fun p => has_nan_coordinate p = true) motion ->
  analyzeMotionPatterns motion = not_suspicious.
Proof.
  intros H. destruct motion as [|p [|q motion]]; [inversion H | reflexivity |].
  unfold analyzeMotionPatterns.
  assert (Hv : Exists (fun v => is_nan v = true) (velocities (p :: q :: motion))).
  { apply (map_from_second_Exists 0 _ (fun p => has_nan_coordinate p = true)).
    - intros a b Hab. now apply distance3D_nan_either.
    - simpl. lia.
    - exact H. }
  assert (Ha : Exists (fun v => is_nan v = true)
                      (accelerationChanges (velocities (p :: q :: motion)))).
  { apply (map_from_second_Exists 0 _ (fun v => is_nan v = true)).
    - intros a b Hab. now apply abs_sub_is_nan.
    - simpl. lia.
    - exact Hv. }
  unfold Math_max_spread. rewrite Math_max_loop_nan by now right.
  reflexivity.
Qed.

Lemma squares_loop_nan (avg : float) :
  Prim2SF avg = S754_nan ->
  forall (l : list float) (acc : float),
    l <> [] \/ Prim2SF acc = S754_nan ->
    Prim2SF (fold_left (fun sum interval => sum + Math_pow2 (interval - avg)) l acc)
    = S754_nan.
Proof.
  intros Havg. induction l as [|v l IH]; intros acc H; simpl.
  - destruct H as [H|H]; [now elim H | exact H].
  - apply IH. right. unfold Math_pow2. cbn [mul FloatArith].
    rewrite add_spec, mul_spec, sub_spec, Havg, SF64sub_nan_r.
    apply SF64add_nan_r.
Qed.

Lemma analyzeTimingPatterns_nan (times : list float) :
  (2 <= List.length times)%nat ->
  Exists (fun t => is_nan t = true) times ->
  analyzeTimingPatterns times = not_suspicious.
Proof.
  intros Hlen H. unfold analyzeTimingPatterns.
  assert (Hi : Exists (fun v => Prim2SF v = S754_nan) (intervals times)).
  { apply (map_from_second_Exists 0 _ (fun t => is_nan t = true)).
    - intros a b [Hab|Hab]; rewrite sub_spec, (is_nan_Prim2SF _ Hab);
        [reflexivity | apply SF64sub_nan_r].
    - exact Hlen.
    - exact H. }
  assert (Hv : Prim2SF (variance (intervals times)) = S754_nan).
  { unfold variance. rewrite div_spec, squares_loop_nan; [reflexivity| |].
    - rewrite div_spec. unfold sum. rewrite sum_loop_nan; [reflexivity|].
      now right.
    - left. intros E. rewrite E in Hi. inversion Hi. }
  unfold JS.lt. rewrite ltb_spec, Hv. reflexivity.
Qed.

(** X22.  A capture with values that are not numbers passes the
    anti-spoofing check.  When some position of the motion track has a NaN
    coordinate, the largest acceleration is NaN and is not above 100; when
    some timestamp of a track of two or more is NaN, the variance is NaN
    and is not below 0.01.  Without depth data the check then answers
    true and records nothing. *)
Theorem nan_capture_passes_anti_spoofing :
  forall (this : Manager) (motion : list (Position float))
         (times : list float) (now : Z),
    Exists (fun p => has_nan_coordinate p = true) motion ->
    (2 <= List.length times)%nat ->
    Exists (fun t => is_nan t = true) times ->
    analyzeMotionPatterns motion = not_suspicious /\
    analyzeTimingPatterns times = not_suspicious /\
    performAntiSpoofingCheck this
      {| depthData := None; motionData := Some motion; timingData := Some times |}
      now
    = (true, this).
Proof.
  intros this motion times now Hm Hlen Ht.
  pose proof (analyzeMotionPatterns_nan motion Hm) as Hmotion.
  pose proof (analyzeTimingPatterns_nan times Hlen Ht) as Htiming.
  split; [exact Hmotion|]. split; [exact Htiming|].
  unfold performAntiSpoofingCheck, antiSpoofing_try.
  cbn [depthData motionData timingData].
  rewrite Hmotion, Htiming. cbn [suspicious not_suspicious].
  now destruct (antiSpoofingEnabled this).
Qed.

Lemma nan_capture_passes_anti_spoofing_witness :
  performAntiSpoofingCheck ScenarioAuth.manager
    {| depthData := None;
       motionData := Some [Scenario.pos 0 0 0; Scenario.pos nan 0 0;
                           Scenario.pos 500 0 0];
       timingData := Some [0; nan; 200] |} 50%Z
  = (true, ScenarioAuth.manager).
Proof.
  destruct (nan_capture_passes_anti_spoofing ScenarioAuth.manager
              [Scenario.pos 0 0 0; Scenario.pos nan 0 0; Scenario.pos 500 0 0]
              [0; nan; 200] 50%Z) as (_ & _ & Hcheck).
  - apply Exists_cons_tl, Exists_cons_hd. reflexivity.
  - simpl. lia.
  - apply Exists_cons_tl, Exists_cons_hd. reflexivity.
  - exact Hcheck.
Defined.

End AntiSpoofingEdges.

(** ** The timing verdict and the login path *)

Section TimingVerdict.

Local Open Scope float_scope.
Import Security Binary64.

(** A finite timestamp minus itself is +0. *)
Lemma sub_diag_finite (t : float) : is_finite t = true -> t - t = 0.
Proof.
  intros Ht. apply Prim2SF_inj. rewrite sub_spec.
  pose proof (is_finite_fin t Ht) as Hf.
  destruct (SF64sub_diag (Prim2SF t)) as [H|H]; [exact H|exfalso].
  apply (SF64sub_fin_notnan _ _ Hf (fin_notnan _ Hf)). exact H.
Qed.

(** Frames that all carry one timestamp: every interval is 0, and so is
    the variance. *)
Lemma intervals_constant (t : float) (n : nat) :
  is_finite t = true -> intervals (repeat t (S n)) = repeat 0 (S n).
Proof.
  intros Ht. unfold intervals. cbn [repeat map_from_second].
  now rewrite map_with_prev_repeat, (sub_diag_finite t Ht).
Qed.

Lemma analyzeTimingPatterns_constant (t : float) (n : nat) :
  is_finite t = true -> (n < 10)%nat ->
  analyzeTimingPatterns (repeat t (S n)) = Spec.too_perfect_timing.
Proof.
  intros Ht Hn. unfold analyzeTimingPatterns.
  rewrite (intervals_constant t n Ht).
  do 10 (destruct n as [|n]; [reflexivity|]). lia.
Qed.

(** C4, amended.  A sample that the timing analysis flags gets the
    verdict too_perfect_timing, severity high; the anti-spoofing check,
    when enabled and given motion data, then answers false, and where
    depth and motion pass it records 'suspicious_timing_pattern' with that
    severity and reason.  Frames that all carry one finite timestamp are
    flagged.  The login handler does not run the check: for an account
    that is not locked the sample reaches the outcome only through
    [validateGesture], which is called on every such attempt. *)
Theorem flagged_timing_fails_the_check_and_login_skips_it :
  (forall timestamps : list float,
      suspicious (analyzeTimingPatterns timestamps) = true ->
      analyzeTimingPatterns timestamps = Spec.too_perfect_timing /\
      (forall (this : Manager) (depth : option (list float))
              (motion : list (Position float)) (now : Z),
          antiSpoofingEnabled this = true ->
          fst (performAntiSpoofingCheck this
                 {| depthData := depth; motionData := Some motion;
                    timingData := Some timestamps |} now) = false) /\
      (forall (this : Manager) (motion : list (Position float)) (now : Z),
          antiSpoofingEnabled this = true ->
          suspicious (analyzeMotionPatterns motion) = false ->
          performAntiSpoofingCheck this
            {| depthData := None; motionData := Some motion;
               timingData := Some timestamps |} now
          = (false,
             recordSecurityEvent this "suspicious_timing_pattern"
               (Some "high"%string) (Some "too_perfect_timing"%string) now)))
  /\
  (forall (t : float) (n : nat),
      is_finite t = true -> (n < 10)%nat ->
      suspicious (analyzeTimingPatterns (repeat t (S n))) = true)
  /\
  (forall (methods : Gesture.Methods) (acct : Auth.Account)
          (sample other : GestureData float) (now : Z),
      User.isLocked (Auth.user acct) now = false ->
      Gesture.validateGesture methods (Auth.gesturePassword acct) sample now
      = Gesture.validateGesture methods (Auth.gesturePassword acct) other now ->
      Auth.login methods (Some acct) sample now
      = Auth.login methods (Some acct) other now).
Proof.
  split; [|split].
  - intros timestamps Hs.
    assert (Hflag : analyzeTimingPatterns timestamps = Spec.too_perfect_timing).
    { unfold analyzeTimingPatterns in *.
      destruct (JS.lt _ 0.01); [reflexivity|discriminate]. }
    split; [exact Hflag|]. split.
    + intros this depth motion now Hen.
      unfold performAntiSpoofingCheck, antiSpoofing_try. rewrite Hen.
      cbn [negb depthData motionData timingData].
      destruct (match depth with Some _ => _ | None => _ end); [reflexivity|].
      destruct (suspicious (analyzeMotionPatterns motion)); [reflexivity|].
      rewrite Hflag. reflexivity.
    + intros this motion now Hen Hmotion.
      unfold performAntiSpoofingCheck, antiSpoofing_try. rewrite Hen.
      cbn [negb depthData motionData timingData].
      rewrite Hmotion, Hflag. reflexivity.
  - intros t n Ht Hn. now rewrite analyzeTimingPatterns_constant.
  - intros methods acct sample other now Hl Hsame.
    unfold Auth.login. now rewrite Hl, Hsame.
Qed.

Lemma flagged_timing_fails_the_check_and_login_skips_it_witness :
  analyzeTimingPatterns [0; 0; 0] = Spec.too_perfect_timing /\
  fst (performAntiSpoofingCheck ScenarioAuth.manager
         {| depthData := None;
            motionData := Some (positions ScenarioAuth.evenly_spaced);
            timingData := Some [0; 0; 0] |} 0) = false /\
  suspicious (analyzeTimingPatterns (repeat 250 4)) = true.
Proof.
  destruct flagged_timing_fails_the_check_and_login_skips_it
    as (Hflagged & Hconstant & _).
  destruct (Hflagged [0; 0; 0] eq_refl) as (Hflag & Hcheck & _).
  split; [exact Hflag|]. split.
  - apply Hcheck. reflexivity.
  - apply (Hconstant 250 3%nat); [reflexivity|lia].
Defined.

End TimingVerdict.

(** ** Rounding to binary64 is monotone *)

Section PowersOfTwo.

Import Value.
Local Open Scope R_scope.

Lemma pow2_pos (e : Z) : 0 < pow2 e.
Proof. unfold pow2. apply powerRZ_lt. lra. Qed.

Lemma pow2_add (a b : Z) : pow2 (a + b) = pow2 a * pow2 b.
Proof. unfold pow2. apply powerRZ_add. lra. Qed.

Lemma pow2_0 : pow2 0 = 1.
Proof. reflexivity. Qed.

Lemma pow2_1 : pow2 1 = 2.
Proof. unfold pow2. simpl. lra. Qed.

Lemma pow2_opp_1 : pow2 (-1) = / 2.
Proof. unfold pow2. simpl. f_equal. lra. Qed.

Lemma pow2_succ (e : Z) : pow2 (e + 1) = 2 * pow2 e.
Proof. rewrite pow2_add, pow2_1. lra. Qed.

Lemma pow2_ge_1 (e : Z) : (0 <= e)%Z -> 1 <= pow2 e.
Proof.
  intros He. pattern e. apply natlike_ind; [rewrite pow2_0; lra| |exact He].
  intros n Hn IH. unfold Z.succ. rewrite pow2_succ. lra.
Qed.

Lemma pow2_le (a b : Z) : (a <= b)%Z -> pow2 a <= pow2 b.
Proof.
  intros Hab. replace b with (a + (b - a))%Z by lia. rewrite pow2_add.
  pose proof (pow2_pos a). pose proof (pow2_ge_1 (b - a) ltac:(lia)). nra.
Qed.

Lemma pow2_lt (a b : Z) : (a < b)%Z -> pow2 a < pow2 b.
Proof.
  intros Hab. replace b with (a + 1 + (b - a - 1))%Z by lia.
  rewrite pow2_add, pow2_succ.
  pose proof (pow2_pos a). pose proof (pow2_ge_1 (b - a - 1) ltac:(lia)). nra.
Qed.

Lemma pow2_inv (e : Z) : pow2 e * pow2 (- e) = 1.
Proof. rewrite <- pow2_add. replace (e + - e)%Z with 0%Z by lia. apply pow2_0. Qed.

Lemma IZR_pow2 (n : Z) : (0 <= n)%Z -> IZR (2 ^ n) = pow2 n.
Proof.
  intros Hn. pattern n. apply natlike_ind; [reflexivity| |exact Hn].
  intros k Hk IH. rewrite Z.pow_succ_r by exact Hk. unfold Z.succ.
  rewrite mult_IZR, IH, pow2_succ. reflexivity.
Qed.

(** The number of binary digits of a positive integer. *)
Lemma digits2_bounds (p : positive) :
  (2 ^ (Z.pos (digits2_pos p) - 1) <= Z.pos p < 2 ^ Z.pos (digits2_pos p))%Z.
Proof.
  rewrite digits2_pos_size. split.
  - pose proof (Pos.size_le p) as H.
    assert (H2 : (2 ^ Z.pos (Pos.size p) <= 2 * Z.pos p)%Z).
    { rewrite <- Pos2Z.inj_pow. change (2 * Z.pos p)%Z with (Z.pos p~0).
      now apply Pos2Z.pos_le_pos. }
    replace (Z.pos (Pos.size p)) with (Z.pos (Pos.size p) - 1 + 1)%Z in H2 by lia.
    rewrite Z.pow_add_r in H2 by lia. lia.
  - pose proof (Pos.size_gt p) as H. rewrite <- Pos2Z.inj_pow.
    now apply Pos2Z.pos_lt_pos.
Qed.

Lemma digits2_bounds_R (p : positive) (e : Z) :
  pow2 (Z.pos (digits2_pos p) + e - 1) <= IZR (Z.pos p) * pow2 e
  < pow2 (Z.pos (digits2_pos p) + e).
Proof.
  destruct (digits2_bounds p) as [Hlo Hhi].
  apply IZR_le in Hlo. apply IZR_lt in Hhi.
  rewrite IZR_pow2 in Hlo, Hhi by lia.
  pose proof (pow2_pos e) as He.
  replace (Z.pos (digits2_pos p) + e - 1)%Z
    with (Z.pos (digits2_pos p) - 1 + e)%Z by lia.
  rewrite !pow2_add. split; nra.
Qed.

End PowersOfTwo.

Section ShiftAndRound.

Import Value.
Local Open Scope R_scope.

Lemma IZR_xO (p : positive) : IZR (Z.pos p~0) = 2 * IZR (Z.pos p).
Proof. rewrite Pos2Z.inj_xO, mult_IZR. reflexivity. Qed.

Lemma IZR_xI (p : positive) : IZR (Z.pos p~1) = 2 * IZR (Z.pos p) + 1.
Proof. rewrite Pos2Z.inj_xI, plus_IZR, mult_IZR. reflexivity. Qed.

(** One shift to the right halves the number the record stands for. *)
Lemma shr_1_located (mrs : shr_record) (x : R) :
  (0 <= shr_m mrs)%Z ->
  located (shr_m mrs) (loc_of_shr_record mrs) x ->
  located (shr_m (shr_1 mrs)) (loc_of_shr_record (shr_1 mrs)) (x * / 2) /\
  (0 <= shr_m (shr_1 mrs))%Z.
Proof.
  destruct mrs as [m r s]. cbn [shr_m]. intros Hm.
  destruct m as [|p|p]; [| |exfalso; now apply Hm].
  - destruct r, s; cbn [shr_1 shr_m loc_of_shr_record orb located];
      intros Hx; (split; [lra | apply Z.le_refl]).
  - destruct p as [p|p|].
    + destruct r, s; cbn [shr_1 shr_m loc_of_shr_record orb located];
        rewrite (IZR_xI p); intros Hx;
        (split; [lra | apply Pos2Z.is_nonneg]).
    + destruct r, s; cbn [shr_1 shr_m loc_of_shr_record orb located];
        rewrite (IZR_xO p); intros Hx;
        (split; [lra | apply Pos2Z.is_nonneg]).
    + destruct r, s; cbn [shr_1 shr_m loc_of_shr_record orb located];
        intros Hx; (split; [lra | apply Z.le_refl]).
Qed.

Lemma iter_shr_1_located (p : positive) :
  forall (mrs : shr_record) (x : R),
    (0 <= shr_m mrs)%Z ->
    located (shr_m mrs) (loc_of_shr_record mrs) x ->
    located (shr_m (SpecFloat.iter_pos shr_1 p mrs))
            (loc_of_shr_record (SpecFloat.iter_pos shr_1 p mrs))
            (x * pow2 (- Z.pos p)) /\
    (0 <= shr_m (SpecFloat.iter_pos shr_1 p mrs))%Z.
Proof.
  induction p as [p IH|p IH|]; intros mrs x Hm Hx; cbn [SpecFloat.iter_pos].
  - destruct (shr_1_located mrs x Hm Hx) as [H1 Hm1].
    destruct (IH _ _ Hm1 H1) as [H2 Hm2].
    destruct (IH _ _ Hm2 H2) as [H3 Hm3].
    split; [|exact Hm3].
    replace (x * pow2 (- Z.pos p~1))
      with (x * / 2 * pow2 (- Z.pos p) * pow2 (- Z.pos p)); [exact H3|].
    rewrite Pos2Z.inj_xI.
    replace (- (2 * Z.pos p + 1))%Z with (-1 + (- Z.pos p + - Z.pos p))%Z by lia.
    rewrite !pow2_add, pow2_opp_1. ring.
  - destruct (IH _ _ Hm Hx) as [H2 Hm2].
    destruct (IH _ _ Hm2 H2) as [H3 Hm3].
    split; [|exact Hm3].
    replace (x * pow2 (- Z.pos p~0))
      with (x * pow2 (- Z.pos p) * pow2 (- Z.pos p)); [exact H3|].
    rewrite Pos2Z.inj_xO.
    replace (- (2 * Z.pos p))%Z with (- Z.pos p + - Z.pos p)%Z by lia.
    rewrite !pow2_add. ring.
  - change (pow2 (- Z.pos 1)) with (pow2 (-1)). rewrite pow2_opp_1.
    now apply shr_1_located.
Qed.

(** The first step of rounding a positive integer mantissa: the shift to
    the exponent of the format. *)
Lemma shr_fexp_located (M : positive) (e : Z) :
  let q := Z.max e (fexp prec emax (Z.pos (digits2_pos M) + e)) in
  exists mrs,
    shr_fexp prec emax (Z.pos M) e loc_Exact = (mrs, q) /\
    located (shr_m mrs) (loc_of_shr_record mrs) (IZR (Z.pos M) * pow2 (e - q)) /\
    (0 <= shr_m mrs)%Z.
Proof.
  intros q. unfold shr_fexp, shr. cbn [Zdigits2 shr_record_of_loc].
  set (t := fexp prec emax (Z.pos (digits2_pos M) + e)) in *.
  destruct (t - e)%Z as [|p|p] eqn:E.
  - eexists. split; [|split].
    + f_equal. subst q. lia.
    + cbn [shr_m loc_of_shr_record located].
      replace (e - q)%Z with 0%Z by (subst q; lia). rewrite pow2_0. ring.
    + cbn. lia.
  - destruct (iter_shr_1_located p
                {| shr_m := Z.pos M; shr_r := false; shr_s := false |}
                (IZR (Z.pos M))) as [Hl Hm]; [cbn; lia | reflexivity |].
    eexists. split; [|split].
    + f_equal. subst q. lia.
    + replace (e - q)%Z with (- Z.pos p)%Z by (subst q; lia). exact Hl.
    + exact Hm.
  - eexists. split; [|split].
    + f_equal. subst q. lia.
    + cbn [shr_m loc_of_shr_record located].
      replace (e - q)%Z with 0%Z by (subst q; lia). rewrite pow2_0. ring.
    + cbn. lia.
Qed.

Lemma located_floor (m : Z) (l : location) (x : R) :
  located m l x -> IZR m <= x < IZR m + 1.
Proof. destruct l as [|[| |]]; simpl; lra. Qed.

(** Rounding to nearest, ties to even, is monotone. *)
Lemma round_nearest_even_mono (m m' : Z) (l l' : location) (x x' : R) :
  located m l x -> located m' l' x' -> x <= x' ->
  (round_nearest_even m l <= round_nearest_even m' l')%Z.
Proof.
  intros Hx Hx' Hle.
  pose proof (located_floor _ _ _ Hx) as Hf.
  pose proof (located_floor _ _ _ Hx') as Hf'.
  assert (Hm : (m <= m')%Z).
  { destruct (Z_le_gt_dec m m') as [|Hgt]; [assumption|exfalso].
    assert (IZR m' + 1 <= IZR m) by (rewrite <- plus_IZR; apply IZR_le; lia).
    lra. }
  assert (Hr : (m <= round_nearest_even m l <= m + 1)%Z).
  { destruct l as [|[| |]]; simpl; try lia. destruct (Z.even m); lia. }
  assert (Hr' : (m' <= round_nearest_even m' l' <= m' + 1)%Z).
  { destruct l' as [|[| |]]; simpl; try lia. destruct (Z.even m'); lia. }
  destruct (Z.eq_dec m m') as [<-|Hne]; [|lia].
  destruct l as [|[| |]], l' as [|[| |]]; simpl in *;
    try lia; try lra; destruct (Z.even m); lia.
Qed.

Lemma round_nearest_even_ge (m base : Z) (l : location) (x : R) :
  located m l x -> IZR base <= x -> (base <= round_nearest_even m l)%Z.
Proof.
  intros Hx Hb.
  apply (round_nearest_even_mono base m loc_Exact l (IZR base) x);
    [reflexivity | exact Hx | exact Hb].
Qed.

Lemma round_nearest_even_le (m top : Z) (l : location) (x : R) :
  located m l x -> x <= IZR top -> (round_nearest_even m l <= top)%Z.
Proof.
  intros Hx Hb.
  apply (round_nearest_even_mono m top l loc_Exact x (IZR top));
    [exact Hx | reflexivity | exact Hb].
Qed.

End ShiftAndRound.

Section RoundPositive.

Import Value.
Local Open Scope R_scope.

Lemma fexp_ge_emin (k : Z) : (-1074 <= fexp prec emax k)%Z.
Proof. unfold fexp, SpecFloat.emin, prec, emax. lia. Qed.

Lemma fexp_ge (k : Z) : (k - 53 <= fexp prec emax k)%Z.
Proof. unfold fexp, SpecFloat.emin, prec, emax. lia. Qed.

Lemma fexp_cases (k : Z) :
  (fexp prec emax k = k - 53 /\ -1074 <= k - 53)%Z \/
  (fexp prec emax k = -1074 /\ k - 53 <= -1074)%Z.
Proof. unfold fexp, SpecFloat.emin, prec, emax. lia. Qed.

Lemma fexp_mono (k k' : Z) : (k <= k')%Z -> (fexp prec emax k <= fexp prec emax k')%Z.
Proof. unfold fexp, SpecFloat.emin, prec, emax. lia. Qed.

(** The second shift of [binary_round_aux], on a rounded mantissa of at
    most 54 digits. *)
Lemma shr_fexp_rounded (n q : Z) :
  (-1074 <= q)%Z -> (0 <= n <= 9007199254740992)%Z ->
  shr_fexp prec emax n q loc_Exact
  = if (n =? 9007199254740992)%Z
    then ({| shr_m := 4503599627370496; shr_r := false; shr_s := false |},
          (q + 1)%Z)
    else ({| shr_m := n; shr_r := false; shr_s := false |}, q).
Proof.
  intros Hq Hn. unfold shr_fexp, shr. cbn [shr_record_of_loc].
  destruct (n =? 9007199254740992)%Z eqn:E.
  - apply Z.eqb_eq in E. subst n.
    change (Zdigits2 9007199254740992) with 54%Z.
    replace (fexp prec emax (54 + q) - q)%Z with 1%Z
      by (unfold fexp, SpecFloat.emin, prec, emax; lia).
    reflexivity.
  - apply Z.eqb_neq in E.
    destruct n as [|p|p]; [| |lia].
    + cbn [Zdigits2].
      destruct (fexp prec emax (0 + q) - q)%Z eqn:F; try reflexivity.
      exfalso. unfold fexp, SpecFloat.emin, prec, emax in F. lia.
    + cbn [Zdigits2].
      assert (Hd : (Z.pos (digits2_pos p) <= 53)%Z).
      { destruct (digits2_bounds p) as [Hlo _].
        destruct (Z_le_gt_dec (Z.pos (digits2_pos p)) 53) as [|Hgt];
          [assumption|exfalso].
        assert (2 ^ 53 <= 2 ^ (Z.pos (digits2_pos p) - 1))%Z
          by (apply Z.pow_le_mono_r; lia).
        change (2 ^ 53)%Z with 9007199254740992%Z in *. lia. }
      destruct (fexp prec emax (Z.pos (digits2_pos p) + q) - q)%Z eqn:F;
        try reflexivity.
      exfalso. unfold fexp, SpecFloat.emin, prec, emax in F. lia.
Qed.

(** What rounding a positive mantissa gives.  The exponent [e] is not
    above the exponent [q] of the format at that magnitude; the mantissa is
    brought to [q] and rounded to nearest even, [W] being the rounded number
    before the test for overflow. *)
Lemma round_positive (M : positive) (e : Z) :
  let q := fexp prec emax (Z.pos (digits2_pos M) + e) in
  let r := binary_round_aux prec emax false (Z.pos M) e loc_Exact in
  (e <= q)%Z ->
  exists (m : Z) (l : location),
    located m l (IZR (Z.pos M) * pow2 (e - q)) /\
    let n := round_nearest_even m l in
    let W := IZR n * pow2 q in
    (0 <= n <= 9007199254740992)%Z /\
    valid_binary r = true /\
    ((r = S754_zero false /\ W = 0) \/
     (exists m'' e'', r = S754_finite false m'' e'' /\ of_SF r = W) \/
     (r = S754_infinity false /\ pow2 1024 <= W)).
Proof.
  intros q r Hnorm.
  destruct (shr_fexp_located M e) as (mrs & Hshr & Hloc & Hm).
  replace (Z.max e (fexp prec emax (Z.pos (digits2_pos M) + e))) with q in *
    by (subst q; lia).
  exists (shr_m mrs), (loc_of_shr_record mrs). split; [exact Hloc|].
  intros n W.
  set (k := (Z.pos (digits2_pos M) + e)%Z) in *.
  destruct (digits2_bounds_R M e) as [Hlo Hhi]. fold k in Hlo, Hhi.
  pose proof (pow2_pos (e - q)) as Hpe. pose proof (pow2_pos q) as Hpq.
  assert (HM : 0 < IZR (Z.pos M)) by (apply IZR_lt; lia).
  assert (Hq : (-1074 <= q)%Z) by apply fexp_ge_emin.
  assert (Hqk : (k - 53 <= q)%Z) by apply fexp_ge.
  (* the scaled number is below 2^53 *)
  assert (Hx53 : IZR (Z.pos M) * pow2 (e - q) <= IZR 9007199254740992).
  { change 9007199254740992%Z with (2 ^ 53)%Z. rewrite IZR_pow2 by lia.
    apply Rle_trans with (pow2 (k - q)); [|apply pow2_le; lia].
    replace (k - q)%Z with (k + - q)%Z by lia.
    replace (e - q)%Z with (e + - q)%Z by lia.
    rewrite !pow2_add. pose proof (pow2_pos (- q)). nra. }
  assert (Hn : (0 <= n <= 9007199254740992)%Z).
  { split.
    - apply (round_nearest_even_ge _ 0 _ _ Hloc). nra.
    - apply (round_nearest_even_le _ _ _ _ Hloc Hx53). }
  split; [exact Hn|].
  (* when the format is above its smallest exponent, the mantissa is full *)
  assert (Hfull : (-1074 < q)%Z -> (4503599627370496 <= n)%Z).
  { intros Hq'. apply (round_nearest_even_ge _ _ _ _ Hloc).
    change 4503599627370496%Z with (2 ^ 52)%Z. rewrite IZR_pow2 by lia.
    assert (q = (k - 53)%Z)
      by (destruct (fexp_cases k) as [[? ?]|[? ?]]; subst q; lia).
    apply Rle_trans with (pow2 (k - 1 + - q)); [apply pow2_le; lia|].
    replace (e - q)%Z with (e + - q)%Z by lia.
    rewrite !pow2_add. pose proof (pow2_pos (- q)). nra. }
  unfold r, binary_round_aux. rewrite Hshr. fold n.
  rewrite (shr_fexp_rounded n q Hq Hn).
  destruct (n =? 9007199254740992)%Z eqn:E.
  - apply Z.eqb_eq in E. cbn [shr_m].
    change (emax - prec)%Z with 971%Z.
    destruct (q + 1 <=? 971)%Z eqn:F.
    + split; [apply valid_binary_53; [reflexivity|apply Z.leb_le in F; lia]|].
      right. left. eexists _, _. split; [reflexivity|].
      unfold W. rewrite E. cbn [of_SF cond_Zopp]. rewrite pow2_succ.
      change 9007199254740992%Z with (2 * 4503599627370496)%Z.
      rewrite mult_IZR. ring.
    + split; [reflexivity|]. right. right. split; [reflexivity|].
      apply Z.leb_gt in F. unfold W. rewrite E.
      change 9007199254740992%Z with (2 ^ 53)%Z. rewrite IZR_pow2 by lia.
      rewrite <- pow2_add. apply pow2_le. lia.
  - apply Z.eqb_neq in E. cbn [shr_m].
    destruct n as [|p|p] eqn:En; [| |lia].
    + split; [reflexivity|].
      left. split; [reflexivity|]. unfold W. rewrite Rmult_0_l. reflexivity.
    + change (emax - prec)%Z with 971%Z.
      destruct (q <=? 971)%Z eqn:F.
      * split.
        { apply Z.leb_le in F.
          assert (Hd : (Z.pos (digits2_pos p) <= 53)%Z).
          { rewrite digits2_pos_size. apply size_le_of_lt; [lia|].
            change (2 ^ 53)%Z with 9007199254740992%Z. lia. }
          destruct (Z.eq_dec q (-1074)) as [Hmin|Hnmin].
          - unfold SpecFloat.valid_binary, SpecFloat.bounded,
              SpecFloat.canonical_mantissa, fexp, SpecFloat.emin.
            apply andb_true_intro. split.
            + apply Z.eqb_eq. unfold prec, emax. lia.
            + apply Z.leb_le. unfold prec, emax. lia.
          - apply valid_binary_53; [|lia].
            assert (H52 : (4503599627370496 <= Z.pos p)%Z) by (apply Hfull; lia).
            assert (52 < Z.pos (digits2_pos p))%Z.
            { rewrite digits2_pos_size. apply size_gt_of_le; [lia|].
              change (2 ^ 52)%Z with 4503599627370496%Z. exact H52. }
            lia. }
        right. left. eexists _, _. split; [reflexivity|]. reflexivity.
      * split; [reflexivity|]. right. right. split; [reflexivity|].
        apply Z.leb_gt in F. unfold W.
        assert (H52 : (4503599627370496 <= Z.pos p)%Z) by (apply Hfull; lia).
        apply IZR_le in H52. revert H52.
        change 4503599627370496%Z with (2 ^ 52)%Z. rewrite IZR_pow2 by lia.
        intros H52.
        apply Rle_trans with (pow2 52 * pow2 q); [|nra].
        rewrite <- pow2_add. apply pow2_le. lia.
Qed.

End RoundPositive.

Section RoundingIsMonotone.

Import Value.
Import Binary64.
Local Open Scope R_scope.

Lemma bounded_inv (m : positive) (e : Z) :
  SpecFloat.bounded prec emax m e = true ->
  fexp prec emax (Z.pos (digits2_pos m) + e) = e /\ (e <= 971)%Z.
Proof.
  unfold SpecFloat.bounded, SpecFloat.canonical_mantissa. intros H.
  apply andb_prop in H. destruct H as [Hc He].
  apply Z.eqb_eq in Hc. apply Z.leb_le in He.
  change (emax - prec)%Z with 971%Z in He. now split.
Qed.

(** A finite Number is below 2^1024. *)
Lemma bounded_below_overflow (m : positive) (e : Z) :
  SpecFloat.bounded prec emax m e = true ->
  IZR (Z.pos m) * pow2 e < pow2 1024.
Proof.
  intros H. destruct (bounded_inv m e H) as [Hc He].
  destruct (digits2_bounds_R m e) as [_ Hhi].
  apply Rlt_le_trans with (1 := Hhi). apply pow2_le.
  pose proof (fexp_ge (Z.pos (digits2_pos m) + e)). lia.
Qed.

(** On positive finite Numbers the comparison of [SFcompare], which looks
    at the exponents first, is the comparison of the numbers denoted. *)
Lemma SFleb_finite_iff (m1 m2 : positive) (e1 e2 : Z) :
  SpecFloat.bounded prec emax m1 e1 = true ->
  SpecFloat.bounded prec emax m2 e2 = true ->
  SFleb (S754_finite false m1 e1) (S754_finite false m2 e2) = true
  <-> IZR (Z.pos m1) * pow2 e1 <= IZR (Z.pos m2) * pow2 e2.
Proof.
  intros H1 H2.
  destruct (bounded_inv m1 e1 H1) as [Hc1 _].
  destruct (bounded_inv m2 e2 H2) as [Hc2 _].
  destruct (digits2_bounds_R m1 e1) as [Hlo1 Hhi1].
  destruct (digits2_bounds_R m2 e2) as [Hlo2 Hhi2].
  set (k1 := (Z.pos (digits2_pos m1) + e1)%Z) in *.
  set (k2 := (Z.pos (digits2_pos m2) + e2)%Z) in *.
  unfold SFleb, SFcompare.
  destruct (Z.compare_spec e1 e2) as [He|He|He].
  - rewrite <- He. pose proof (pow2_pos e1) as Hp.
    change (PosDef.Pos.compare_cont Eq m1 m2) with (Pos.compare m1 m2).
    destruct (Pos.compare_spec m1 m2) as [Hm|Hm|Hm].
    + subst m2. split; [intros _; lra|reflexivity].
    + split; [intros _|reflexivity].
      assert (IZR (Z.pos m1) <= IZR (Z.pos m2)) by (apply IZR_le; lia). nra.
    + split; [discriminate|intros Hle; exfalso].
      assert (IZR (Z.pos m2) < IZR (Z.pos m1)) by (apply IZR_lt; lia). nra.
  - split; [intros _|reflexivity].
    assert (Hk : (k1 < k2)%Z).
    { destruct (Z_lt_le_dec k1 k2) as [|Hge]; [assumption|exfalso].
      pose proof (fexp_mono k2 k1 Hge). lia. }
    apply Rle_trans with (pow2 k1); [lra|].
    apply Rle_trans with (pow2 (k2 - 1)); [apply pow2_le; lia|lra].
  - split; [discriminate|intros Hle; exfalso].
    assert (Hk : (k2 < k1)%Z).
    { destruct (Z_lt_le_dec k2 k1) as [|Hge]; [assumption|exfalso].
      pose proof (fexp_mono k1 k2 Hge). lia. }
    assert (pow2 k2 <= pow2 (k1 - 1)) by (apply pow2_le; lia). lra.
Qed.

(** The rounded number grows with the number rounded, also across a
    change of exponent. *)
Lemma rounded_value_mono (M M' : positive) (e e' m m' : Z) (l l' : location) :
  let q := fexp prec emax (Z.pos (digits2_pos M) + e) in
  let q' := fexp prec emax (Z.pos (digits2_pos M') + e') in
  located m l (IZR (Z.pos M) * pow2 (e - q)) ->
  located m' l' (IZR (Z.pos M') * pow2 (e' - q')) ->
  IZR (Z.pos M) * pow2 e <= IZR (Z.pos M') * pow2 e' ->
  IZR (round_nearest_even m l) * pow2 q
  <= IZR (round_nearest_even m' l') * pow2 q'.
Proof.
  cbv zeta. intros Hloc Hloc' Hle.
  destruct (digits2_bounds_R M e) as [Hlo Hhi].
  destruct (digits2_bounds_R M' e') as [Hlo' Hhi'].
  set (k := (Z.pos (digits2_pos M) + e)%Z) in *.
  set (k' := (Z.pos (digits2_pos M') + e')%Z) in *.
  pose proof (fexp_cases k) as Hck. pose proof (fexp_cases k') as Hck'.
  pose proof (fexp_ge_emin k) as Hmk. pose proof (fexp_ge k) as Hgk.
  set (q := fexp prec emax k) in *.
  set (q' := fexp prec emax k') in *.
  assert (Hk : (k <= k')%Z).
  { destruct (Z_le_gt_dec k k') as [|Hgt]; [assumption|exfalso].
    assert (pow2 k' <= pow2 (k - 1)) by (apply pow2_le; lia). lra. }
  pose proof (fexp_mono k k' Hk) as Hq. fold q q' in Hq.
  pose proof (pow2_pos q) as Hpq. pose proof (pow2_pos q') as Hpq'.
  pose proof (pow2_pos (- q)) as Hnq. pose proof (pow2_pos (- q')) as Hnq'.
  assert (Hx : IZR (Z.pos M) * pow2 (e - q) = IZR (Z.pos M) * pow2 e * pow2 (- q)).
  { replace (e - q)%Z with (e + - q)%Z by lia. rewrite pow2_add. ring. }
  assert (Hx' : IZR (Z.pos M') * pow2 (e' - q')
                = IZR (Z.pos M') * pow2 e' * pow2 (- q')).
  { replace (e' - q')%Z with (e' + - q')%Z by lia. rewrite pow2_add. ring. }
  destruct (Z.eq_dec q q') as [Heq|Hne].
  - rewrite <- Heq in *.
    assert (Hn : (round_nearest_even m l <= round_nearest_even m' l')%Z).
    { apply (round_nearest_even_mono _ _ _ _ _ _ Hloc Hloc').
      rewrite Hx, Hx'. nra. }
    apply IZR_le in Hn. nra.
  - assert (Hlt : (q < q')%Z) by lia.
    assert (Hq' : q' = (k' - 53)%Z) by lia.
    assert (Hkq : (k <= q' + 52)%Z) by lia.
    (* the smaller number rounds to at most 2^(q' + 52) *)
    assert (Hn : (round_nearest_even m l <= 2 ^ (q' + 52 - q))%Z).
    { apply (round_nearest_even_le _ _ _ _ Hloc).
      rewrite IZR_pow2 by lia. rewrite Hx.
      replace (q' + 52 - q)%Z with (q' + 52 + - q)%Z by lia.
      rewrite pow2_add.
      assert (pow2 k <= pow2 (q' + 52)) by (apply pow2_le; lia). nra. }
    (* the larger one to at least 2^(q' + 52) *)
    assert (Hn' : (2 ^ 52 <= round_nearest_even m' l')%Z).
    { apply (round_nearest_even_ge _ _ _ _ Hloc').
      rewrite IZR_pow2 by lia. rewrite Hx'.
      replace 52%Z with (k' - 1 + - q')%Z by lia.
      rewrite pow2_add. nra. }
    apply IZR_le in Hn, Hn'. rewrite IZR_pow2 in Hn, Hn' by lia.
    apply Rle_trans with (pow2 (q' + 52 - q) * pow2 q); [nra|].
    rewrite <- pow2_add. replace (q' + 52 - q + q)%Z with (52 + q')%Z by lia.
    rewrite pow2_add. nra.
Qed.

Lemma rounding_pos (v : R) (r : spec_float) : rounding v r -> 0 < v.
Proof.
  intros (M & e & Hv & _ & _). subst v.
  apply Rmult_lt_0_compat; [apply IZR_lt; lia|apply pow2_pos].
Qed.

Lemma rounding_valid (v : R) (r : spec_float) :
  rounding v r -> valid_binary r = true /\ nn r.
Proof.
  intros (M & e & Hv & Hnorm & Hr).
  destruct (round_positive M e Hnorm) as (m & l & _ & _ & Hvalid & Hcases).
  rewrite <- Hr in Hvalid, Hcases. split; [exact Hvalid|].
  destruct Hcases as [[-> _]|[(m'' & e'' & -> & _)|[-> _]]]; simpl; auto.
Qed.

Lemma nn_leb_infinity (r : spec_float) : nn r -> SFleb r (S754_infinity false) = true.
Proof. destruct r as [s|s| |s m e]; simpl; intros H; subst; try contradiction; reflexivity. Qed.

Lemma zero_leb_nn (s : bool) (r : spec_float) : nn r -> SFleb (S754_zero s) r = true.
Proof. destruct r as [s'|s'| |s' m e]; simpl; intros H; subst; try contradiction; reflexivity. Qed.

Theorem rounding_mono (v v' : R) (r r' : spec_float) :
  rounding v r -> rounding v' r' -> v <= v' -> SFleb r r' = true.
Proof.
  intros (M & e & Hv & Hnorm & Hr) (M' & e' & Hv' & Hnorm' & Hr') Hle.
  destruct (round_positive M e Hnorm) as (m & l & Hloc & _ & Hvalid & Hcases).
  destruct (round_positive M' e' Hnorm') as (m' & l' & Hloc' & _ & Hvalid' & Hcases').
  rewrite <- Hr in Hvalid, Hcases. rewrite <- Hr' in Hvalid', Hcases'.
  subst v v'.
  pose proof (rounded_value_mono M M' e e' m m' l l' Hloc Hloc' Hle) as HW.
  cbv zeta in Hcases, Hcases'.
  set (W := IZR (round_nearest_even m l) * pow2 _) in *.
  set (W' := IZR (round_nearest_even m' l') * pow2 _) in *.
  clearbody W W'. clear Hr Hr' Hloc Hloc'.
  destruct Hcases as [[-> HW0]|[(m1 & e1 & -> & HW1)|[-> HWi]]].
  - apply zero_leb_nn.
    destruct Hcases' as [[-> _]|[(m2 & e2 & -> & _)|[-> _]]]; simpl; auto.
  - assert (Hpos : 0 < W).
    { rewrite <- HW1. cbn [of_SF cond_Zopp].
      apply Rmult_lt_0_compat; [apply IZR_lt; lia|apply pow2_pos]. }
    destruct Hcases' as [[-> HW0']|[(m2 & e2 & -> & HW2)|[-> _]]].
    + exfalso. lra.
    + apply SFleb_finite_iff; try assumption.
      cbn [of_SF cond_Zopp] in HW1, HW2. lra.
    + reflexivity.
  - destruct Hcases' as [[-> HW0']|[(m2 & e2 & -> & HW2)|[-> _]]].
    + exfalso. pose proof (pow2_pos 1024). lra.
    + exfalso. pose proof (bounded_below_overflow m2 e2 Hvalid') as Hb.
      cbn [of_SF cond_Zopp] in HW2. lra.
    + reflexivity.
Qed.

End RoundingIsMonotone.

Section OperationsAreMonotone.

Import Value.
Import Binary64.
Local Open Scope R_scope.

Lemma IZR_iter_xO (d p : positive) :
  IZR (Z.pos (Pos.iter xO p d)) = IZR (Z.pos p) * pow2 (Z.pos d).
Proof.
  induction d as [|d IH] using Pos.peano_ind.
  - cbn [Pos.iter]. rewrite (IZR_xO p), pow2_1. ring.
  - rewrite Pos.iter_succ, (IZR_xO (Pos.iter xO p d)), IH.
    rewrite Pos2Z.inj_succ. unfold Z.succ. rewrite pow2_succ. ring.
Qed.

(** Aligning a mantissa on a smaller exponent keeps the number. *)
Lemma shl_align_value (m : positive) (e e' : Z) :
  (e' <= e)%Z ->
  snd (shl_align m e e') = e' /\
  IZR (Z.pos (fst (shl_align m e e'))) * pow2 e' = IZR (Z.pos m) * pow2 e /\
  (Z.pos (digits2_pos (fst (shl_align m e e'))) + e'
   = Z.pos (digits2_pos m) + e)%Z.
Proof.
  intros Hle. unfold shl_align.
  destruct (e' - e)%Z as [|d|d] eqn:Hd; try lia; cbn [fst snd].
  - assert (e' = e) by lia. subst e'. auto.
  - split; [reflexivity|]. split.
    + rewrite IZR_iter_xO. replace e with (Z.pos d + e')%Z by lia.
      rewrite pow2_add. ring.
    + rewrite digits2_pos_iter_xO. lia.
Qed.

Lemma binary_round_rounding (M : positive) (e : Z) :
  rounding (IZR (Z.pos M) * pow2 e) (binary_round prec emax false M e).
Proof.
  unfold binary_round.
  set (t := fexp prec emax (Z.pos (digits2_pos M) + e)).
  destruct (Z_le_gt_dec t e) as [Hle|Hgt].
  - destruct (shl_align_value M e t Hle) as (Hs & Hv & Hd).
    destruct (shl_align M e t) as [mz ez]. cbn [fst snd] in *. subst ez.
    exists mz, t. split; [now rewrite Hv|]. split; [|reflexivity].
    rewrite Hd. fold t. lia.
  - unfold shl_align.
    destruct (t - e)%Z as [|d|d] eqn:Hd; try lia.
    exists M, e. split; [reflexivity|]. split; [fold t; lia|reflexivity].
Qed.

(** A Number is its own rounding. *)
Lemma rounding_self (m : positive) (e : Z) :
  SpecFloat.bounded prec emax m e = true ->
  rounding (IZR (Z.pos m) * pow2 e) (S754_finite false m e).
Proof.
  intros Hb. destruct (bounded_inv m e Hb) as [Hc He].
  exists m, e. split; [reflexivity|]. split; [lia|].
  assert (Hd : (Z.pos (digits2_pos m) <= 53)%Z).
  { pose proof (fexp_ge (Z.pos (digits2_pos m) + e)). lia. }
  assert (Hm : (Z.pos m < 9007199254740992)%Z).
  { destruct (digits2_bounds m) as [_ Hhi].
    assert (2 ^ Z.pos (digits2_pos m) <= 2 ^ 53)%Z
      by (apply Z.pow_le_mono_r; lia).
    change (2 ^ 53)%Z with 9007199254740992%Z in *. lia. }
  pose proof (fexp_ge_emin (Z.pos (digits2_pos m) + e)) as Hq.
  unfold binary_round_aux.
  assert (Hs : shr_fexp prec emax (Z.pos m) e loc_Exact
               = ({| shr_m := Z.pos m; shr_r := false; shr_s := false |}, e)).
  { unfold shr_fexp, shr. cbn [Zdigits2 shr_record_of_loc]. rewrite Hc.
    rewrite Z.sub_diag. reflexivity. }
  rewrite Hs. cbn [shr_m loc_of_shr_record round_nearest_even].
  rewrite Hs. cbn [shr_m].
  change (emax - prec)%Z with 971%Z.
  replace (e <=? 971)%Z with true by (symmetry; apply Z.leb_le; lia).
  reflexivity.
Qed.

Lemma of_SF_nonneg (a : spec_float) : nn a -> 0 <= of_SF a.
Proof.
  destruct a as [s|s| |s m e]; simpl; intros H; try lra. subst s.
  cbn [cond_Zopp]. pose proof (pow2_pos e).
  assert (0 < IZR (Z.pos m)) by (apply IZR_lt; lia). nra.
Qed.

(** On canonical Numbers [<=] is the order of the numbers denoted. *)
Lemma SFleb_value (a b : spec_float) :
  nnv a -> nnv b -> fin a -> fin b ->
  SFleb a b = true -> of_SF a <= of_SF b.
Proof.
  intros [Ha Hva] [Hb Hvb] Hfa Hfb Hle.
  destruct a as [sa|sa| |sa ma ea], b as [sb|sb| |sb mb eb];
    simpl in Ha, Hb, Hfa, Hfb; try contradiction; subst.
  - simpl. lra.
  - apply (of_SF_nonneg (S754_finite false mb eb)). reflexivity.
  - discriminate.
  - cbn [of_SF cond_Zopp]. now apply SFleb_finite_iff.
Qed.

Lemma SFleb_fin (a b : spec_float) :
  nn a -> fin b -> SFleb a b = true -> fin a.
Proof.
  destruct a as [sa|sa| |sa ma ea], b as [sb|sb| |sb mb eb];
    simpl; intros Ha Hb Hle; subst; try contradiction; try exact I;
    try discriminate; destruct sb; discriminate.
Qed.

(** The sum of two finite Numbers is the rounding of the sum. *)
Lemma SF64add_rounding (a b : spec_float) :
  nnv a -> nnv b -> fin a -> fin b ->
  (of_SF a + of_SF b = 0 /\ exists s, SF64add a b = S754_zero s) \/
  rounding (of_SF a + of_SF b) (SF64add a b).
Proof.
  intros [Ha Hva] [Hb Hvb] Hfa Hfb.
  destruct a as [sa|sa| |sa ma ea], b as [sb|sb| |sb mb eb];
    simpl in Ha, Hb, Hfa, Hfb; try contradiction; subst.
  - left. split; [simpl; lra|]. destruct sa, sb; eexists; reflexivity.
  - right. cbn [SF64add SFadd of_SF cond_Zopp]. rewrite Rplus_0_l.
    now apply rounding_self.
  - right. cbn [SF64add SFadd of_SF cond_Zopp]. rewrite Rplus_0_r.
    now apply rounding_self.
  - right. unfold SF64add, SFadd. cbn [cond_Zopp of_SF].
    set (ez := IntDef.Z.min ea eb).
    assert (Hez : ez = Z.min ea eb) by reflexivity.
    destruct (shl_align_value ma ea ez ltac:(lia)) as (_ & Hv1 & _).
    destruct (shl_align_value mb eb ez ltac:(lia)) as (_ & Hv2 & _).
    change (Z.pos (fst (shl_align ma ea ez)) + Z.pos (fst (shl_align mb eb ez)))%Z
      with (Z.pos (fst (shl_align ma ea ez) + fst (shl_align mb eb ez))).
    cbn [binary_normalize].
    replace (IZR (Z.pos ma) * pow2 ea + IZR (Z.pos mb) * pow2 eb)
      with (IZR (Z.pos (fst (shl_align ma ea ez) + fst (shl_align mb eb ez)))
            * pow2 ez).
    + apply binary_round_rounding.
    + rewrite Pos2Z.inj_add, plus_IZR, Rmult_plus_distr_r, Hv1, Hv2.
      reflexivity.
Qed.

Lemma SF64add_infinity_r (a : spec_float) :
  nn a -> SF64add a (S754_infinity false) = S754_infinity false.
Proof. destruct a as [s|s| |s m e]; simpl; intros H; subst; try contradiction; reflexivity. Qed.

Lemma SF64add_infinity_l (a : spec_float) :
  nn a -> SF64add (S754_infinity false) a = S754_infinity false.
Proof. destruct a as [s|s| |s m e]; simpl; intros H; subst; try contradiction; reflexivity. Qed.

Lemma nn_cases (a : spec_float) :
  nn a -> fin a \/ a = S754_infinity false.
Proof.
  destruct a as [s|s| |s m e]; simpl; intros H; subst; try contradiction; auto.
Qed.

(** Addition is monotone in both arguments. *)
Theorem SF64add_mono (a a' b b' : spec_float) :
  nnv a -> nnv a' -> nnv b -> nnv b' ->
  SFleb a a' = true -> SFleb b b' = true ->
  SFleb (SF64add a b) (SF64add a' b') = true.
Proof.
  intros Ha Ha' Hb Hb' Hle1 Hle2.
  pose proof (SF64add_nn a b (proj1 Ha) (proj1 Hb)) as Hn.
  pose proof (SF64add_nn a' b' (proj1 Ha') (proj1 Hb')) as Hn'.
  destruct (nn_cases a' (proj1 Ha')) as [Hfa'| -> ];
    [|rewrite (SF64add_infinity_l b' (proj1 Hb')); now apply nn_leb_infinity].
  destruct (nn_cases b' (proj1 Hb')) as [Hfb'| -> ];
    [|rewrite (SF64add_infinity_r a' (proj1 Ha')); now apply nn_leb_infinity].
  pose proof (SFleb_fin a a' (proj1 Ha) Hfa' Hle1) as Hfa.
  pose proof (SFleb_fin b b' (proj1 Hb) Hfb' Hle2) as Hfb.
  pose proof (SFleb_value a a' Ha Ha' Hfa Hfa' Hle1) as Hv1.
  pose proof (SFleb_value b b' Hb Hb' Hfb Hfb' Hle2) as Hv2.
  destruct (SF64add_rounding a b Ha Hb Hfa Hfb) as [[_ [s ->]]|Hr];
    [now apply zero_leb_nn|].
  destruct (SF64add_rounding a' b' Ha' Hb' Hfa' Hfb') as [[Hz _]|Hr'].
  - exfalso. pose proof (rounding_pos _ _ Hr). lra.
  - apply (rounding_mono _ _ _ _ Hr Hr'). lra.
Qed.

Lemma SF64add_nnv (a b : spec_float) :
  nnv a -> nnv b -> nnv (SF64add a b).
Proof.
  intros Ha Hb. split; [apply SF64add_nn; [apply Ha|apply Hb]|].
  destruct (nn_cases a (proj1 Ha)) as [Hfa| -> ];
    [|now rewrite (SF64add_infinity_l b (proj1 Hb))].
  destruct (nn_cases b (proj1 Hb)) as [Hfb| -> ];
    [|now rewrite (SF64add_infinity_r a (proj1 Ha))].
  destruct (SF64add_rounding a b Ha Hb Hfa Hfb) as [[_ [s ->]]|Hr];
    [reflexivity|]. now apply (rounding_valid _ _ Hr).
Qed.

(** The product of two positive Numbers is the rounding of the product. *)
Lemma SF64mul_rounding (ma mb : positive) (ea eb : Z) :
  SpecFloat.bounded prec emax ma ea = true ->
  SpecFloat.bounded prec emax mb eb = true ->
  rounding (IZR (Z.pos ma) * pow2 ea * (IZR (Z.pos mb) * pow2 eb))
           (SF64mul (S754_finite false ma ea) (S754_finite false mb eb)).
Proof.
  intros Ha Hb.
  destruct (bounded_inv ma ea Ha) as [Hca Hea].
  destruct (bounded_inv mb eb Hb) as [Hcb Heb].
  exists (ma * mb)%positive, (ea + eb)%Z.
  split; [rewrite Pos2Z.inj_mul, mult_IZR, pow2_add; ring|].
  split; [|reflexivity].
  destruct (digits2_bounds ma) as [Hla _]. destruct (digits2_bounds mb) as [Hlb _].
  assert (Hd : (Z.pos (digits2_pos ma) + Z.pos (digits2_pos mb) - 1
                <= Z.pos (digits2_pos (ma * mb)))%Z).
  { assert (H : (Z.pos (digits2_pos ma) + Z.pos (digits2_pos mb) - 2
                 < Z.pos (digits2_pos (ma * mb)))%Z); [|lia].
    rewrite (digits2_pos_size (ma * mb)). apply size_gt_of_le; [lia|].
    replace (Z.pos (digits2_pos ma) + Z.pos (digits2_pos mb) - 2)%Z
      with ((Z.pos (digits2_pos ma) - 1) + (Z.pos (digits2_pos mb) - 1))%Z by lia.
    rewrite Z.pow_add_r by lia. rewrite Pos2Z.inj_mul.
    apply Z.mul_le_mono_nonneg; try lia;
      apply Z.pow_nonneg; lia. }
  pose proof (fexp_cases (Z.pos (digits2_pos ma) + ea)) as Hka.
  pose proof (fexp_cases (Z.pos (digits2_pos mb) + eb)) as Hkb.
  pose proof (fexp_ge (Z.pos (digits2_pos (ma * mb)) + (ea + eb))) as Hg.
  pose proof (fexp_ge_emin (Z.pos (digits2_pos (ma * mb)) + (ea + eb))) as Hm.
  lia.
Qed.

Lemma SF64mul_mono_l (a a' c : spec_float) :
  nnv a -> nnv a' -> posfin c -> valid_binary c = true ->
  SFleb a a' = true ->
  SFleb (SF64mul a c) (SF64mul a' c) = true.
Proof.
  intros Ha Ha' Hc Hvc Hle.
  destruct c as [sc|sc| |[|] mc ec]; try contradiction.
  pose proof (SF64mul_nn_posfin a _ (proj1 Ha) Hc) as Hn.
  pose proof (SF64mul_nn_posfin a' _ (proj1 Ha') Hc) as Hn'.
  destruct (nn_cases a' (proj1 Ha')) as [Hfa'| -> ];
    [|now apply nn_leb_infinity].
  pose proof (SFleb_fin a a' (proj1 Ha) Hfa' Hle) as Hfa.
  pose proof (SFleb_value a a' Ha Ha' Hfa Hfa' Hle) as Hv.
  destruct Ha as [Hna Hva], Ha' as [Hna' Hva'].
  destruct a as [sa|sa| |sa ma ea]; simpl in Hna, Hfa; try contradiction.
  - now apply zero_leb_nn.
  - subst sa. destruct a' as [sa'|sa'| |sa' ma' ea'];
      simpl in Hna', Hfa'; try contradiction.
    + discriminate.
    + subst sa'.
      apply (rounding_mono _ _ _ _ (SF64mul_rounding ma mc ea ec Hva Hvc)
                                   (SF64mul_rounding ma' mc ea' ec Hva' Hvc)).
      cbn [of_SF cond_Zopp] in Hv.
      assert (0 < IZR (Z.pos mc) * pow2 ec)
        by (apply Rmult_lt_0_compat; [apply IZR_lt; lia|apply pow2_pos]).
      nra.
Qed.

End OperationsAreMonotone.

Section ScoreStage.

Import Value.
Import Binary64.
Import Spec.
Local Open Scope R_scope.

(** [Math.round] on a positive Number with a fractional part: the integer
    quotient in [JS.round] is [floor(v + 1/2)]. *)
Lemma round_quotient_floor (m : positive) (e : Z) :
  (e < 0)%Z ->
  ((2 * Z.pos m + 2 ^ (- e)) / 2 ^ (1 - e))%Z
  = Zfloor (IZR (Z.pos m) * pow2 e + / 2).
Proof.
  intros He. symmetry. apply Zfloor_eq.
  assert (Hk : (0 < 2 ^ (- e))%Z) by (apply Z.pow_pos_nonneg; lia).
  assert (Hk2 : (2 ^ (1 - e) = 2 * 2 ^ (- e))%Z).
  { replace (1 - e)%Z with (1 + - e)%Z by lia.
    rewrite Z.pow_add_r by lia. reflexivity. }
  rewrite Hk2.
  set (a := (2 * Z.pos m + 2 ^ (- e))%Z).
  set (b := (2 * 2 ^ (- e))%Z).
  assert (Hb : (0 < b)%Z) by (unfold b; lia).
  pose proof (Z.div_mod a b ltac:(lia)) as Hdiv.
  pose proof (Z.mod_pos_bound a b Hb) as Hmod.
  assert (Ha : IZR a = IZR b * IZR (a / b) + IZR (a mod b)).
  { rewrite <- mult_IZR, <- plus_IZR. now f_equal. }
  assert (Hr0 : 0 <= IZR (a mod b)) by (apply IZR_le; lia).
  assert (Hr1 : IZR (a mod b) + 1 <= IZR b).
  { rewrite <- plus_IZR. apply IZR_le. lia. }
  assert (HP : IZR (2 ^ (- e)) = pow2 (- e)) by (apply IZR_pow2; lia).
  pose proof (pow2_inv e) as Hinv. pose proof (pow2_pos e) as Hpe.
  pose proof (pow2_pos (- e)) as Hpn.
  assert (Hbv : IZR b = 2 * pow2 (- e)).
  { unfold b. rewrite mult_IZR, HP. reflexivity. }
  assert (Hav : IZR a = IZR b * (IZR (Z.pos m) * pow2 e + / 2)).
  { unfold a. rewrite plus_IZR, mult_IZR, HP, Hbv.
    transitivity (2 * IZR (Z.pos m) * (pow2 e * pow2 (- e)) + pow2 (- e));
      [rewrite Hinv; ring|field]. }
  assert (Hbpos : 0 < IZR b) by (rewrite Hbv; lra).
  set (v := IZR (Z.pos m) * pow2 e + / 2) in *.
  set (n := IZR (a / b)) in *. set (r := IZR (a mod b)) in *.
  split; nra.
Qed.

Lemma of_Z_signed_1 : JS.of_Z_signed 1 false = 1%float.
Proof. reflexivity. Qed.

Lemma of_Z_signed_10 : JS.of_Z_signed 10 false = 10%float.
Proof. reflexivity. Qed.

(** The clamp of a rounded integer is the integer clamped. *)
Lemma clamp_of_Z (n : Z) :
  (0 <= n < 9007199254740992)%Z ->
  JS.min 10 (JS.max 1 (JS.of_Z_signed n false))
  = JS.of_Z_signed (clamp_1_10 n) false.
Proof.
  intros Hn. destruct (Z_lt_le_dec n 16) as [Hlt|Hge].
  - rewrite <- (Z2Nat.id n) by lia.
    assert (Hk : (Z.to_nat n < 16)%nat) by lia.
    revert Hk. generalize (Z.to_nat n) as k. intros k Hk.
    do 16 (destruct k as [|k]; [vm_compute; reflexivity|]).
    lia.
  - destruct n as [|p|p]; try lia.
    rewrite clamp_of_Z_large; [| lia |].
    + unfold clamp_1_10. replace (Z.min 10 (Z.max 1 (Z.pos p))) with 10%Z by lia.
      reflexivity.
    + assert (Z.pos (digits2_pos p) <= 53)%Z; [|lia].
      rewrite digits2_pos_size. apply size_le_of_lt; [lia|].
      change (2 ^ 53)%Z with 9007199254740992%Z. lia.
Qed.

(** [Math.min(10, Math.max(1, Math.round(c)))] on a finite Number that is
    not negative: the number is rounded half up and clamped, exactly. *)
Lemma clamp_round_value (c : float) :
  nn (Prim2SF c) -> fin (Prim2SF c) ->
  JS.min 10 (JS.max 1 (JS.round c))
  = JS.of_Z_signed (clamp_1_10 (Zfloor (of_float c + / 2))) false.
Proof.
  intros Hc Hf. pose proof (Prim2SF_valid c) as Hv.
  unfold JS.round, of_float.
  destruct (Prim2SF c) as [s|s| |s m e] eqn:Ec; simpl in Hc, Hf;
    try contradiction.
  - rewrite (clamp_zero c s Ec). cbn [of_SF].
    replace (Zfloor (0 + / 2)) with 0%Z; [reflexivity|].
    symmetry. apply Zfloor_eq. simpl. lra.
  - subst s. cbn [of_SF cond_Zopp].
    destruct (bounded_inv m e Hv) as [Hcan He971].
    destruct (digits2_bounds_R m e) as [Hlo Hhi].
    pose proof (fexp_cases (Z.pos (digits2_pos m) + e)) as Hk.
    destruct (0 <=? e)%Z eqn:He.
    + apply Z.leb_le in He. rewrite (clamp_large c m e Ec) by lia.
      assert (H10 : (10 <= Zfloor (IZR (Z.pos m) * pow2 e + / 2))%Z).
      { apply Zfloor_lub.
        assert (pow2 4 <= pow2 (Z.pos (digits2_pos m) + e - 1))
          by (apply pow2_le; lia).
        assert (pow2 4 = 16) by (unfold pow2; simpl; lra). lra. }
      unfold clamp_1_10.
      replace (Z.min 10 (Z.max 1 (Zfloor (IZR (Z.pos m) * pow2 e + / 2))))
        with 10%Z by lia.
      reflexivity.
    + apply Z.leb_gt in He.
      rewrite (round_quotient_floor m e He).
      apply clamp_of_Z.
      pose proof (round_quotient_bounds m e He) as Hq.
      rewrite (round_quotient_floor m e He) in Hq.
      destruct (digits2_bounds m) as [_ Hm].
      assert (2 ^ Z.pos (digits2_pos m) <= 2 ^ 53)%Z
        by (apply Z.pow_le_mono_r; lia).
      change (2 ^ 53)%Z with 9007199254740992%Z in *. lia.
Qed.

Lemma clamp_1_10_mono (a b : Z) :
  (a <= b)%Z -> (clamp_1_10 a <= clamp_1_10 b)%Z.
Proof. unfold clamp_1_10. lia. Qed.

Lemma clamp_1_10_range (a : Z) : (1 <= clamp_1_10 a <= 10)%Z.
Proof. unfold clamp_1_10. lia. Qed.

Local Open Scope float_scope.

(** The Numbers 1 to 10 in their order. *)
Lemma of_Z_score_mono (a b : Z) :
  (1 <= a)%Z -> (a <= b)%Z -> (b <= 10)%Z ->
  (JS.of_Z_signed a false <=? JS.of_Z_signed b false) = true.
Proof.
  intros H1 Hab H10. rewrite <- (Z2Nat.id a), <- (Z2Nat.id b) by lia.
  assert (Ha : (Z.to_nat a <= Z.to_nat b)%nat) by lia.
  assert (Hb : (Z.to_nat b <= 10)%nat) by lia.
  revert Ha Hb. generalize (Z.to_nat a) as i, (Z.to_nat b) as j. intros i j Ha Hb.
  do 11 (destruct j as [|j];
         [do 11 (destruct i as [|i]; [first [lia | vm_compute; reflexivity]|]); lia|]).
  lia.
Qed.

Lemma of_Z_clamp_is_score (n : Z) : is_score (JS.of_Z_signed (clamp_1_10 n) false).
Proof.
  pose proof (clamp_1_10_range n) as H.
  rewrite <- (Z2Nat.id (clamp_1_10 n)) by lia.
  assert (Hk : (1 <= Z.to_nat (clamp_1_10 n) <= 10)%nat) by lia.
  revert Hk. generalize (Z.to_nat (clamp_1_10 n)) as k. intros k Hk.
  unfold is_score.
  do 11 (destruct k as [|k]; [first [lia | vm_compute; auto 12]|]). lia.
Qed.

Lemma is_score_le_10 (s : float) : is_score s -> (s <=? 10) = true.
Proof.
  unfold is_score. simpl.
  intros [H|[H|[H|[H|[H|[H|[H|[H|[H|[H|[]]]]]]]]]]]; subst s; reflexivity.
Qed.

(** Rounding and clamping keep the order. *)
Theorem clamp_round_mono (c c' : float) :
  nn (Prim2SF c) -> nn (Prim2SF c') -> (c <=? c') = true ->
  (JS.min 10 (JS.max 1 (JS.round c)) <=? JS.min 10 (JS.max 1 (JS.round c'))) = true.
Proof.
  intros Hc Hc' Hle. rewrite leb_spec in Hle.
  destruct (nn_cases _ Hc') as [Hf'|Hinf].
  - pose proof (SFleb_fin _ _ Hc Hf' Hle) as Hf.
    rewrite (clamp_round_value c Hc Hf), (clamp_round_value c' Hc' Hf').
    apply of_Z_score_mono.
    + apply clamp_1_10_range.
    + apply clamp_1_10_mono, Zfloor_le.
      pose proof (SFleb_value _ _ (conj Hc (Prim2SF_valid c))
                    (conj Hc' (Prim2SF_valid c')) Hf Hf' Hle) as Hv.
      unfold of_float. lra.
    + apply clamp_1_10_range.
  - assert (H10 : JS.min 10 (JS.max 1 (JS.round c')) = 10).
    { unfold JS.round. rewrite Hinf. now apply clamp_infinity. }
    rewrite H10. apply is_score_le_10. now apply clamp_round_is_score.
Qed.

End ScoreStage.

Section NumbersInOrder.

Import Value.
Import Binary64.
Import Spec.
Local Open Scope float_scope.

Lemma nnv_Prim2SF (a : float) : nn (Prim2SF a) -> nnv (Prim2SF a).
Proof. intros H. split; [exact H|apply Prim2SF_valid]. Qed.

Lemma add_mono (a a' b b' : float) :
  nn (Prim2SF a) -> nn (Prim2SF a') -> nn (Prim2SF b) -> nn (Prim2SF b') ->
  (a <=? a') = true -> (b <=? b') = true -> (a + b <=? a' + b') = true.
Proof.
  intros Ha Ha' Hb Hb'. rewrite !leb_spec, !add_spec.
  apply SF64add_mono; now apply nnv_Prim2SF.
Qed.

Lemma mul_mono_literal (a a' c : float) :
  nn (Prim2SF a) -> nn (Prim2SF a') -> posfin (Prim2SF c) ->
  (a <=? a') = true -> (a * c <=? a' * c) = true.
Proof.
  intros Ha Ha' Hc. rewrite !leb_spec, !mul_spec.
  apply SF64mul_mono_l; try now apply nnv_Prim2SF.
  - exact Hc.
  - apply Prim2SF_valid.
Qed.



(** [array.length] as a Number. *)
Lemma Prim2SF_of_nat (n : nat) :
  Prim2SF (JS.of_nat n) = binary_normalize prec emax (Z.of_nat n) 0 false.
Proof.
  unfold JS.of_nat, JS.of_Z_signed. apply Prim2SF_SF2Prim.
  destruct (Z.of_nat n) as [|p|p] eqn:E; try lia; [reflexivity|].
  cbn [binary_normalize].
  apply (rounding_valid _ _ (binary_round_rounding p 0)).
Qed.

Lemma of_nat_nn_any (n : nat) : nn (Prim2SF (JS.of_nat n)).
Proof.
  rewrite Prim2SF_of_nat.
  destruct (Z.of_nat n) as [|p|p] eqn:E; try lia; [exact I|].
  cbn [binary_normalize].
  apply (rounding_valid _ _ (binary_round_rounding p 0)).
Qed.

Lemma of_nat_le (i j : nat) :
  (i <= j)%nat -> (JS.of_nat i <=? JS.of_nat j) = true.
Proof.
  intros Hij. rewrite leb_spec. pose proof (of_nat_nn_any j) as Hn.
  rewrite !Prim2SF_of_nat in *.
  destruct (Z.of_nat i) as [|p|p] eqn:E; try lia.
  - now apply zero_leb_nn.
  - destruct (Z.of_nat j) as [|p'|p'] eqn:E'; try lia.
    cbn [binary_normalize].
    apply (rounding_mono _ _ _ _ (binary_round_rounding p 0)
                                 (binary_round_rounding p' 0)).
    assert (IZR (Z.pos p) <= IZR (Z.pos p'))%R by (apply IZR_le; lia).
    rewrite pow2_0. lra.
Qed.

Lemma zero_leb (a : float) : nn (Prim2SF a) -> (0 <=? a) = true.
Proof. intros Ha. rewrite leb_spec. now apply zero_leb_nn. Qed.

End NumbersInOrder.

(** ** The complexity score and the number of positions *)

Section ComplexityInOrder.

Import Value.
Import Binary64.
Import Spec.
Local Open Scope float_scope.






(** The parts of the score before rounding, for finite positions and 1 to
    10 finite timestamps: none is NaN or negative. *)
Lemma rawComplexity_parts_nn (pos : list (Position float)) (ts : list float) :
  forallb finite_position pos = true ->
  (1 <= List.length ts <= 10)%nat -> forallb is_finite ts = true ->
  nn (Prim2SF (1 + JS.of_nat (List.length pos) * 0.5)) /\
  nn (Prim2SF (totalDistance pos * 0.1)) /\
  nn (Prim2SF (timeVariance ts * 0.01)).
Proof.
  intros Hpos Hlen Hts. split; [|split].
  - apply add_nn; [exact eq_refl|].
    apply mul_nn_literal; [apply of_nat_nn_any|exact I].
  - apply mul_nn_literal; [now apply totalDistance_nn|exact I].
  - apply mul_nn_literal; [now apply timeVariance_nn|exact I].
Qed.

Lemma rawComplexity_unfold (g : GestureData float) :
  rawComplexity g
  = 1 + JS.of_nat (List.length (positions g)) * 0.5
    + totalDistance (positions g) * 0.1
    + timeVariance (timing g) * 0.01.
Proof. reflexivity. Qed.

Lemma rawComplexity_nn_any (g : GestureData float) :
  forallb finite_position (positions g) = true ->
  (1 <= List.length (timing g) <= 10)%nat ->
  forallb is_finite (timing g) = true ->
  nn (Prim2SF (rawComplexity g)).
Proof.
  intros Hpos Hlen Hts.
  destruct (rawComplexity_parts_nn _ _ Hpos Hlen Hts) as (H1 & H2 & H3).
  rewrite rawComplexity_unfold. apply add_nn; [apply add_nn|]; assumption.
Qed.





Lemma is_score_ge_10 (s : float) : is_score s -> (10 <=? s) = true -> s = 10.
Proof.
  unfold is_score. simpl.
  intros [H|[H|[H|[H|[H|[H|[H|[H|[H|[H|[]]]]]]]]]]]; subst s;
    first [reflexivity | discriminate].
Qed.

(** The score of a capture of [k] positions at rest at one timestamp is
    not above the score of any capture of at least [k] positions. *)
Lemma calculateComplexity_ge_count (g : GestureData float) (k : nat) :
  forallb finite_position (positions g) = true ->
  (1 <= List.length (timing g) <= 10)%nat ->
  forallb is_finite (timing g) = true ->
  (k <= List.length (positions g))%nat ->
  (JS.min 10 (JS.max 1 (JS.round (1 + JS.of_nat k * 0.5 + 0 + 0)))
   <=? calculateComplexity g) = true.
Proof.
  intros Hpos Hlen Hts Hk.
  destruct (rawComplexity_parts_nn _ _ Hpos Hlen Hts) as (H1 & H2 & H3).
  assert (Hk1 : nn (Prim2SF (1 + JS.of_nat k * 0.5))).
  { apply add_nn; [exact eq_refl|].
    apply mul_nn_literal; [apply of_nat_nn_any|exact I]. }
  apply clamp_round_mono.
  - apply add_nn; [apply add_nn|]; try assumption; exact I.
  - now apply rawComplexity_nn_any.
  - rewrite rawComplexity_unfold.
    apply add_mono; try assumption; try exact I;
      try (apply add_nn; try assumption; exact I); [|now apply zero_leb].
    apply add_mono; try assumption; try exact I; [|now apply zero_leb].
    apply add_mono; try exact eq_refl;
      try (apply mul_nn_literal; [apply of_nat_nn_any|exact I]).
    apply mul_mono_literal; try apply of_nat_nn_any; [exact I|].
    now apply of_nat_le.
Qed.

(** X24.  The number of positions alone sets a floor under the score:
    with finite coordinates and 1 to 10 finite timestamps, 3 or more
    positions score at least 3, 10 or more at least 6, and 18 or more
    score 10. *)
Theorem complexity_floor_from_position_count :
  forall g : GestureData float,
    forallb finite_position (positions g) = true ->
    (1 <= List.length (timing g) <= 10)%nat ->
    forallb is_finite (timing g) = true ->
    ((3 <= List.length (positions g))%nat ->
       (3 <=? calculateComplexity g) = true) /\
    ((10 <= List.length (positions g))%nat ->
       (6 <=? calculateComplexity g) = true) /\
    ((18 <= List.length (positions g))%nat -> calculateComplexity g = 10).
Proof.
  intros g Hpos Hlen Hts. split; [|split]; intros Hk.
  - apply (calculateComplexity_ge_count g 3 Hpos Hlen Hts Hk).
  - apply (calculateComplexity_ge_count g 10 Hpos Hlen Hts Hk).
  - apply is_score_ge_10.
    + apply clamp_round_is_score. now apply rawComplexity_nn_any.
    + apply (calculateComplexity_ge_count g 18 Hpos Hlen Hts Hk).
Qed.

Lemma complexity_floor_from_position_count_witness :
  (3 <=? calculateComplexity ScenarioAuth.three_frames) = true.
Proof.
  assert (Hlen : (1 <= List.length (timing ScenarioAuth.three_frames) <= 10)%nat)
    by (simpl; lia).
  destruct (complexity_floor_from_position_count ScenarioAuth.three_frames
              eq_refl Hlen eq_refl) as (H3 & _ & _).
  apply H3. simpl. lia.
Defined.

End ComplexityInOrder.

(** ** The complexity score and the formula of section 4.2 *)

Section ComplexityFormula.

Import Value.
Import Binary64.
Import Spec.
Local Open Scope float_scope.

Lemma SF64mul_comm (a b : spec_float) : SF64mul a b = SF64mul b a.
Proof.
  destruct a as [sa|sa| |sa ma ea], b as [sb|sb| |sb mb eb]; simpl;
    try reflexivity; try (now rewrite xorb_comm).
  now rewrite xorb_comm, Pos.mul_comm, Z.add_comm.
Qed.

Lemma mul_comm (a b : float) : a * b = b * a.
Proof.
  apply Prim2SF_inj. rewrite !mul_spec. apply SF64mul_comm.
Qed.


Lemma distance64_distance3D (a b : Position float) :
  distance64 a b = distance3D a b.
Proof. reflexivity. Qed.











End ComplexityFormula.


(** ** The security manager: threat level, attempts and locks *)

Section MapDelete.

Context {V : Type}.

Lemma get_delete_same (m : JSMap.t V) (key : string) :
  JSMap.get (JSMap.delete m key) key = None.
Proof.
  unfold JSMap.delete. induction m as [|[k v] m IH]; simpl; [reflexivity|].
  destruct (String.eqb k key) eqn:E; simpl; [exact IH|]. now rewrite E.
Qed.

Lemma get_delete_other (m : JSMap.t V) (key other : string) :
  key <> other ->
  JSMap.get (JSMap.delete m key) other = JSMap.get m other.
Proof.
  intros Hne. unfold JSMap.delete.
  induction m as [|[k v] m IH]; simpl; [reflexivity|].
  destruct (String.eqb k key) eqn:E; simpl.
  - apply String.eqb_eq in E. subst k.
    apply String.eqb_neq in Hne. now rewrite Hne.
  - now rewrite IH.
Qed.

Lemma get_In (m : JSMap.t V) (key : string) (value : V) :
  JSMap.wf m -> In (key, value) m -> JSMap.get m key = Some value.
Proof.
  unfold JSMap.wf. induction m as [|[k v] m IH]; simpl; intros Hwf Hin.
  - contradiction.
  - inversion Hwf as [|? ? Hnotin Hwf']; subst.
    destruct Hin as [Heq|Hin].
    + inversion Heq; subst. now rewrite String.eqb_refl.
    + destruct (String.eqb k key) eqn:E; [|now apply IH].
      apply String.eqb_eq in E. subst k. elim Hnotin.
      apply in_map_iff. now exists (key, value).
Qed.

Lemma get_None_notin (m : JSMap.t V) (key : string) :
  ~ In key (map fst m) -> JSMap.get m key = None.
Proof.
  induction m as [|[k v] m IH]; simpl; intros Hn; [reflexivity|].
  destruct (String.eqb k key) eqn:E.
  - apply String.eqb_eq in E. subst k. elim Hn. now left.
  - apply IH. intros H. apply Hn. now right.
Qed.

End MapDelete.

Section MonitorProperties.

Import Monitor.

Lemma recordSecurityEvent_length (this : Manager) (eventType : string)
    (d : list (string * Value)) (now : Z) :
  (List.length (securityEvents (recordSecurityEvent this eventType d now))
   <= 1000)%nat.
Proof.
  unfold recordSecurityEvent. cbn [securityEvents set_securityEvents].
  set (events := securityEvents this ++ _).
  destruct (1000 <? List.length events)%nat eqn:E.
  - apply Nat.ltb_lt in E. rewrite length_skipn. lia.
  - now apply Nat.ltb_ge in E.
Qed.

Lemma indexOf_from_bounds (value : string) :
  forall (l : list string) (i : Z),
    indexOf_from l value i = -1 \/
    i <= indexOf_from l value i < i + Z.of_nat (List.length l).
Proof.
  induction l as [|v l IH]; intros i; simpl; [now left|].
  destruct (String.eqb v value); [right; lia|].
  destruct (IH (i + 1)) as [H|H]; [now left | right; lia].
Qed.

Lemma raiseThreatLevel_index (this : Manager) (level : string) (now : Z) :
  threatIndex (raiseThreatLevel this level now)
  = Z.max (threatIndex this) (indexOf levels level).
Proof.
  unfold threatIndex, raiseThreatLevel.
  destruct (indexOf levels (currentThreatLevel this) <? indexOf levels level)
    eqn:E.
  - apply Z.ltb_lt in E. unfold recordSecurityEvent.
    cbn [currentThreatLevel set_securityEvents set_threatLevel]. lia.
  - apply Z.ltb_ge in E. lia.
Qed.

Lemma raiseThreatLevel_length (this : Manager) (level : string) (now : Z) :
  (List.length (securityEvents this) <= 1000)%nat ->
  (List.length (securityEvents (raiseThreatLevel this level now)) <= 1000)%nat.
Proof.
  intros H. unfold raiseThreatLevel.
  destruct (_ <? _); [apply recordSecurityEvent_length | exact H].
Qed.

Lemma unlockAccount_fold (now : Z) :
  forall (dueNow : list Timer) (this : Manager),
    let after :=
      fold_left (fun this timer => unlockAccount this (unlocks timer) now)
                dueNow this in
    currentThreatLevel after = currentThreatLevel this /\
    maxLoginAttempts after = maxLoginAttempts this /\
    lockoutDuration after = lockoutDuration this /\
    timers after = timers this /\
    ((List.length (securityEvents this) <= 1000)%nat ->
     (List.length (securityEvents after) <= 1000)%nat) /\
    (forall userId,
        JSMap.get (failedAttempts after) userId
        = if existsb (fun timer => String.eqb (unlocks timer) userId) dueNow
          then None
          else JSMap.get (failedAttempts this) userId).
Proof.
  induction dueNow as [|timer dueNow IH]; intros this; cbn [fold_left existsb].
  - repeat split; auto.
  - specialize (IH (unlockAccount this (unlocks timer) now)).
    cbv zeta in IH. destruct IH as (Hl & Hm & Hd & Ht & He & Hg).
    repeat split; try assumption.
    + intros _. apply He. apply recordSecurityEvent_length.
    + intros userId. rewrite Hg. cbn [orb].
      destruct (existsb _ dueNow); [now rewrite orb_true_r|].
      rewrite orb_false_r.
      unfold unlockAccount, recordSecurityEvent.
      cbn [failedAttempts set_securityEvents set_failedAttempts].
      destruct (String.eqb (unlocks timer) userId) eqn:E.
      * apply String.eqb_eq in E. subst userId. apply get_delete_same.
      * apply String.eqb_neq in E. now apply get_delete_other.
Qed.

Lemma call_threatIndex (this : Manager) (c : Call) (now : Z) :
  threatIndex (call this c now)
  = match c with
    | SuspiciousActivity activity =>
        if String.eqb (severity activity) "high"
        then Z.max (threatIndex this) 2
        else if String.eqb (severity activity) "medium"
             then Z.max (threatIndex this) 1
             else threatIndex this
    | RaiseThreatLevel level => Z.max (threatIndex this) (indexOf levels level)
    | _ => threatIndex this
    end.
Proof.
  destruct c as [activity|attemptData|level|eventType d| |]; cbn [call].
  - unfold handleSuspiciousActivity.
    destruct (String.eqb (severity activity) "high");
      [now rewrite raiseThreatLevel_index|].
    destruct (String.eqb (severity activity) "medium");
      [now rewrite raiseThreatLevel_index|].
    reflexivity.
  - unfold recordFailedAttempt, lockAccount. destruct (_ <=? _); reflexivity.
  - apply raiseThreatLevel_index.
  - reflexivity.
  - unfold runTimers, threatIndex.
    destruct (unlockAccount_fold now
                (filter (fun timer => due timer <=? now) (timers this))
                (set_timers this
                   (filter (fun timer => negb (due timer <=? now)) (timers this))))
      as (Hl & _). cbv zeta in Hl. now rewrite Hl.
  - reflexivity.
Qed.

Lemma call_log_bound (this : Manager) (c : Call) (now : Z) :
  (List.length (securityEvents this) <= 1000)%nat ->
  (List.length (securityEvents (call this c now)) <= 1000)%nat.
Proof.
  intros H. destruct c as [activity|attemptData|level|eventType d| |]; cbn [call].
  - unfold handleSuspiciousActivity.
    destruct (String.eqb (severity activity) "high");
      [now apply raiseThreatLevel_length|].
    destruct (String.eqb (severity activity) "medium");
      [now apply raiseThreatLevel_length | exact H].
  - unfold recordFailedAttempt, lockAccount. destruct (_ <=? _); [|exact H].
    cbn [securityEvents set_timers]. apply recordSecurityEvent_length.
  - now apply raiseThreatLevel_length.
  - apply recordSecurityEvent_length.
  - unfold runTimers.
    destruct (unlockAccount_fold now
                (filter (fun timer => due timer <=? now) (timers this))
                (set_timers this
                   (filter (fun timer => negb (due timer <=? now)) (timers this))))
      as (_ & _ & _ & _ & He & _). cbv zeta in He. now apply He.
  - unfold cleanupOldData. cbn [securityEvents set_failedAttempts
      set_suspiciousActivities set_securityEvents].
    etransitivity; [apply filter_length_le | exact H].
Qed.

(** X26.  Nothing lowers the threat level, and the events the manager
    listens to raise it to 'high' at most.  Over any series of calls the
    index of the level in [low, medium, high, critical] never goes down and
    the event log stays within 1000 entries; and as long as nobody calls
    [raiseThreatLevel] directly, a level at or below 'high' stays at or
    below 'high': a suspicious activity of severity 'critical' does not
    raise it. *)
Theorem threat_level_only_rises :
  forall (this : Manager) (calls : list (Call * Z)),
    (List.length (securityEvents this) <= 1000)%nat ->
    let after := run this calls in
    threatIndex this <= threatIndex after /\
    (List.length (securityEvents after) <= 1000)%nat /\
    ((forall c level, In c calls -> fst c <> RaiseThreatLevel level) ->
     threatIndex this <= 2 -> threatIndex after <= 2).
Proof.
  intros this calls. revert this. unfold run.
  induction calls as [|[c now] calls IH]; intros this Hlog; cbn [fold_left fst snd].
  - repeat split; auto; lia.
  - destruct (IH (call this c now) (call_log_bound this c now Hlog))
      as (Hup & Hlen & Hhigh).
    pose proof (call_threatIndex this c now) as Hc.
    assert (Hstep : threatIndex this <= threatIndex (call this c now)).
    { rewrite Hc. destruct c as [activity| |level| | |]; try lia.
      destruct (String.eqb (severity activity) "high"); [lia|].
      destruct (String.eqb (severity activity) "medium"); lia. }
    split; [lia|]. split; [exact Hlen|].
    intros Hno H2. apply Hhigh.
    + intros c' level Hin. apply Hno. now right.
    + rewrite Hc. destruct c as [activity| |level| | |]; try lia.
      * destruct (String.eqb (severity activity) "high"); [lia|].
        destruct (String.eqb (severity activity) "medium"); lia.
      * exfalso. apply (Hno (RaiseThreatLevel level, now) level); [now left|].
        reflexivity.
Qed.

Lemma threat_level_only_rises_witness :
  let after :=
    run initial
      [(SuspiciousActivity {| activity_type := "tamper"; severity := "critical";
                              activity_timestamp := None |}, 10);
       (SuspiciousActivity {| activity_type := "probe"; severity := "high";
                              activity_timestamp := None |}, 20);
       (SuspiciousActivity {| activity_type := "probe"; severity := "medium";
                              activity_timestamp := None |}, 30);
       (CleanupOldData, 40)] in
  threatIndex initial <= threatIndex after /\
  (List.length (securityEvents after) <= 1000)%nat /\
  threatIndex after <= 2.
Proof.
  intros after.
  destruct (threat_level_only_rises initial
              [(SuspiciousActivity {| activity_type := "tamper"; severity := "critical";
                                      activity_timestamp := None |}, 10);
               (SuspiciousActivity {| activity_type := "probe"; severity := "high";
                                      activity_timestamp := None |}, 20);
               (SuspiciousActivity {| activity_type := "probe"; severity := "medium";
                                      activity_timestamp := None |}, 30);
               (CleanupOldData, 40)]) as (Hup & Hlen & Hhigh).
  - simpl. lia.
  - split; [exact Hup|]. split; [exact Hlen|]. apply Hhigh.
    + intros c level [<-|[<-|[<-|[<-|[]]]]]; discriminate.
    + vm_compute. discriminate.
Defined.

End MonitorProperties.

Section FailedAttempts.

Import Monitor.

Lemma recent_app (c : Z) (l1 l2 : list Attempt) :
  recent c (l1 ++ l2) = recent c l1 ++ recent c l2.
Proof. apply filter_app. Qed.

(** Filtering with an older cutoff first changes nothing. *)
Lemma recent_recent (c1 c2 : Z) (l : list Attempt) :
  c1 <= c2 -> recent c2 (recent c1 l) = recent c2 l.
Proof.
  intros Hc. unfold recent. induction l as [|a l IH]; simpl; [reflexivity|].
  destruct (c1 <? attempt_timestamp a) eqn:E1; simpl.
  - now rewrite IH.
  - destruct (c2 <? attempt_timestamp a) eqn:E2; [|exact IH].
    apply Z.ltb_ge in E1. apply Z.ltb_lt in E2. lia.
Qed.

(** The table and the limits after one recorded failure. *)
Lemma recordFailedAttempt_table (this : Manager) (attemptData : AttemptData)
    (now : Z) :
  let after := recordFailedAttempt this attemptData now in
  let before :=
    match JSMap.get (failedAttempts this) (userId attemptData) with
    | Some attempts => attempts
    | None => []
    end in
  JSMap.get (failedAttempts after) (userId attemptData)
  = Some (recent (now - lockoutDuration this) (before ++ [attempt attemptData])) /\
  (forall other, userId attemptData <> other ->
                 JSMap.get (failedAttempts after) other
                 = JSMap.get (failedAttempts this) other) /\
  maxLoginAttempts after = maxLoginAttempts this /\
  lockoutDuration after = lockoutDuration this.
Proof.
  intros after before. subst after before. unfold recordFailedAttempt, JSMap.has.
  set (key := userId attemptData).
  destruct (JSMap.get (failedAttempts this) key) as [attempts|] eqn:Hget;
    cbn [negb].
  - rewrite Hget.
    match goal with |- context [if ?b then _ else _] => destruct b end;
      unfold lockAccount, recordSecurityEvent;
      cbn [failedAttempts maxLoginAttempts lockoutDuration
           set_timers set_securityEvents set_failedAttempts];
      (split; [apply get_set_same|]);
      (split; [intros other Hne; now apply get_set_other|]); auto.
  - rewrite get_set_same.
    match goal with |- context [if ?b then _ else _] => destruct b end;
      unfold lockAccount, recordSecurityEvent;
      cbn [failedAttempts maxLoginAttempts lockoutDuration
           set_timers set_securityEvents set_failedAttempts];
      (split; [apply get_set_same|]);
      (split; [intros other Hne; rewrite !get_set_other by exact Hne;
               reflexivity|]); auto.
Qed.

Lemma last_cons_default {A : Type} (a d : A) (l : list A) :
  last (a :: l) d = last l a.
Proof.
  revert a d. induction l as [|b l IH]; intros a d; [reflexivity|].
  change (last (a :: b :: l) d) with (last (b :: l) d).
  rewrite (IH b d). symmetry. apply IH.
Qed.

Lemma recordFailedAttempt_series (user : string) :
  forall (failures : list (Attempt * Z)) (this : Manager)
         (prior : list Attempt) (c : Z),
    JSMap.get (failedAttempts this) user = Some (recent c prior) ->
    StronglySorted Z.le ((c + lockoutDuration this) :: map snd failures) ->
    let after := run this (failures_of user failures) in
    let now := last (map snd failures) (c + lockoutDuration this) in
    JSMap.get (failedAttempts after) user
    = Some (recent (now - lockoutDuration this) (prior ++ map fst failures)) /\
    maxLoginAttempts after = maxLoginAttempts this /\
    lockoutDuration after = lockoutDuration this.
Proof.
  induction failures as [|[a t] failures IH]; intros this prior c Hget Hs.
  - cbn. rewrite app_nil_r, Hget. repeat split. f_equal. f_equal. lia.
  - change (run this (failures_of user ((a, t) :: failures)))
      with (run (recordFailedAttempt this {| userId := user; attempt := a |} t)
                (failures_of user failures)).
    cbn [map fst snd].
    pose proof (recordFailedAttempt_table this {| userId := user; attempt := a |} t)
      as (Hg & _ & Hm & Hd).
    cbn [userId attempt] in Hg. rewrite Hget in Hg.
    inversion Hs as [|? ? Hs' Hall]; subst.
    assert (Hct : c <= t - lockoutDuration this).
    { inversion Hall; subst. lia. }
    rewrite recent_app, recent_recent, <- recent_app in Hg by exact Hct.
    set (this' := recordFailedAttempt this {| userId := user; attempt := a |} t) in *.
    specialize (IH this' (prior ++ [a]) (t - lockoutDuration this)).
    rewrite Hd in IH. replace (t - lockoutDuration this + lockoutDuration this)
      with t in IH by lia.
    specialize (IH Hg Hs'). cbv zeta in IH.
    destruct IH as (IHg & IHm & IHd).
    rewrite <- app_assoc in IHg. cbn [app] in IHg.
    rewrite last_cons_default.
    split; [exact IHg|]. split; [now rewrite IHm | now rewrite IHd].
Qed.

(** X27.  The failed-attempt window slides.  When the failures of a
    user are reported in the order of their times, what the manager keeps
    after the last report is exactly the attempts of the series whose
    timestamps lie within [lockoutDuration] before that last report,
    older ones having been dropped on the way; and [isAccountLocked] at
    that moment holds exactly when their number has reached
    [maxLoginAttempts]. *)
Theorem failed_attempts_window :
  forall (this : Manager) (user : string) (first : Attempt) (t1 : Z)
         (more : list (Attempt * Z)),
    JSMap.get (failedAttempts this) user = None ->
    StronglySorted Z.le (t1 :: map snd more) ->
    let failures := (first, t1) :: more in
    let after := run this (failures_of user failures) in
    let now := last (map snd more) t1 in
    let window := recent (now - lockoutDuration this) (map fst failures) in
    JSMap.get (failedAttempts after) user = Some window /\
    isAccountLocked after user now
    = (maxLoginAttempts this <=? Z.of_nat (List.length window)).
Proof.
  intros this user first t1 more Hnone Hs failures after now window.
  pose proof (recordFailedAttempt_table this
                {| userId := user; attempt := first |} t1) as (Hg & _ & Hm & Hd).
  cbn [userId attempt] in Hg. rewrite Hnone in Hg. cbn [app] in Hg.
  set (this' := recordFailedAttempt this {| userId := user; attempt := first |} t1)
    in *.
  destruct (recordFailedAttempt_series user more this' [first]
              (t1 - lockoutDuration this)) as (Hget & Hmax & Hdur).
  - exact Hg.
  - rewrite Hd. replace (t1 - lockoutDuration this + lockoutDuration this)
      with t1 by lia. exact Hs.
  - rewrite Hd in Hget.
    replace (t1 - lockoutDuration this + lockoutDuration this) with t1 in Hget
      by lia.
    change (run this' (failures_of user more)) with after in Hget, Hmax, Hdur.
    fold now in Hget. change ([first] ++ map fst more) with (map fst failures) in Hget.
    fold window in Hget. split; [exact Hget|].
    unfold isAccountLocked. rewrite Hget, Hmax, Hdur, Hm, Hd.
    subst window. rewrite recent_recent by lia. reflexivity.
Qed.

Lemma failed_attempts_window_witness :
  let failures :=
    [({| ip := "203.0.113.7"; attempt_timestamp := 0 |}, 0);
     ({| ip := "203.0.113.7"; attempt_timestamp := 100000 |}, 100000);
     ({| ip := "203.0.113.7"; attempt_timestamp := 200000 |}, 200000);
     ({| ip := "203.0.113.7"; attempt_timestamp := 300000 |}, 300000);
     ({| ip := "203.0.113.7"; attempt_timestamp := 950000 |}, 950000)] in
  let after := run initial (failures_of "ada" failures) in
  JSMap.get (failedAttempts after) "ada"
  = Some [ {| ip := "203.0.113.7"; attempt_timestamp := 100000 |};
           {| ip := "203.0.113.7"; attempt_timestamp := 200000 |};
           {| ip := "203.0.113.7"; attempt_timestamp := 300000 |};
           {| ip := "203.0.113.7"; attempt_timestamp := 950000 |} ] /\
  isAccountLocked after "ada" 950000 = false.
Proof.
  apply (failed_attempts_window initial "ada"
           {| ip := "203.0.113.7"; attempt_timestamp := 0 |} 0
           [({| ip := "203.0.113.7"; attempt_timestamp := 100000 |}, 100000);
            ({| ip := "203.0.113.7"; attempt_timestamp := 200000 |}, 200000);
            ({| ip := "203.0.113.7"; attempt_timestamp := 300000 |}, 300000);
            ({| ip := "203.0.113.7"; attempt_timestamp := 950000 |}, 950000)]).
  - reflexivity.
  - repeat first [apply SSorted_cons | apply SSorted_nil
                 | apply Forall_cons | apply Forall_nil]; simpl; lia.
Defined.

(** X28.  [recordFailedAttempt] and [isAccountLocked] agree.  A
    reported failure records an 'account_locked' event and sets an unlock
    timer, due [lockoutDuration] later, exactly when [isAccountLocked]
    holds for that user right afterwards; otherwise the log and the timers
    are left as they were.  The attempts of other users are untouched. *)
Theorem recordFailedAttempt_locks_iff_isAccountLocked :
  forall (this : Manager) (attemptData : AttemptData) (now : Z),
    let user := userId attemptData in
    let after := recordFailedAttempt this attemptData now in
    (isAccountLocked after user now = true ->
     timers after
     = timers this ++ [ {| due := now + lockoutDuration this; unlocks := user |} ] /\
     exists older,
       securityEvents after
       = older ++
         [ {| type := "account_locked";
              data := [("userId"%string, VString user);
                       ("reason"%string, VString "too_many_failed_attempts");
                       ("lockoutDuration"%string, VNumber (lockoutDuration this))];
              timestamp := now;
              threatLevel := currentThreatLevel this |} ]) /\
    (isAccountLocked after user now = false ->
     timers after = timers this /\ securityEvents after = securityEvents this) /\
    (forall other, user <> other ->
                   JSMap.get (failedAttempts after) other
                   = JSMap.get (failedAttempts this) other).
Proof.
  intros this attemptData now user after.
  pose proof (recordFailedAttempt_table this attemptData now)
    as (Hg & Hother & Hm & Hd).
  fold after user in Hg, Hother, Hm, Hd.
  assert (Hlocked :
    isAccountLocked after user now
    = (maxLoginAttempts this <=?
       Z.of_nat (List.length
         (recent (now - lockoutDuration this)
            (match JSMap.get (failedAttempts this) user with
             | Some attempts => attempts
             | None => []
             end ++ [attempt attemptData]))))).
  { unfold isAccountLocked. rewrite Hg, Hm, Hd, recent_recent by lia.
    reflexivity. }
  split; [|split; [|exact Hother]]; rewrite Hlocked; intros Hb;
    subst after; unfold recordFailedAttempt, JSMap.has; fold user.
  - destruct (JSMap.get (failedAttempts this) user) as [attempts|] eqn:Hget;
      cbn [negb]; rewrite ?get_set_same, ?Hget;
      cbn [maxLoginAttempts set_failedAttempts]; cbn [app] in Hb |- *;
      rewrite Hb; unfold lockAccount;
      (split; [reflexivity|]);
      cbn [securityEvents set_timers]; unfold recordSecurityEvent;
      cbn [securityEvents set_securityEvents set_failedAttempts
           currentThreatLevel lockoutDuration];
      match goal with |- context [if ?b then _ else _] => destruct b eqn:E end;
      eauto;
      apply Nat.ltb_lt in E; rewrite length_app in E; cbn [List.length] in E;
      rewrite skipn_app;
      match goal with |- context [skipn ?k [?e]] =>
        replace k with 0%nat by (rewrite length_app; cbn [List.length]; lia)
      end; cbn [skipn]; eauto.
  - destruct (JSMap.get (failedAttempts this) user) as [attempts|] eqn:Hget;
      cbn [negb]; rewrite ?get_set_same, ?Hget;
      cbn [maxLoginAttempts set_failedAttempts]; cbn [app] in Hb |- *;
      rewrite Hb; split; reflexivity.
Qed.

Lemma recordFailedAttempt_locks_iff_isAccountLocked_witness :
  let after :=
    recordFailedAttempt initial
      {| userId := "ada";
         attempt := {| ip := "203.0.113.7"; attempt_timestamp := 5 |} |} 5 in
  timers after = timers initial /\ securityEvents after = securityEvents initial.
Proof.
  intros after.
  destruct (recordFailedAttempt_locks_iff_isAccountLocked initial
              {| userId := "ada";
                 attempt := {| ip := "203.0.113.7"; attempt_timestamp := 5 |} |} 5)
    as (_ & Hno & _).
  apply Hno. reflexivity.
Defined.

(** X29.  An unlock timer wipes the slate.  Once a timer set for a user
    has come due and the timers run, the manager holds no failed attempt of
    that user and does not report the account locked, however many failures
    were recorded in the meantime; and no timer that is due remains. *)
Theorem due_timer_unlocks_the_account :
  forall (this : Manager) (user : string) (timer : Timer) (now : Z),
    0 < maxLoginAttempts this ->
    In timer (timers this) -> unlocks timer = user -> due timer <= now ->
    let after := runTimers this now in
    JSMap.get (failedAttempts after) user = None /\
    isAccountLocked after user now = false /\
    (forall waiting, In waiting (timers after) -> now < due waiting).
Proof.
  intros this user timer now Hmax Hin Huser Hdue after.
  subst after. unfold runTimers.
  destruct (unlockAccount_fold now
              (filter (fun timer => due timer <=? now) (timers this))
              (set_timers this
                 (filter (fun timer => negb (due timer <=? now)) (timers this))))
    as (_ & Hm & _ & Ht & _ & Hg).
  cbv zeta in Hm, Ht, Hg.
  assert (Hex : existsb (fun timer => String.eqb (unlocks timer) user)
                  (filter (fun timer => due timer <=? now) (timers this)) = true).
  { apply existsb_exists. exists timer. split.
    - apply filter_In. split; [exact Hin | now apply Z.leb_le].
    - rewrite Huser. apply String.eqb_refl. }
  pose proof (Hg user) as Hnone. rewrite Hex in Hnone.
  split; [exact Hnone|]. split.
  - unfold isAccountLocked. rewrite Hnone, Hm. cbn.
    apply Z.leb_gt. exact Hmax.
  - intros waiting Hw. rewrite Ht in Hw. cbn [timers set_timers] in Hw.
    apply filter_In in Hw. destruct Hw as [_ Hw].
    apply negb_true_iff, Z.leb_gt in Hw. exact Hw.
Qed.

Lemma due_timer_unlocks_the_account_witness :
  let failures :=
    map (fun t => ({| ip := "203.0.113.7"; attempt_timestamp := t |}, t))
        [1; 2; 3; 4; 5; 6; 7; 8; 9; 10] in
  let locked := run initial (failures_of "ada" failures) in
  isAccountLocked locked "ada" 900005 = true /\
  isAccountLocked (runTimers locked 900005) "ada" 900005 = false.
Proof.
  intros failures locked. split; [reflexivity|].
  destruct (due_timer_unlocks_the_account locked "ada"
              {| due := 900005; unlocks := "ada" |} 900005) as (_ & Hfree & _).
  - reflexivity.
  - vm_compute. auto.
  - reflexivity.
  - simpl. lia.
  - exact Hfree.
Defined.

End FailedAttempts.

Section Cleanup.

Import Monitor.

(** What the loop of [cleanupOldData] leaves under a key. *)
Lemma cleanup_loop_get (cutoffTime : Z) (key : string) :
  forall (entries : list (string * list Attempt)) (table : JSMap.t (list Attempt)),
    NoDup (map fst entries) ->
    JSMap.get
      (fold_left
         (fun table entry =>
            let recentAttempts := recent cutoffTime (snd entry) in
            if (List.length recentAttempts =? 0)%nat
            then JSMap.delete table (fst entry)
            else JSMap.set table (fst entry) recentAttempts)
         entries table) key
    = match JSMap.get entries key with
      | Some attempts =>
          if (List.length (recent cutoffTime attempts) =? 0)%nat then None
          else Some (recent cutoffTime attempts)
      | None => JSMap.get table key
      end.
Proof.
  induction entries as [|[k attempts] entries IH]; intros table Hnd.
  - reflexivity.
  - inversion Hnd as [|? ? Hnotin Hnd']; subst.
    cbn [fold_left fst snd JSMap.get]. rewrite IH by exact Hnd'.
    destruct (String.eqb k key) eqn:E.
    + apply String.eqb_eq in E. subst k.
      rewrite (get_None_notin entries key Hnotin).
      destruct (List.length (recent cutoffTime attempts) =? 0)%nat.
      * apply get_delete_same.
      * apply get_set_same.
    + apply String.eqb_neq in E.
      destruct (JSMap.get entries key); [reflexivity|].
      destruct (List.length (recent cutoffTime attempts) =? 0)%nat.
      * now apply get_delete_other.
      * now apply get_set_other.
Qed.

Lemma cleanupOldData_get (this : Manager) (now : Z) (key : string) :
  JSMap.wf (failedAttempts this) ->
  JSMap.get (failedAttempts (cleanupOldData this now)) key
  = match JSMap.get (failedAttempts this) key with
    | Some attempts =>
        if (List.length (recent (now - 86400000) attempts) =? 0)%nat then None
        else Some (recent (now - 86400000) attempts)
    | None => None
    end.
Proof.
  intros Hwf. unfold cleanupOldData.
  cbn [failedAttempts set_failedAttempts set_suspiciousActivities
       set_securityEvents].
  rewrite cleanup_loop_get by exact Hwf.
  now destruct (JSMap.get (failedAttempts this) key).
Qed.

Lemma recent_In (c : Z) (l : list Attempt) (a : Attempt) :
  In a (recent c l) <-> In a l /\ c < attempt_timestamp a.
Proof. unfold recent. rewrite filter_In, Z.ltb_lt. reflexivity. Qed.

(** X30.  The five-minute cleaning job does not touch the locks.  On a
    manager whose lockout lasts a day at most, [cleanupOldData] leaves the
    answer of [isAccountLocked] for every user as it was; what it keeps of
    each user is the attempts of the last 24 hours, and no user is left
    with an empty list; events older than 24 hours are gone from the
    log. *)
Theorem cleanupOldData_keeps_the_locks :
  forall (this : Manager) (now : Z),
    JSMap.wf (failedAttempts this) ->
    lockoutDuration this <= 86400000 ->
    let after := cleanupOldData this now in
    (forall user, isAccountLocked after user now = isAccountLocked this user now) /\
    (forall user attempts,
        JSMap.get (failedAttempts after) user = Some attempts ->
        attempts <> [] /\
        exists before,
          JSMap.get (failedAttempts this) user = Some before /\
          attempts = recent (now - 86400000) before) /\
    (forall event, In event (securityEvents after) ->
                   In event (securityEvents this) /\
                   now - 86400000 < timestamp event).
Proof.
  intros this now Hwf Hd after. split; [|split].
  - intros user. unfold isAccountLocked. subst after.
    rewrite (cleanupOldData_get this now user Hwf).
    change (maxLoginAttempts (cleanupOldData this now))
      with (maxLoginAttempts this).
    change (lockoutDuration (cleanupOldData this now))
      with (lockoutDuration this).
    destruct (JSMap.get (failedAttempts this) user) as [before|]; [|reflexivity].
    destruct (List.length (recent (now - 86400000) before) =? 0)%nat eqn:E.
    + apply Nat.eqb_eq, length_zero_iff_nil in E.
      rewrite <- (recent_recent (now - 86400000) (now - lockoutDuration this) before)
        by lia.
      now rewrite E.
    + now rewrite recent_recent by lia.
  - intros user attempts Hget. subst after.
    rewrite (cleanupOldData_get this now user Hwf) in Hget.
    destruct (JSMap.get (failedAttempts this) user) as [before|]; [|discriminate].
    destruct (List.length (recent (now - 86400000) before) =? 0)%nat eqn:E;
      [discriminate|].
    inversion Hget; subst. split.
    + intros Hnil. rewrite Hnil in E. discriminate.
    + now exists before.
  - intros event Hin. subst after. unfold cleanupOldData in Hin.
    cbn [securityEvents set_failedAttempts set_suspiciousActivities
         set_securityEvents] in Hin.
    apply filter_In in Hin. destruct Hin as [Hin Ht].
    apply Z.ltb_lt in Ht. now split.
Qed.

Lemma cleanupOldData_keeps_the_locks_witness :
  let failures :=
    map (fun t => ({| ip := "203.0.113.7"; attempt_timestamp := t |}, t))
        [1; 2; 3; 4; 5] in
  let locked := run initial (failures_of "ada" failures) in
  isAccountLocked (cleanupOldData locked 6) "ada" 6
  = isAccountLocked locked "ada" 6.
Proof.
  intros failures locked.
  destruct (cleanupOldData_keeps_the_locks locked 6) as (Hsame & _).
  - unfold JSMap.wf. vm_compute. repeat constructor. intros [].
  - vm_compute. discriminate.
  - apply Hsame.
Defined.

End Cleanup.
